(** * Storage accounting and share links of the file-management schema

    A shallow embedding of the PL/pgSQL side of the repository (the schema
    file with its tables, the [update_storage_usage] trigger and the RPC
    functions [get_file_by_token], [create_share_link], [rename_file],
    [soft_delete_file], [restore_file], [permanently_delete_file] and
    [list_files]), followed by the properties of the specification that
    concern them.

    Conventions of the embedding:
    - a table with a primary key is a finite map from the key to the other
      columns of the row;
    - a nullable column is an [option]; SQL's three-valued logic is written
      out ([sql_and], [sql_ne], ...), and [IF c] / [WHERE c] fire only when
      [c] is [Some true];
    - [BIGINT] and [INTEGER] arithmetic raises [numeric_value_out_of_range]
      outside the type's range (PostgreSQL does not wrap around);
    - [NOW()], [auth.uid()], [gen_random_uuid()] and [gen_random_bytes(6)]
      are inputs of the call;
    - a function body is a state transformer that either returns or raises;
      an exception that leaves the function aborts the call, and the
      database is then the one the call started from;
    - what the source leaves to the server is made explicit: the setting
      [plpgsql.variable_conflict] is a parameter of the functions it
      affects, and redemptions that overlap are interleaved statement by
      statement, as under the default isolation level READ COMMITTED. *)

From Stdlib Require Import ZArith String Ascii Lia.
From Stdlib Require Strings.Byte.
From stdpp Require Import base option list gmap fin_maps strings sorting.

Local Open Scope Z_scope.

(** ** SQL values *)

Abbreviation uuid := N (only parsing).
Abbreviation timestamptz := Z (only parsing).

(** Three-valued logic: [None] is SQL's NULL (unknown). *)
Definition sql_not (a : option bool) : option bool := negb <$> a.

Definition sql_and (a b : option bool) : option bool :=
  match a, b with
  | Some false, _ | _, Some false => Some false
  | Some true, Some true => Some true
  | _, _ => None
  end.

Definition sql_or (a b : option bool) : option bool :=
  match a, b with
  | Some true, _ | _, Some true => Some true
  | Some false, Some false => Some false
  | _, _ => None
  end.

Definition is_null {A} (a : option A) : option bool :=
  Some (match a with Some _ => false | None => true end).

Definition is_not_null {A} (a : option A) : option bool :=
  Some (match a with Some _ => true | None => false end).

Definition sql_eq `{EqDecision A} (a b : option A) : option bool :=
  match a, b with
  | Some x, Some y => Some (bool_decide (x = y))
  | _, _ => None
  end.

Definition sql_ne `{EqDecision A} (a b : option A) : option bool :=
  match a, b with
  | Some x, Some y => Some (bool_decide (x ≠ y))
  | _, _ => None
  end.

Definition sql_lt (a b : option Z) : option bool :=
  match a, b with
  | Some x, Some y => Some (bool_decide (x < y))
  | _, _ => None
  end.

Definition sql_ge (a b : option Z) : option bool :=
  match a, b with
  | Some x, Some y => Some (bool_decide (y ≤ x))
  | _, _ => None
  end.

(** [a IS DISTINCT FROM b]: the comparison that treats NULL as a value. *)
Definition is_distinct_from `{EqDecision A} (a b : option A) : bool :=
  bool_decide (a ≠ b).

Definition COALESCE {A} (a : option A) (d : A) : A := default d a.

(** The test of [IF c THEN] and of [WHERE c]: NULL counts as not true. *)
Definition holds (c : option bool) : bool :=
  match c with Some true => true | _ => false end.

(** ** Exceptions *)

Inductive exn :=
  | raise_exception (message : string)      (* RAISE EXCEPTION 'message' *)
  | unique_violation (constraint : string)
  | not_null_violation (column : string)
  | ambiguous_column (name : string)
  | numeric_value_out_of_range
  | invalid_row_count_in_limit_clause       (* LIMIT must not be negative *)
  | invalid_row_count_in_result_offset_clause.

#[global] Instance exn_eq_dec : EqDecision exn.
Proof. solve_decision. Defined.

(** The failures of the specification are the messages of the source. *)
Definition InvalidToken : exn := raise_exception "Invalid or inactive token".
Definition Expired : exn := raise_exception "Token expired".
Definition InvalidPassword : exn := raise_exception "Invalid password".
Definition LimitReached : exn := raise_exception "Download limit reached".
Definition FileUnavailable : exn := raise_exception "File not available".
Definition NotFound : exn := raise_exception "File not found".
Definition NotAuthorized : exn := raise_exception "Not authorized".

Inductive result (A : Type) :=
  | Ok (a : A)
  | Err (e : exn).
Arguments Ok {A} a.
Arguments Err {A} e.

#[global] Instance result_ret : MRet result := λ A a, Ok a.
#[global] Instance result_bind : MBind result := λ A B f m,
  match m with Ok a => f a | Err e => Err e end.

Definition is_Ok {A} (r : result A) : bool :=
  match r with Ok _ => true | Err _ => false end.

(** ** Integer types *)

Definition bigint_min : Z := - 2 ^ 63.
Definition bigint_max : Z := 2 ^ 63 - 1.
Definition integer_min : Z := - 2 ^ 31.
Definition integer_max : Z := 2 ^ 31 - 1.

Definition in_range (lo hi : Z) (z : option Z) : result (option Z) :=
  match z with
  | None => Ok None
  | Some v =>
      if bool_decide (lo ≤ v ≤ hi) then Ok (Some v)
      else Err numeric_value_out_of_range
  end.

Definition sql_arith (op : Z → Z → Z) (a b : option Z) : option Z :=
  match a, b with
  | Some x, Some y => Some (op x y)
  | _, _ => None
  end.

Definition bigint_add (a b : option Z) : result (option Z) :=
  in_range bigint_min bigint_max (sql_arith Z.add a b).
Definition bigint_sub (a b : option Z) : result (option Z) :=
  in_range bigint_min bigint_max (sql_arith Z.sub a b).
Definition integer_add (a b : option Z) : result (option Z) :=
  in_range integer_min integer_max (sql_arith Z.add a b).

(** [GREATEST(a, b)] with a non-null [a]: a NULL argument is ignored. *)
Definition GREATEST (a : Z) (b : option Z) : option Z :=
  Some (match b with Some y => Z.max a y | None => a end).

(** ** Tables *)

(** [public.profiles], keyed by [id]. The columns [email], [full_name],
    [avatar_url] and the time stamps play no part in the functions below. *)
Record profile := {
  storage_used : option Z;
  storage_limit : option Z;
}.

(** [public.files], keyed by [id]. [updated_at] (set by the
    [update_updated_at_column] trigger) is left out. *)
Record file := {
  name : string;
  original_name : string;
  file_path : string;
  file_type : string;
  file_size : Z;
  folder_id : option uuid;
  owner_id : uuid;
  is_deleted : option bool;
  deleted_at : option timestamptz;
  created_at : option timestamptz;
}.

(** [public.share_links], keyed by [id]. *)
Record share_link := {
  file_id : uuid;
  token : string;
  password : option string;
  expires_at : option timestamptz;
  download_limit : option Z;
  download_count : option Z;
  created_by : uuid;
  is_active : option bool;
}.

Record db := {
  profiles : gmap uuid profile;
  files : gmap uuid file;
  share_links : gmap uuid share_link;
}.

Definition with_storage_used (v : option Z) (p : profile) : profile :=
  {| storage_used := v; storage_limit := storage_limit p |}.

Definition with_download_count (v : option Z) (sl : share_link) : share_link :=
  {| file_id := file_id sl; token := token sl; password := password sl;
     expires_at := expires_at sl; download_limit := download_limit sl;
     download_count := v; created_by := created_by sl;
     is_active := is_active sl |}.

Definition with_name (n o : string) (f : file) : file :=
  {| name := n; original_name := o; file_path := file_path f;
     file_type := file_type f; file_size := file_size f;
     folder_id := folder_id f; owner_id := owner_id f;
     is_deleted := is_deleted f; deleted_at := deleted_at f;
     created_at := created_at f |}.

Definition with_deleted (d : option bool) (t : option timestamptz) (f : file) : file :=
  {| name := name f; original_name := original_name f;
     file_path := file_path f; file_type := file_type f;
     file_size := file_size f; folder_id := folder_id f;
     owner_id := owner_id f; is_deleted := d; deleted_at := t;
     created_at := created_at f |}.

Definition with_file_size (n : Z) (f : file) : file :=
  {| name := name f; original_name := original_name f;
     file_path := file_path f; file_type := file_type f;
     file_size := n; folder_id := folder_id f;
     owner_id := owner_id f; is_deleted := is_deleted f;
     deleted_at := deleted_at f; created_at := created_at f |}.

Definition with_owner_id (u : uuid) (f : file) : file :=
  {| name := name f; original_name := original_name f;
     file_path := file_path f; file_type := file_type f;
     file_size := file_size f; folder_id := folder_id f;
     owner_id := u; is_deleted := is_deleted f;
     deleted_at := deleted_at f; created_at := created_at f |}.

(** ** The storage-usage trigger *)

(** The row-level event the trigger sees: [TG_OP] with [OLD] and [NEW]. *)
Inductive trigger_event :=
  | INSERT (NEW : file)
  | DELETE (OLD : file)
  | UPDATE (OLD NEW : file).

(** [UPDATE public.profiles SET storage_used = e WHERE id = k]. *)
Definition update_profiles (e : option Z → result (option Z)) (k : uuid)
    (ps : gmap uuid profile) : result (gmap uuid profile) :=
  match ps !! k with
  | None => Ok ps
  | Some p => v ← e (storage_used p); Ok (<[k := with_storage_used v p]> ps)
  end.

(** [storage_used + n] *)
Definition plus (n : Z) (su : option Z) : result (option Z) :=
  bigint_add su (Some n).

(** [GREATEST(0, storage_used - n)] *)
Definition minus_floored (n : Z) (su : option Z) : result (option Z) :=
  d ← bigint_sub su (Some n); Ok (GREATEST 0 d).

(** [storage_used + (n - o)] *)
Definition plus_delta (n o : Z) (su : option Z) : result (option Z) :=
  d ← bigint_sub (Some n) (Some o); bigint_add su d.

Definition counted (f : file) : bool := negb (COALESCE (is_deleted f) false).

Definition update_storage_usage (ev : trigger_event) (ps : gmap uuid profile)
    : result (gmap uuid profile) :=
  match ev with
  | INSERT NEW =>
      if counted NEW then update_profiles (plus (file_size NEW)) (owner_id NEW) ps
      else Ok ps
  | DELETE OLD =>
      if counted OLD
      then update_profiles (minus_floored (file_size OLD)) (owner_id OLD) ps
      else Ok ps
  | UPDATE OLD NEW =>
      if is_distinct_from (Some (owner_id NEW)) (Some (owner_id OLD)) then
        ps1 ← (if counted OLD
               then update_profiles (minus_floored (file_size OLD)) (owner_id OLD) ps
               else Ok ps);
        if counted NEW
        then update_profiles (plus (file_size NEW)) (owner_id NEW) ps1
        else Ok ps1
      else if counted OLD && counted NEW then
        if bool_decide (file_size NEW ≠ file_size OLD)
        then update_profiles (plus_delta (file_size NEW) (file_size OLD))
               (owner_id NEW) ps
        else Ok ps
      else if counted OLD && negb (counted NEW) then
        update_profiles (minus_floored (file_size OLD)) (owner_id NEW) ps
      else if negb (counted OLD) && counted NEW then
        update_profiles (plus (file_size NEW)) (owner_id NEW) ps
      else Ok ps
  end.

(** ** Statements on [public.files]

    The trigger [on_file_storage_change] runs after every row that is
    inserted, deleted or updated; when it raises, the statement fails and
    has no effect. *)

(** [INSERT INTO public.files] of one row. *)
Definition insert_files (id : uuid) (r : file) (s : db) : result db :=
  match files s !! id with
  | Some _ => Err (unique_violation "files_pkey")
  | None =>
      ps ← update_storage_usage (INSERT r) (profiles s);
      Ok {| profiles := ps; files := <[id := r]> (files s);
            share_links := share_links s |}
  end.

(** [DELETE FROM public.files WHERE id = id]; the share links of the file
    go with it ([ON DELETE CASCADE]). *)
Definition delete_files (id : uuid) (s : db) : result db :=
  match files s !! id with
  | None => Ok s
  | Some r =>
      ps ← update_storage_usage (DELETE r) (profiles s);
      Ok {| profiles := ps; files := delete id (files s);
            share_links := filter (λ kv, file_id kv.2 ≠ id) (share_links s) |}
  end.

(** [UPDATE public.files SET ... WHERE id = id], the assignments as a
    function of the old row. *)
Definition update_files (set : file → file) (id : uuid) (s : db) : result db :=
  match files s !! id with
  | None => Ok s
  | Some r =>
      ps ← update_storage_usage (UPDATE r (set r)) (profiles s);
      Ok {| profiles := ps; files := <[id := set r]> (files s);
            share_links := share_links s |}
  end.

(** ** Statements on [public.share_links] *)

(** [INSERT INTO public.share_links] of one row: the primary key and the
    [UNIQUE] constraint on [token] are checked. *)
Definition insert_share_links (id : uuid) (r : share_link) (s : db) : result db :=
  match share_links s !! id with
  | Some _ => Err (unique_violation "share_links_pkey")
  | None =>
      if bool_decide (map_Exists (λ _ sl, token sl = token r) (share_links s))
      then Err (unique_violation "share_links_token_key")
      else Ok {| profiles := profiles s; files := files s;
                 share_links := <[id := r]> (share_links s) |}
  end.

(** [UPDATE public.share_links SET download_count = download_count + 1
    WHERE id = id]. *)
Definition increment_download_count (id : uuid) (s : db) : result db :=
  match share_links s !! id with
  | None => Ok s
  | Some r =>
      v ← integer_add (download_count r) (Some 1);
      Ok {| profiles := profiles s; files := files s;
            share_links := <[id := with_download_count v r]> (share_links s) |}
  end.

(** ** PL/pgSQL function bodies *)

(** A body runs on a working copy of the database and either returns or
    raises; the working copy at the raise is kept to show how far the body
    got. *)
Inductive outcome (A : Type) :=
  | Returned (a : A) (s : db)
  | Raised (e : exn) (s : db).
Arguments Returned {A} a s.
Arguments Raised {A} e s.

Definition plpgsql (A : Type) : Type := db → outcome A.

#[global] Instance plpgsql_ret : MRet plpgsql := λ A a s, Returned a s.
#[global] Instance plpgsql_bind : MBind plpgsql := λ A B f m s,
  match m s with
  | Returned a s' => f a s'
  | Raised e s' => Raised e s'
  end.

Definition RAISE {A} (e : exn) : plpgsql A := λ s, Raised e s.

(** A [SELECT]: reads the working copy. *)
Definition query {A} (q : db → A) : plpgsql A := λ s, Returned (q s) s.

(** An [INSERT], [UPDATE] or [DELETE]: a failing statement changes nothing
    and its exception propagates. *)
Definition execute (stmt : db → result db) : plpgsql unit := λ s,
  match stmt s with
  | Ok s' => Returned () s'
  | Err e => Raised e s
  end.

(** A [SELECT] whose evaluation can fail. *)
Definition query_result {A} (q : db → result A) : plpgsql A := λ s,
  match q s with
  | Ok a => Returned a s
  | Err e => Raised e s
  end.

(** [IF c THEN RAISE EXCEPTION e; END IF;] *)
Definition raise_if (c : bool) (e : exn) : plpgsql unit :=
  if c then RAISE e else mret ().

(** A call of the function from outside: PostgreSQL aborts the calling
    statement when an exception leaves the function, and every change the
    body made is rolled back. *)
Definition call {A} (body : plpgsql A) (s : db) : result A * db :=
  match body s with
  | Returned a s' => (Ok a, s')
  | Raised e _ => (Err e, s)
  end.

(** ** [get_file_by_token] *)

Record file_by_token := {
  out_file_id : uuid;
  out_file_path : string;
  out_file_name : string;
  out_original_name : string;
  out_file_type : string;
}.

(** [SELECT * INTO sl FROM public.share_links
     WHERE token = p_token AND is_active = TRUE LIMIT 1] *)
Definition select_share_link (p_token : option string) (s : db)
    : option (uuid * share_link) :=
  head (filter
          (λ kv, holds (sql_and (sql_eq (Some (token kv.2)) p_token)
                                (sql_eq (is_active kv.2) (Some true))))
          (map_to_list (share_links s))).

(** [SELECT f.id, f.file_path, f.name, f.original_name, f.file_type
     FROM public.files f
     WHERE f.id = id AND NOT COALESCE(f.is_deleted, FALSE)] *)
Definition select_available_file (id : uuid) (s : db) : option file_by_token :=
  f ← files s !! id;
  if counted f
  then Some {| out_file_id := id; out_file_path := file_path f;
               out_file_name := name f; out_original_name := original_name f;
               out_file_type := file_type f |}
  else None.

(** The body after the first [SELECT] has filled the record [sl]. *)
Definition redeem_selected (now : timestamptz) (p_password : option string)
    (sl_id : uuid) (sl : share_link) : plpgsql file_by_token :=
  raise_if (holds (sql_and (is_not_null (expires_at sl))
                           (sql_lt (expires_at sl) (Some now))))
           Expired;;
  raise_if (holds (sql_and (is_not_null (password sl))
                           (sql_ne (password sl) p_password)))
           InvalidPassword;;
  raise_if (holds (sql_and (is_not_null (download_limit sl))
                           (sql_ge (download_count sl) (download_limit sl))))
           LimitReached;;
  execute (increment_download_count sl_id);;
  row ← query (select_available_file (file_id sl));
  match row with
  | None => RAISE FileUnavailable
  | Some r => mret r
  end.

Definition get_file_by_token_body (now : timestamptz)
    (p_token p_password : option string) : plpgsql file_by_token :=
  found ← query (select_share_link p_token);
  match found with
  | None => RAISE InvalidToken
  | Some (sl_id, sl) => redeem_selected now p_password sl_id sl
  end.

Definition get_file_by_token (now : timestamptz)
    (p_token p_password : option string) (s : db)
    : result file_by_token * db :=
  call (get_file_by_token_body now p_token p_password) s.

(** ** Names that are both a column and a variable

    The output columns of a [RETURNS TABLE] function are variables of its
    body.  Where a statement of the body uses, unqualified, a name that is
    such a variable and also a column of the table it reads, PL/pgSQL
    follows the setting [plpgsql.variable_conflict]: with [error], the
    server default, the statement is rejected when it is analysed, before it
    reads or writes a row; with [use_variable] the name is the variable;
    with [use_column] it is the column.  The source sets no
    [#variable_conflict], so the setting is a parameter of the functions
    that have such a name: [file_path] in [soft_delete_file] and
    [permanently_delete_file], [name] in [rename_file], [token] and
    [expires_at] in [create_share_link].  [get_file_by_token] qualifies its
    columns ([f.file_path]), and [restore_file] and [list_files] have no
    such name. *)
Inductive variable_conflict :=
  | vc_error
  | vc_use_variable
  | vc_use_column.

(** The analysis of a statement in which [name] is ambiguous. *)
Definition ambiguous (vc : variable_conflict) (name : string) : plpgsql unit :=
  match vc with
  | vc_error => RAISE (ambiguous_column name)
  | _ => mret ()
  end.

(** The value of an ambiguous name. *)
Definition resolve {A} (vc : variable_conflict) (variable column : A) : A :=
  match vc with
  | vc_use_variable => variable
  | _ => column
  end.

(** ** The ownership check shared by the mutating functions *)

(** [SELECT owner_id INTO owner FROM public.files WHERE id = p_file_id];
    [None] is [NOT FOUND]. *)
Definition select_owner_id (p_file_id : option uuid) (s : db) : option uuid :=
  id ← p_file_id; owner_id <$> files s !! id.

(** [SELECT owner_id, file_path INTO ... FROM public.files
     WHERE id = p_file_id], where [file_path] is ambiguous and the variable
    of that name is still NULL. *)
Definition select_owner_id_file_path (vc : variable_conflict)
    (p_file_id : option uuid) (s : db) : option (uuid * option string) :=
  id ← p_file_id;
  (λ f, (owner_id f, resolve vc None (Some (file_path f)))) <$> files s !! id.

(** ** [create_share_link] *)

(** [encode(bytes, 'hex')] *)
Definition hex_digit (n : N) : ascii :=
  default "0"%char (String.get (N.to_nat n) "0123456789abcdef").

Definition encode_hex (bytes : list Byte.byte) : string :=
  foldr (λ b acc, String (hex_digit (Byte.to_N b / 16))
                    (String (hex_digit (Byte.to_N b `mod` 16)) acc))
        EmptyString bytes.

Record created_share_link := {
  share_id : uuid;
  out_token : option string;
  out_expires_at : option timestamptz;
}.

(** One hour in microseconds, the resolution of [timestamptz]. *)
Definition hour : Z := 3600000000.

(** The row of the [INSERT]; [download_count] and [is_active] take their
    defaults. *)
Definition new_link (u : uuid) (now : timestamptz) (random_bytes : list Byte.byte)
    (fid : uuid) (p_expires_hours : option Z) (p_password : option string)
    (p_download_limit : option Z) : share_link :=
  {| file_id := fid; token := encode_hex random_bytes; password := p_password;
     expires_at := (λ h, now + h * hour) <$> p_expires_hours;
     download_limit := p_download_limit; download_count := Some 0;
     created_by := u; is_active := Some true |}.

(** [uid] is [auth.uid()], [now] is [NOW()], [new_id] is the
    [gen_random_uuid()] default of the new row and [random_bytes] is
    [gen_random_bytes(6)].  In [RETURNING id, token, expires_at] the names
    [token] and [expires_at] are ambiguous, and the variables of these
    names are still NULL. *)
Definition create_share_link_body (vc : variable_conflict)
    (uid : option uuid) (now : timestamptz)
    (new_id : uuid) (random_bytes : list Byte.byte)
    (p_file_id : option uuid) (p_expires_hours : option Z)
    (p_password : option string) (p_download_limit : option Z)
    : plpgsql created_share_link :=
  owner ← query (select_owner_id p_file_id);
  raise_if (bool_decide (owner = None)) NotFound;;
  raise_if (is_distinct_from owner uid) NotAuthorized;;
  ambiguous vc "token";;
  match p_file_id, uid with
  | None, _ => RAISE (not_null_violation "file_id")
  | _, None => RAISE (not_null_violation "created_by")
  | Some fid, Some u =>
      let rec := new_link u now random_bytes fid p_expires_hours
                   p_password p_download_limit in
      execute (insert_share_links new_id rec);;
      mret {| share_id := new_id;
              out_token := resolve vc None (Some (token rec));
              out_expires_at := resolve vc None (expires_at rec) |}
  end.

Definition create_share_link (vc : variable_conflict)
    (uid : option uuid) (now : timestamptz)
    (new_id : uuid) (random_bytes : list Byte.byte)
    (p_file_id : option uuid) (p_expires_hours : option Z)
    (p_password : option string) (p_download_limit : option Z) (s : db)
    : result created_share_link * db :=
  call (create_share_link_body vc uid now new_id random_bytes
          p_file_id p_expires_hours p_password p_download_limit) s.

(** ** [rename_file], [soft_delete_file], [restore_file],
       [permanently_delete_file] *)

(** In [RETURNING id, name INTO file_id, name] the name [name] is
    ambiguous. *)
Definition rename_file_body (vc : variable_conflict)
    (uid : option uuid) (p_file_id : option uuid)
    (p_new_name p_new_original_name : option string)
    : plpgsql (option uuid * option string) :=
  owner ← query (select_owner_id p_file_id);
  raise_if (bool_decide (owner = None)) NotFound;;
  raise_if (is_distinct_from owner uid) NotAuthorized;;
  ambiguous vc "name";;
  match p_file_id, p_new_name with
  | None, _ => mret (None, None)
  | _, None => RAISE (not_null_violation "name")
  | Some id, Some n =>
      execute (update_files
                 (λ f, with_name n (COALESCE p_new_original_name (original_name f)) f)
                 id);;
      mret (Some id, resolve vc None (Some n))
  end.

Definition rename_file (vc : variable_conflict)
    (uid : option uuid) (p_file_id : option uuid)
    (p_new_name p_new_original_name : option string) (s : db)
    : result (option uuid * option string) * db :=
  call (rename_file_body vc uid p_file_id p_new_name p_new_original_name) s.

Definition soft_delete_file_body (vc : variable_conflict)
    (uid : option uuid) (now : timestamptz)
    (p_file_id : option uuid) : plpgsql (option uuid * option string) :=
  ambiguous vc "file_path";;
  found ← query (select_owner_id_file_path vc p_file_id);
  raise_if (bool_decide (found = None)) NotFound;;
  raise_if (is_distinct_from (fst <$> found) uid) NotAuthorized;;
  execute (λ s, match p_file_id with
                | None => Ok s
                | Some id => update_files (with_deleted (Some true) (Some now)) id s
                end);;
  mret (p_file_id, found ≫= snd).

Definition soft_delete_file (vc : variable_conflict)
    (uid : option uuid) (now : timestamptz)
    (p_file_id : option uuid) (s : db)
    : result (option uuid * option string) * db :=
  call (soft_delete_file_body vc uid now p_file_id) s.

Definition restore_file_body (uid : option uuid) (p_file_id : option uuid)
    : plpgsql (option uuid) :=
  owner ← query (select_owner_id p_file_id);
  raise_if (bool_decide (owner = None)) NotFound;;
  raise_if (is_distinct_from owner uid) NotAuthorized;;
  execute (λ s, match p_file_id with
                | None => Ok s
                | Some id => update_files (with_deleted (Some false) None) id s
                end);;
  mret p_file_id.

Definition restore_file (uid : option uuid) (p_file_id : option uuid) (s : db)
    : result (option uuid) * db :=
  call (restore_file_body uid p_file_id) s.

Definition permanently_delete_file_body (vc : variable_conflict)
    (uid : option uuid) (p_file_id : option uuid)
    : plpgsql (option uuid * option string) :=
  ambiguous vc "file_path";;
  found ← query (select_owner_id_file_path vc p_file_id);
  raise_if (bool_decide (found = None)) NotFound;;
  raise_if (is_distinct_from (fst <$> found) uid) NotAuthorized;;
  execute (λ s, match p_file_id with
                | None => Ok s
                | Some id => delete_files id s
                end);;
  mret (p_file_id, found ≫= snd).

Definition permanently_delete_file (vc : variable_conflict)
    (uid : option uuid) (p_file_id : option uuid) (s : db)
    : result (option uuid * option string) * db :=
  call (permanently_delete_file_body vc uid p_file_id) s.

(** ** [list_files] *)

(** [ORDER BY created_at DESC]: later rows first, NULLs before all. *)
Definition created_desc (a b : uuid * file) : Prop :=
  match created_at a.2, created_at b.2 with
  | None, _ => True
  | Some _, None => False
  | Some x, Some y => y ≤ x
  end.

#[global] Instance created_desc_dec : RelDecision created_desc.
Proof.
  intros a b. unfold created_desc.
  destruct (created_at a.2), (created_at b.2); apply _.
Defined.

(** The order is total and transitive, so sorting by it is well defined. *)
#[global] Instance created_desc_total : Total created_desc.
Proof.
  intros a b. unfold created_desc.
  destruct (created_at a.2), (created_at b.2); try auto. lia.
Qed.

#[global] Instance created_desc_trans : Transitive created_desc.
Proof.
  intros a b c. unfold created_desc.
  destruct (created_at a.2), (created_at b.2), (created_at c.2);
    try done. lia.
Qed.

(** The [WHERE] clause of the listing. *)
Definition list_files_where (uid p_folder_id : option uuid)
    (p_include_deleted : option bool) (f : file) : option bool :=
  sql_and
    (sql_and
       (sql_eq (Some (owner_id f)) uid)
       (sql_or (sql_and (is_null p_folder_id) (is_null (folder_id f)))
               (sql_and (is_not_null p_folder_id)
                        (sql_eq (folder_id f) p_folder_id))))
    (sql_or p_include_deleted
            (sql_not (Some (COALESCE (is_deleted f) false)))).

(** [LIMIT p_limit OFFSET p_offset]: NULL is no limit and no offset, a
    negative count is an error, the offset being looked at first. *)
Definition limit_offset {A} (p_limit p_offset : option Z) (rows : list A)
    : result (list A) :=
  if bool_decide (COALESCE p_offset 0 < 0)
  then Err invalid_row_count_in_result_offset_clause
  else if bool_decide (COALESCE p_limit 0 < 0)
  then Err invalid_row_count_in_limit_clause
  else
    let rest := drop (Z.to_nat (COALESCE p_offset 0)) rows in
    Ok (match p_limit with
        | None => rest
        | Some n => take (Z.to_nat n) rest
        end).

(** The [SELECT] of the listing. The order of rows with the same
    [created_at], which SQL leaves open, is the one the merge sort gives. *)
Definition select_files (uid p_folder_id : option uuid)
    (p_limit p_offset : option Z) (p_include_deleted : option bool) (s : db)
    : result (list (uuid * file)) :=
  limit_offset p_limit p_offset
    (merge_sort created_desc
       (filter (λ kv, holds (list_files_where uid p_folder_id p_include_deleted kv.2))
               (map_to_list (files s)))).

Definition list_files_body (uid p_folder_id : option uuid)
    (p_limit p_offset : option Z) (p_include_deleted : option bool)
    : plpgsql (list (uuid * file)) :=
  query_result (select_files uid p_folder_id p_limit p_offset p_include_deleted).

Definition list_files (uid p_folder_id : option uuid)
    (p_limit p_offset : option Z) (p_include_deleted : option bool) (s : db)
    : result (list (uuid * file)) * db :=
  call (list_files_body uid p_folder_id p_limit p_offset p_include_deleted) s.

(** ** Redemptions that run at the same time

    The source sets no isolation level, so the functions run under
    PostgreSQL's default, READ COMMITTED: every statement of a function sees
    the rows committed before the statement starts.  [get_file_by_token]
    reads the link with a plain [SELECT] (no [FOR UPDATE]) into the record
    [sl], and evaluates its guards on that record.  Its [UPDATE] then locks
    the row until the transaction ends, so from the [UPDATE] on a redemption
    is atomic for the other redemptions of the link.  A redemption is
    therefore two atomic steps: the [SELECT], and the rest. *)

Inductive redemption :=
  | Calling (now : timestamptz) (p_token p_password : option string)
  | Selected (now : timestamptz) (p_password : option string)
             (sl_id : uuid) (sl : share_link)
  | Finished (r : result file_by_token).

Definition step (t : redemption) (s : db) : redemption * db :=
  match t with
  | Calling now p_token p_password =>
      match select_share_link p_token s with
      | None => (Finished (Err InvalidToken), s)
      | Some (sl_id, sl) => (Selected now p_password sl_id sl, s)
      end
  | Selected now p_password sl_id sl =>
      let r := call (redeem_selected now p_password sl_id sl) s in
      (Finished r.1, r.2)
  | Finished r => (Finished r, s)
  end.

(** A schedule names, step after step, the redemption that moves. *)
Definition run_step (c : list redemption * db) (i : nat) : list redemption * db :=
  match c.1 !! i with
  | None => c
  | Some t => let r := step t c.2 in (<[i := r.1]> c.1, r.2)
  end.

Definition run (schedule : list nat) (c : list redemption * db)
    : list redemption * db :=
  foldl run_step c schedule.

Definition succeeded (t : redemption) : bool :=
  match t with Finished (Ok _) => true | _ => false end.

(** Redemptions of one token that run one after another, each with its own
    [NOW()] and password. *)
Fixpoint redeem_in_turn (p_token : option string)
    (callers : list (timestamptz * option string)) (s : db)
    : list (result file_by_token) * db :=
  match callers with
  | [] => ([], s)
  | (now, p_password) :: rest =>
      let r := get_file_by_token now p_token p_password s in
      let rs := redeem_in_turn p_token rest r.2 in
      (r.1 :: rs.1, rs.2)
  end.

(** The schedule that lets redemptions [first], [first + 1], ... run one
    after another: both steps of one before the first step of the next. *)
Definition in_turn (first n : nat) : list nat :=
  flat_map (λ i, [i; i]) (seq first n).

Definition calling (p_token : option string)
    (caller : timestamptz * option string) : redemption :=
  Calling caller.1 p_token caller.2.

(** ** Mutations of file records and the recomputed usage *)

Inductive mutation :=
  | Insert (id : uuid) (r : file)
  | PermanentDelete (id : uuid)
  | SoftDelete (id : uuid) (now : timestamptz)
  | Restore (id : uuid)
  | Resize (id : uuid) (size : Z)
  | Transfer (id : uuid) (owner : uuid)
  | Rewrite (id : uuid) (r : file).   (* any other UPDATE, by the new row *)

Definition statement (m : mutation) : db → result db :=
  match m with
  | Insert id r => insert_files id r
  | PermanentDelete id => delete_files id
  | SoftDelete id now => update_files (with_deleted (Some true) (Some now)) id
  | Restore id => update_files (with_deleted (Some false) None) id
  | Resize id size => update_files (with_file_size size) id
  | Transfer id owner => update_files (with_owner_id owner) id
  | Rewrite id r => update_files (λ _, r) id
  end.

(** A statement that fails leaves the database as it was. *)
Definition apply (s : db) (m : mutation) : db :=
  match statement m s with
  | Ok s' => s'
  | Err _ => s
  end.

Definition replay (ms : list mutation) (s : db) : db := foldl apply s ms.

(** What one file adds to the usage of account [u]. *)
Definition contribution (u : uuid) (f : file) : Z :=
  if counted f && bool_decide (owner_id f = u) then file_size f else 0.

(** The sum of [file_size] over the non-deleted files owned by [u]. *)
Definition usage (u : uuid) (fs : gmap uuid file) : Z :=
  map_fold (λ _ f acc, contribution u f + acc) 0 fs.

(** The ledger invariant: every account row holds the recomputed sum. *)
Definition ledger_ok (s : db) : Prop :=
  ∀ u p, profiles s !! u = Some p → storage_used p = Some (usage u (files s)).

(** Sizes are non-negative, as the data model has them. *)
Definition sizes_ok (s : db) : Prop :=
  ∀ id f, files s !! id = Some f → 0 ≤ file_size f.

Definition size_ok (m : mutation) : Prop :=
  match m with
  | Insert _ r | Rewrite _ r => 0 ≤ file_size r
  | Resize _ size => 0 ≤ size
  | _ => True
  end.

(** The [UNIQUE] constraint on [share_links.token]. *)
Definition unique_tokens (s : db) : Prop :=
  ∀ i j a b, share_links s !! i = Some a → share_links s !! j = Some b →
             token a = token b → i = j.

(** ** The redemption guards in the words of the specification *)

Definition link_expired (now : timestamptz) (sl : share_link) : Prop :=
  ∃ t, expires_at sl = Some t ∧ t < now.

(** The caller gave a password and it is not the link's. *)
Definition password_differs (p_password : option string) (sl : share_link) : Prop :=
  ∃ p q, password sl = Some p ∧ p_password = Some q ∧ p ≠ q.

Definition limit_reached (sl : share_link) : Prop :=
  ∃ l c, download_limit sl = Some l ∧ download_count sl = Some c ∧ l ≤ c.

(** The link with the given token among the active links. *)
Definition active_link (s : db) (p_token : option string) (id : uuid)
    (sl : share_link) : Prop :=
  share_links s !! id = Some sl ∧ Some (token sl) = p_token ∧
  is_active sl = Some true.

(** The link has no password, or the caller gave the link's password. *)
Definition password_matches (p_password : option string) (sl : share_link) : Prop :=
  password sl = None ∨ p_password = password sl.

(** The database after the count of link [id] went up by one. *)
Definition counted_once (id : uuid) (sl : share_link) (c : Z) (s : db) : db :=
  {| profiles := profiles s; files := files s;
     share_links := <[id := with_download_count (Some (c + 1)) sl]> (share_links s) |}.

(** The results of redemptions that come after the limit was reached: none
    succeeds, and one that gets past the expiry and password guards fails
    with [LimitReached]. *)
Definition refusals (sl : share_link)
    (callers : list (timestamptz * option string))
    (rs : list (result file_by_token)) : Prop :=
  Forall2 (λ caller r,
             is_Ok r = false ∧
             (¬ link_expired caller.1 sl → password_matches caller.2 sl →
              r = Err LimitReached))
          callers rs.

(** ** The mutating operations behind the ownership check *)

Inductive operation :=
  | RenameFile (p_new_name p_new_original_name : option string)
  | SoftDeleteFile (now : timestamptz)
  | RestoreFile
  | PermanentlyDeleteFile
  | CreateShareLink (now : timestamptz) (new_id : uuid)
      (random_bytes : list Byte.byte) (p_expires_hours : option Z)
      (p_password : option string) (p_download_limit : option Z).

Definition failure {A} (r : result A * db) : option exn * db :=
  (match r.1 with Ok _ => None | Err e => Some e end, r.2).

(** The failure of the operation, if any, and the database after it. *)
Definition perform (vc : variable_conflict) (op : operation)
    (uid p_file_id : option uuid) (s : db) : option exn * db :=
  match op with
  | RenameFile n o => failure (rename_file vc uid p_file_id n o s)
  | SoftDeleteFile now => failure (soft_delete_file vc uid now p_file_id s)
  | RestoreFile => failure (restore_file uid p_file_id s)
  | PermanentlyDeleteFile => failure (permanently_delete_file vc uid p_file_id s)
  | CreateShareLink now new_id random_bytes h p l =>
      failure (create_share_link vc uid now new_id random_bytes p_file_id h p l s)
  end.

(** The operations whose first statement has an ambiguous name, under the
    setting that rejects such statements. *)
Definition rejected_at_once (vc : variable_conflict) (op : operation) : bool :=
  match vc, op with
  | vc_error, (SoftDeleteFile _ | PermanentlyDeleteFile) => true
  | _, _ => false
  end.

(** ** The effect of one trigger event on the recomputed usage *)

(** What the event takes out of the usage of [u] and what it puts in. *)
Definition leaving (ev : trigger_event) (u : uuid) : Z :=
  match ev with
  | INSERT _ => 0
  | DELETE OLD | UPDATE OLD _ => contribution u OLD
  end.

Definition entering (ev : trigger_event) (u : uuid) : Z :=
  match ev with
  | INSERT NEW | UPDATE _ NEW => contribution u NEW
  | DELETE _ => 0
  end.

(** The ledger of [ps] is the function [U] of the account. *)
Definition ledger_is (ps : gmap uuid profile) (U : uuid → Z) : Prop :=
  ∀ u p, ps !! u = Some p → storage_used p = Some (U u).

(** ** Deciding the well-formedness conditions *)

#[global] Instance ledger_ok_dec s : Decision (ledger_ok s).
Proof.
  refine (cast_if (decide (map_Forall
            (λ u p, storage_used p = Some (usage u (files s))) (profiles s))));
    done.
Defined.

#[global] Instance sizes_ok_dec s : Decision (sizes_ok s).
Proof.
  refine (cast_if (decide (map_Forall (λ _ f, 0 ≤ file_size f) (files s))));
    done.
Defined.

#[global] Instance size_ok_dec m : Decision (size_ok m).
Proof. destruct m; simpl; apply _. Defined.

#[global] Instance unique_tokens_dec s : Decision (unique_tokens s).
Proof.
  refine (cast_if (decide (map_Forall (λ i a,
            map_Forall (λ j b, token a = token b → i = j) (share_links s))
            (share_links s)))).
  - intros i j a b Hi Hj. exact (m i a Hi j b Hj).
  - intros H. apply n. intros i a Hi j b Hj. by apply (H i j a b).
Defined.

(** ** Sample data *)

Definition alice : uuid := 1%N.
Definition bob : uuid := 2%N.

Definition report : file :=
  {| name := "report.pdf"; original_name := "report.pdf";
     file_path := "1/report.pdf"; file_type := "application/pdf";
     file_size := 100; folder_id := None; owner_id := alice;
     is_deleted := Some false; deleted_at := None; created_at := Some 5 |}.

Definition empty_profile : profile :=
  {| storage_used := Some 0; storage_limit := Some 5368709120 |}.

(** Two accounts and no files. *)
Definition fresh_db : db :=
  {| profiles := {[ alice := empty_profile; bob := empty_profile ]};
     files := ∅; share_links := ∅ |}.

Definition history : list mutation :=
  [ Insert 7%N report; Resize 7%N 250; SoftDelete 7%N 10; Restore 7%N;
    Transfer 7%N bob; Insert 8%N report;
    Rewrite 7%N (with_deleted (Some true) (Some 11) report);
    PermanentDelete 7%N ].

(** A history with a file of negative size, which the table takes
    ([file_size BIGINT NOT NULL], no [CHECK]): two inserts, of -10 and of 5
    bytes, and the soft-delete of the second file. *)
Definition negative_history : list mutation :=
  [ Insert 7%N (with_file_size (-10) report);
    Insert 8%N (with_file_size 5 report);
    SoftDelete 8%N 10 ].

(** A ledger that has drifted below the true sum: alice owns [report]
    (100 bytes) and her [storage_used] reads 30. *)
Definition drifted_db : db :=
  {| profiles := {[ alice := with_storage_used (Some 30) empty_profile ]};
     files := {[ 7%N := report ]}; share_links := ∅ |}.

(** Alice owns [report] and her ledger says so. *)
Definition stored_db : db :=
  {| profiles := {[ alice := with_storage_used (Some 100) empty_profile;
                    bob := empty_profile ]};
     files := {[ 7%N := report ]}; share_links := ∅ |}.

Definition secret_link : share_link :=
  {| file_id := 7%N; token := "00ff1a000009"; password := Some "secret";
     expires_at := Some 1000; download_limit := Some 1;
     download_count := Some 0; created_by := alice; is_active := Some true |}.

(** Alice has shared [report] through [secret_link]. *)
Definition shared_db : db :=
  {| profiles := profiles stored_db; files := files stored_db;
     share_links := {[ 50%N := secret_link ]} |}.

(** The same, but [report] sits in the trash. *)
Definition trashed_db : db :=
  {| profiles := {[ alice := empty_profile; bob := empty_profile ]};
     files := {[ 7%N := with_deleted (Some true) (Some 9) report ]};
     share_links := {[ 50%N := secret_link ]} |}.

Definition report_row : file_by_token :=
  {| out_file_id := 7%N; out_file_path := "1/report.pdf";
     out_file_name := "report.pdf"; out_original_name := "report.pdf";
     out_file_type := "application/pdf" |}.

Definition sample_bytes : list Byte.byte :=
  [Byte.x00; Byte.xff; Byte.x1a; Byte.x00; Byte.x00; Byte.x09].

Definition in_folder (folder : option uuid) (created : timestamptz)
    (deleted : bool) (owner : uuid) (f : file) : file :=
  {| name := name f; original_name := original_name f;
     file_path := file_path f; file_type := file_type f;
     file_size := file_size f; folder_id := folder; owner_id := owner;
     is_deleted := Some deleted;
     deleted_at := if deleted then Some created else None;
     created_at := Some created |}.

(** Alice has two files at the root, one in folder 3 and one in the trash;
    bob has one file at the root. *)
Definition folders_db : db :=
  {| profiles := {[ alice := with_storage_used (Some 300) empty_profile;
                    bob := with_storage_used (Some 100) empty_profile ]};
     files := {[ 7%N := report;
                 8%N := in_folder (Some 3%N) 8 false alice report;
                 9%N := in_folder None 9 false alice report;
                 10%N := in_folder None 2 true alice report;
                 11%N := in_folder None 7 false bob report ]};
     share_links := ∅ |}.

(** ** Further definitions: the ledger beyond the invariant *)

(** Every account row holds a number that is not negative. *)
Definition ledger_nonneg (ps : gmap uuid profile) : Prop :=
  ∀ u p, ps !! u = Some p → ∃ v, storage_used p = Some v ∧ 0 ≤ v.

(** The event is an update that keeps the owner, counts before and after,
    and makes the file smaller. *)
Definition shrinks (ev : trigger_event) : Prop :=
  match ev with
  | UPDATE OLD NEW =>
      owner_id NEW = owner_id OLD ∧ counted OLD = true ∧ counted NEW = true ∧
      file_size NEW < file_size OLD
  | _ => False
  end.

(** The size the event brings in is not negative. *)
Definition new_size_ok (ev : trigger_event) : Prop :=
  match ev with
  | INSERT NEW | UPDATE _ NEW => 0 ≤ file_size NEW
  | DELETE _ => True
  end.

#[global] Instance ledger_nonneg_dec ps : Decision (ledger_nonneg ps).
Proof.
  refine (cast_if (decide (map_Forall
            (λ _ p, match storage_used p with
                    | Some v => bool_decide (0 ≤ v)
                    | None => false
                    end = true) ps))).
  - intros u p Hp. specialize (m u p Hp). simpl in m.
    destruct (storage_used p) as [v|]; [|done].
    exists v. split; [done|]. by apply bool_decide_eq_true in m.
  - intros Hall. destruct n. intros u p Hp. simpl.
    destruct (Hall u p Hp) as (v & -> & Hv). by apply bool_decide_eq_true.
Defined.

(** An account with a limit of 50 bytes. *)
Definition small_profile : profile :=
  {| storage_used := Some 0; storage_limit := Some 50 |}.

Definition small_db : db :=
  {| profiles := {[ alice := small_profile ]}; files := ∅; share_links := ∅ |}.


(** ** Further definitions: share links *)

(** Where a limit is set, the count has not passed it. *)
Definition within_limit (s : db) : Prop :=
  ∀ id sl l c, share_links s !! id = Some sl →
               download_limit sl = Some l → download_count sl = Some c →
               c ≤ l.

#[global] Instance within_limit_dec s : Decision (within_limit s).
Proof.
  refine (cast_if (decide (map_Forall
            (λ _ sl, match download_limit sl, download_count sl with
                     | Some l, Some c => bool_decide (c ≤ l)
                     | _, _ => true
                     end = true) (share_links s)))).
  - intros id sl l c Hid Hl Hc. specialize (m id sl Hid). simpl in m.
    rewrite Hl, Hc in m. by apply bool_decide_eq_true in m.
  - intros Hall. destruct n. intros id sl Hid. simpl.
    destruct (download_limit sl) as [l|] eqn:Hl; [|done].
    destruct (download_count sl) as [c|] eqn:Hc; [|done].
    apply bool_decide_eq_true. by eapply Hall.
Defined.

(** Two links are the same but for their [download_count]. *)
Definition same_but_count (a b : share_link) : Prop :=
  b = with_download_count (download_count b) a.

(** The row of [get_file_by_token] for a file. *)
Definition row_of (id : uuid) (f : file) : file_by_token :=
  {| out_file_id := id; out_file_path := file_path f;
     out_file_name := name f; out_original_name := original_name f;
     out_file_type := file_type f |}.

(** The characters of a lower-case hexadecimal numeral. *)
Definition hex_chars : list ascii := list_ascii_of_string "0123456789abcdef".

(** The value of a hexadecimal digit, and the byte two digits stand for. *)
Definition hex_value (c : ascii) : N :=
  default 0%N (N.of_nat <$> list_find (λ d, d = c) hex_chars ≫= Some ∘ fst).

Definition byte_of_hex (hi lo : ascii) : option Byte.byte :=
  Byte.of_N (16 * hex_value hi + hex_value lo).

(** ** Further definitions: references and isolation *)

(** The foreign key of [share_links.file_id]: every share link refers to a
    row of [public.files]. *)
Definition links_refer (s : db) : Prop :=
  ∀ id sl, share_links s !! id = Some sl → is_Some (files s !! file_id sl).

#[global] Instance links_refer_dec s : Decision (links_refer s).
Proof.
  refine (cast_if (decide (map_Forall
            (λ _ sl, is_Some (files s !! file_id sl)) (share_links s))));
    done.
Defined.

(** The database after an operation, whether it failed or not. *)
Definition after (vc : variable_conflict) (op : operation)
    (uid p_file_id : option uuid) (s : db) : db :=
  (perform vc op uid p_file_id s).2.

(** The statements an operation runs once its checks have passed: an
    update of the file that keeps its owner, its deletion, or the insertion
    of a share link to it. *)
Inductive ran (id : uuid) (f : file) (s s' : db) : Prop :=
  | ran_update (set : file → file) :
      owner_id (set f) = owner_id f → update_files set id s = Ok s' →
      ran id f s s'
  | ran_delete : delete_files id s = Ok s' → ran id f s s'
  | ran_insert_link (new_id : uuid) (sl : share_link) :
      file_id sl = id → insert_share_links new_id sl s = Ok s' →
      ran id f s s'.

(** ** Further definitions: listing *)

(** The rows [list_files] is to show: those of the caller in the folder
    asked for, the root where none is, without the trash unless it is
    asked for. *)
Definition in_listing (uid p_folder_id : option uuid)
    (p_include_deleted : option bool) (f : file) : Prop :=
  Some (owner_id f) = uid ∧ folder_id f = p_folder_id ∧
  (counted f = true ∨ p_include_deleted = Some true).

(** ** [handle_new_user]

    The trigger [on_auth_user_created] runs the function after every row
    that is inserted into [auth.users]; [new_id] and [new_email] are the
    [id] and [email] of that row and [meta_full_name] is
    [raw_user_meta_data->>'full_name']. *)

(** The [full_name] of the new row, [COALESCE(meta_full_name, new_email)];
    the column is not among those [profile] keeps. *)
Definition new_full_name (new_email meta_full_name : option string)
    : option string :=
  match meta_full_name with
  | Some n => Some n
  | None => new_email
  end.

(** The row of the [INSERT]: [storage_used] and [storage_limit] take their
    defaults, 0 and 5 GiB. *)
Definition new_profile : profile :=
  {| storage_used := Some 0; storage_limit := Some 5368709120 |}.

(** [INSERT INTO public.profiles (id, email, full_name) VALUES (...)]:
    [email] is [NOT NULL], [id] is the primary key. *)
Definition handle_new_user (new_id : uuid)
    (new_email meta_full_name : option string) (s : db) : result db :=
  match new_email with
  | None => Err (not_null_violation "email")
  | Some _ =>
      match profiles s !! new_id with
      | Some _ => Err (unique_violation "profiles_pkey")
      | None =>
          Ok {| profiles := <[new_id := new_profile]> (profiles s);
                files := files s; share_links := share_links s |}
      end
  end.

(** The user owns no file. *)
Definition owns_nothing (u : uuid) (s : db) : Prop :=
  ∀ id f, files s !! id = Some f → owner_id f ≠ u.

#[global] Instance owns_nothing_dec u s : Decision (owns_nothing u s).
Proof.
  refine (cast_if (decide (map_Forall (λ _ f, owner_id f ≠ u) (files s))));
    done.
Defined.

(** ** [bulk_insert_files] *)

(** A row of [jsonb_to_recordset(p_records) AS r(name text, original_name
    text, file_path text, file_type text, file_size text, folder_id text)]:
    every column is text, and a key that is missing or null gives NULL. *)
Record file_record := {
  r_name : option string;
  r_original_name : option string;
  r_file_path : option string;
  r_file_type : option string;
  r_file_size : option string;
  r_folder_id : option string;
}.

(** The failures of a statement: the ones of [exn], a text that is no
    value of the type it is cast to, a reference to a row that is not
    there, and a row that a policy of the table does not let in. *)
Inductive sqlstate :=
  | invalid_text_representation (type : string)
  | foreign_key_violation (constraint : string)
  | insufficient_privilege (table : string)
  | statement_exn (e : exn).

Inductive attempt (A : Type) :=
  | Done (a : A)
  | Failed (e : sqlstate).
Arguments Done {A} a.
Arguments Failed {A} e.

#[global] Instance attempt_ret : MRet attempt := λ A a, Done a.
#[global] Instance attempt_bind : MBind attempt := λ A B f m,
  match m with Done a => f a | Failed e => Failed e end.

(** The values of one row of the [SELECT], nullable as SQL has them. *)
Record files_values := {
  v_name : option string;
  v_original_name : option string;
  v_file_path : option string;
  v_file_type : option string;
  v_file_size : option Z;
  v_folder_id : option uuid;
  v_owner_id : option uuid;
}.

(** A [NOT NULL] column. *)
Definition not_null {A} (column : string) (v : option A) : attempt A :=
  match v with
  | Some a => Done a
  | None => Failed (statement_exn (not_null_violation column))
  end.

(** A cast of a nullable text. *)
Definition cast {A} (from_text : string → attempt A) (t : option string)
    : attempt (option A) :=
  match t with
  | None => Done None
  | Some x => a ← from_text x; Done (Some a)
  end.

(** The row that is stored: the [NOT NULL] columns are checked in the order
    of the table, and [is_deleted], [deleted_at] and [created_at] take
    their defaults. *)
Definition files_row (now : timestamptz) (v : files_values) : attempt file :=
  n ← not_null "name" (v_name v);
  o ← not_null "original_name" (v_original_name v);
  p ← not_null "file_path" (v_file_path v);
  t ← not_null "file_type" (v_file_type v);
  z ← not_null "file_size" (v_file_size v);
  u ← not_null "owner_id" (v_owner_id v);
  Done {| name := n; original_name := o; file_path := p; file_type := t;
          file_size := z; folder_id := v_folder_id v; owner_id := u;
          is_deleted := Some false; deleted_at := None;
          created_at := Some now |}.

(** What the trigger [on_file_storage_change] and the foreign keys of
    [folder_id] and [owner_id] do for one inserted row. They run when all
    rows are in, row by row. *)
Definition after_insert (folders users : gset uuid) (row : uuid * file)
    (ps : gmap uuid profile) : attempt (gmap uuid profile) :=
  if match folder_id row.2 with
     | Some d => bool_decide (d ∉ folders)
     | None => false
     end
  then Failed (foreign_key_violation "files_folder_id_fkey")
  else if bool_decide (owner_id row.2 ∉ users)
  then Failed (foreign_key_violation "files_owner_id_fkey")
  else match update_storage_usage (INSERT row.2) ps with
       | Ok ps' => Done ps'
       | Err e => Failed (statement_exn e)
       end.

Fixpoint after_inserts (folders users : gset uuid) (rows : list (uuid * file))
    (ps : gmap uuid profile) : attempt (gmap uuid profile) :=
  match rows with
  | [] => Done ps
  | row :: rows' =>
      ps' ← after_insert folders users row ps;
      after_inserts folders users rows' ps'
  end.

Section bulk_insert_files.
(** The casts [::bigint] and [::uuid] of a text. *)
Variable bigint_in : string → attempt Z.
Variable uuid_in : string → attempt uuid.

(** [SELECT r.name, r.original_name, r.file_path, r.file_type,
     r.file_size::bigint,
     (CASE WHEN r.folder_id IS NULL THEN NULL ELSE r.folder_id::uuid END),
     uid] for one record. *)
Definition select_values (uid : option uuid) (r : file_record)
    : attempt files_values :=
  z ← cast bigint_in (r_file_size r);
  d ← cast uuid_in (r_folder_id r);
  Done {| v_name := r_name r; v_original_name := r_original_name r;
          v_file_path := r_file_path r; v_file_type := r_file_type r;
          v_file_size := z; v_folder_id := d; v_owner_id := uid |}.

(** The rows go in one after the other; the [i]-th of them has the id
    [new_id i], its [gen_random_uuid()] default. *)
Fixpoint insert_rows (uid : option uuid) (now : timestamptz)
    (new_id : nat → uuid) (i : nat) (records : list file_record)
    (fs : gmap uuid file) : attempt (list (uuid * file) * gmap uuid file) :=
  match records with
  | [] => Done ([], fs)
  | r :: records' =>
      v ← select_values uid r;
      f ← files_row now v;
      match fs !! new_id i with
      | Some _ => Failed (statement_exn (unique_violation "files_pkey"))
      | None =>
          rest ← insert_rows uid now new_id (S i) records'
                   (<[new_id i := f]> fs);
          Done ((new_id i, f) :: rest.1, rest.2)
      end
  end.

(** [folders] and [users] are the ids in [public.folders] and
    [auth.users], [uid] is [auth.uid()], [now] is [NOW()] and [records]
    are the rows of [jsonb_to_recordset(p_records)]; an argument that is
    no array of objects fails there, before a row is read. The function
    returns the rows it has inserted; when the statement fails nothing is
    inserted. *)
Definition bulk_insert_files (folders users : gset uuid) (uid : option uuid)
    (now : timestamptz) (new_id : nat → uuid) (records : list file_record)
    (s : db) : attempt (list (uuid * file)) * db :=
  match
    inserted ← insert_rows uid now new_id 0 records (files s);
    ps ← after_inserts folders users inserted.1 (profiles s);
    Done (inserted.1, {| profiles := ps; files := inserted.2;
                         share_links := share_links s |})
  with
  | Done (rows, s') => (Done rows, s')
  | Failed e => (Failed e, s)
  end.
End bulk_insert_files.

(** What the rows add to the usage of account [u]. *)
Definition contributions (u : uuid) (rows : list (uuid * file)) : Z :=
  foldr (λ row acc, contribution u row.2 + acc) 0 rows.

(** Decimal numerals and the ids 1 to 9, for the examples. *)
Definition sample_bigint_in (t : string) : attempt Z :=
  match t with
  | "40" => Done 40
  | "-60" => Done (-60)
  | _ => Failed (invalid_text_representation "bigint")
  end.

Definition sample_uuid_in (t : string) : attempt uuid :=
  match t with
  | "3" => Done 3%N
  | _ => Failed (invalid_text_representation "uuid")
  end.

Definition sample_record (size : string) (folder : option string)
    : file_record :=
  {| r_name := Some "a.txt"; r_original_name := Some "a.txt";
     r_file_path := Some "1/a.txt"; r_file_type := Some "text/plain";
     r_file_size := Some size; r_folder_id := folder |}.

(** ** Row-level security

    The application does not call the functions above. It reads and writes
    the tables themselves, as the user that is signed in, and the policies
    of the tables decide which rows it reaches. [folders] and [users] are
    the ids in [public.folders] and [auth.users]. *)

(** [auth.uid() = x], the condition of every policy of the tables: it is
    not true for a caller that is not signed in. *)
Definition policy (uid : option uuid) (x : uuid) : bool :=
  holds (sql_eq uid (Some x)).

Definition lift {A} (r : result A) : attempt A :=
  match r with
  | Ok a => Done a
  | Err e => Failed (statement_exn e)
  end.

(** The foreign keys of a row of [public.files]. *)
Definition files_fkeys (folders users : gset uuid) (r : file) : attempt unit :=
  if match folder_id r with
     | Some d => bool_decide (d ∉ folders)
     | None => false
     end
  then Failed (foreign_key_violation "files_folder_id_fkey")
  else if bool_decide (owner_id r ∉ users)
  then Failed (foreign_key_violation "files_owner_id_fkey")
  else Done ().

(** The statements the application sends. *)
Inductive request :=
  | InsertFile (id : uuid) (r : file)
  | UpdateFile (id : uuid) (set : file → file)
  | DeleteFile (id : uuid)
  | InsertShareLink (id : uuid) (r : share_link).

(** A request under the policies. An [INSERT] whose row does not pass
    the [WITH CHECK] of the table fails. An [UPDATE] or [DELETE] reaches
    only the rows that pass [USING], and says nothing when it reaches none;
    as the [UPDATE] policy of [public.files] has no [WITH CHECK], its
    [USING] is applied to the new row as well. The foreign keys are looked
    at when the row is in. *)
Definition submit (folders users : gset uuid) (uid : option uuid)
    (q : request) (s : db) : attempt db :=
  match q with
  | InsertFile id r =>
      if policy uid (owner_id r)
      then s' ← lift (insert_files id r s);
           files_fkeys folders users r;; Done s'
      else Failed (insufficient_privilege "files")
  | UpdateFile id set =>
      match files s !! id with
      | None => Done s
      | Some r =>
          if policy uid (owner_id r)
          then if policy uid (owner_id (set r))
               then s' ← lift (update_files set id s);
                    files_fkeys folders users (set r);; Done s'
               else Failed (insufficient_privilege "files")
          else Done s
      end
  | DeleteFile id =>
      match files s !! id with
      | None => Done s
      | Some r => if policy uid (owner_id r) then lift (delete_files id s)
                  else Done s
      end
  | InsertShareLink id r =>
      if policy uid (created_by r)
      then s' ← lift (insert_share_links id r s);
           if bool_decide (files s !! file_id r = None)
           then Failed (foreign_key_violation "share_links_file_id_fkey")
           else if bool_decide (created_by r ∉ users)
           then Failed (foreign_key_violation "share_links_created_by_fkey")
           else Done s'
      else Failed (insufficient_privilege "share_links")
  end.

(** The database after a request: a request that fails changes nothing. *)
Definition settled (a : attempt db) (s : db) : db :=
  match a with
  | Done s' => s'
  | Failed _ => s
  end.

(** The row of [supabase.from("share_links").insert({ file_id, token,
    created_by })] in [openShareDialog]: no password, no expiry and no
    limit, the other columns at their defaults. *)
Definition dialog_link (fid : uuid) (tok : string) (u : uuid) : share_link :=
  {| file_id := fid; token := tok; password := None; expires_at := None;
     download_limit := None; download_count := Some 0; created_by := u;
     is_active := Some true |}.

(** ** [public.folders] *)

(** A row of [public.folders], keyed by [id]. [folder_name] and
    [folder_owner] are the columns [name] and [owner_id], names that the
    rows of [public.files] have taken; the time stamps are left out. *)
Record folder := {
  folder_name : string;
  parent_id : option uuid;
  folder_owner : uuid;
}.

(** The folders beside the other tables. *)
Record drive := {
  folders : gmap uuid folder;
  tables : db;
}.

(** [UNIQUE (name, parent_id, owner_id)]: two rows clash when they are
    equal in the three columns, and a NULL is equal to nothing. *)
Definition same_folder_name (a b : folder) : bool :=
  holds (sql_and (sql_eq (Some (folder_name a)) (Some (folder_name b)))
           (sql_and (sql_eq (parent_id a) (parent_id b))
                    (sql_eq (Some (folder_owner a)) (Some (folder_owner b))))).

(** [supabase.from("folders").insert({ name, parent_id, owner_id })] under
    the policy "Users can create folders". *)
Definition insert_folders (users : gset uuid) (uid : option uuid) (id : uuid)
    (r : folder) (d : drive) : attempt drive :=
  if negb (policy uid (folder_owner r))
  then Failed (insufficient_privilege "folders")
  else
    match folders d !! id with
    | Some _ => Failed (statement_exn (unique_violation "folders_pkey"))
    | None =>
        if bool_decide (map_Exists (λ _ g, same_folder_name g r = true)
                          (folders d))
        then Failed (statement_exn
                       (unique_violation "unique_folder_name_per_parent"))
        else if match parent_id r with
                | Some p => bool_decide (p ∉ dom (<[id := r]> (folders d)))
                | None => false
                end
        then Failed (foreign_key_violation "folders_parent_id_fkey")
        else if bool_decide (folder_owner r ∉ users)
        then Failed (foreign_key_violation "folders_owner_id_fkey")
        else Done {| folders := <[id := r]> (folders d); tables := tables d |}
    end.

(** The reference [p] is to one of [D]; a NULL refers to nothing. *)
Definition lies_in (D : gset uuid) (p : option uuid) : bool :=
  match p with
  | Some x => bool_decide (x ∈ D)
  | None => false
  end.

(** The folders whose parent is in [D]. *)
Definition children (fs : gmap uuid folder) (D : gset uuid) : gset uuid :=
  dom (filter (λ kv : uuid * folder, lies_in D (parent_id kv.2) = true) fs).

(** [ON DELETE CASCADE] of [parent_id], followed [n] folders deep. *)
Fixpoint descend (n : nat) (fs : gmap uuid folder) (D : gset uuid)
    : gset uuid :=
  match n with
  | O => D
  | S n' => descend n' fs (D ∪ children fs D)
  end.

(** The folders that go when folder [x] is deleted: no chain of folders is
    longer than the table. *)
Definition doomed (fs : gmap uuid folder) (x : uuid) : gset uuid :=
  descend (size fs) fs {[ x ]}.

(** The files that go: [ON DELETE CASCADE] of [folder_id]. *)
Definition files_in (D : gset uuid) (fs : gmap uuid file) : gmap uuid file :=
  filter (λ kv : uuid * file, lies_in D (folder_id kv.2) = true) fs.

(** The deletion of the files one by one, each with the trigger and with
    its share links. *)
Fixpoint delete_each (ids : list uuid) (s : db) : result db :=
  match ids with
  | [] => Ok s
  | id :: ids' => s' ← delete_files id s; delete_each ids' s'
  end.

(** [DELETE FROM public.folders WHERE id = x] with what it cascades to.
    The rows are taken in the order of their keys; with sizes that are not
    negative the order does not show in the result. *)
Definition cascade (x : uuid) (d : drive) : result drive :=
  let D := doomed (folders d) x in
  s' ← delete_each (map_to_list (files_in D (files (tables d)))).*1 (tables d);
  Ok {| folders := filter (λ kv, kv.1 ∉ D) (folders d); tables := s' |}.

(** [supabase.from("folders").delete().eq("id", x)] in [deleteFolder],
    under the policy "Users can delete own folders": the policy is asked
    for the folder itself, not for what the cascade reaches. *)
Definition delete_folders (uid : option uuid) (x : uuid) (d : drive)
    : attempt drive :=
  match folders d !! x with
  | None => Done d
  | Some g => if policy uid (folder_owner g) then lift (cascade x d)
              else Done d
  end.

(** Every folder lies in a folder that is there, and so does every file:
    the foreign keys of [parent_id] and [folder_id]. *)
Definition tree_ok (d : drive) : Prop :=
  (∀ k g p, folders d !! k = Some g → parent_id g = Some p →
            is_Some (folders d !! p)) ∧
  (∀ id f p, files (tables d) !! id = Some f → folder_id f = Some p →
             is_Some (folders d !! p)).

#[global] Instance tree_ok_dec d : Decision (tree_ok d).
Proof.
  refine (cast_if (decide (
    map_Forall (λ _ g, match parent_id g with
                       | Some p => bool_decide (is_Some (folders d !! p))
                       | None => true
                       end = true) (folders d) ∧
    map_Forall (λ _ f, match folder_id f with
                       | Some p => bool_decide (is_Some (folders d !! p))
                       | None => true
                       end = true) (files (tables d))))).
  - destruct a as [Hfolders Hfiles]. split.
    + intros k g p Hk Hp. specialize (Hfolders k g Hk). simpl in Hfolders.
      rewrite Hp in Hfolders. by apply bool_decide_eq_true in Hfolders.
    + intros id f p Hid Hp. specialize (Hfiles id f Hid). simpl in Hfiles.
      rewrite Hp in Hfiles. by apply bool_decide_eq_true in Hfiles.
  - intros [Hfolders Hfiles]. destruct n. split.
    + intros k g Hk. simpl. destruct (parent_id g) as [p|] eqn:Hp; [|done].
      apply bool_decide_eq_true. by eapply Hfolders.
    + intros id f Hid. simpl. destruct (folder_id f) as [p|] eqn:Hp; [|done].
      apply bool_decide_eq_true. by eapply Hfiles.
Defined.

(** Alice has the folder 3 with the folder 4 in it; one of her files lies
    in each, the one in folder 4 in the trash. *)
Definition sample_drive : drive :=
  {| folders := {[ 3%N := {| folder_name := "docs"; parent_id := None;
                             folder_owner := alice |};
                   4%N := {| folder_name := "old"; parent_id := Some 3%N;
                             folder_owner := alice |} ]};
     tables :=
       {| profiles := {[ alice := with_storage_used (Some 200) empty_profile;
                         bob := empty_profile ]};
          files := {[ 7%N := report;
                      8%N := in_folder (Some 3%N) 8 false alice report;
                      9%N := in_folder (Some 4%N) 9 true alice report ]};
          share_links := ∅ |} |}.

(** ** The file list of the application *)

(** [s.startsWith(p)] and [s.includes(sub)] *)
Definition startsWith (p s : string) : bool := String.prefix p s.

Fixpoint includes (sub s : string) : bool :=
  String.prefix sub s ||
  match s with
  | EmptyString => false
  | String _ s' => includes sub s'
  end.

Definition getFileTypeBadge (fileType : string) : string :=
  if startsWith "image/" fileType then "Image"
  else if startsWith "video/" fileType then "Video"
  else if startsWith "audio/" fileType then "Audio"
  else if bool_decide (fileType = "application/pdf") then "PDF"
  else if includes "document" fileType || includes "word" fileType
  then "Document"
  else if includes "spreadsheet" fileType || includes "excel" fileType
  then "Spreadsheet"
  else if includes "presentation" fileType || includes "powerpoint" fileType
  then "Presentation"
  else "File".

Record Breadcrumb := {
  crumb_id : option uuid;
  crumb_name : string;
}.

Definition all_files : Breadcrumb :=
  {| crumb_id := None; crumb_name := "All Files" |}.

(** The folders a user is shown: the policy "Users can view own
    folders". *)
Definition view (uid : option uuid) (fs : gmap uuid folder)
    : gmap uuid folder :=
  filter (λ kv : uuid * folder, policy uid (folder_owner kv.2) = true) fs.

(** [buildBreadcrumbs], which asks for the folder and then goes on with
    its parent. [fs] are the folders the user is shown; a folder that is
    not among them gives no row, and the trail starts there. [None] is a
    call that has not come back after [fuel] folders. *)
Fixpoint buildBreadcrumbs (fuel : nat) (fs : gmap uuid folder)
    (id : option uuid) : option (list Breadcrumb) :=
  match fuel with
  | O => None
  | S fuel' =>
      match id with
      | None => Some [all_files]
      | Some i =>
          match fs !! i with
          | Some folder =>
              parentCrumbs ← buildBreadcrumbs fuel' fs (parent_id folder);
              Some (parentCrumbs ++
                    [{| crumb_id := Some i; crumb_name := folder_name folder |}])
          | None => Some [all_files]
          end
      end
  end.

(** The folders from [k] up to the root are [n] at most. *)
Fixpoint depth_within (n : nat) (fs : gmap uuid folder) (k : option uuid)
    : bool :=
  match k with
  | None => true
  | Some i =>
      match fs !! i with
      | None => true
      | Some g =>
          match n with
          | O => false
          | S n' => depth_within n' fs (parent_id g)
          end
      end
  end.

(** A link without limit that has been redeemed as often as an [INTEGER]
    can count. *)
Definition worn_link : share_link :=
  {| file_id := 7%N; token := "00ff1a000009"; password := None;
     expires_at := None; download_limit := None;
     download_count := Some integer_max; created_by := alice;
     is_active := Some true |}.

Definition worn_db : db :=
  {| profiles := profiles stored_db; files := files stored_db;
     share_links := {[ 50%N := worn_link ]} |}.

(** * Properties *)

(** ** The recomputed usage under changes of the table *)

Section usage.
Implicit Types (u id : uuid) (f r : file) (fs : gmap uuid file).

Lemma usage_empty u : usage u ∅ = 0.
Proof. apply map_fold_empty. Qed.

Lemma usage_insert_fresh u id r fs :
  fs !! id = None → usage u (<[id := r]> fs) = contribution u r + usage u fs.
Proof.
  intros Hfresh. unfold usage.
  rewrite map_fold_insert_L; [done | intros; lia | done].
Qed.

Lemma usage_delete u id r fs :
  fs !! id = Some r → usage u fs = contribution u r + usage u (delete id fs).
Proof.
  intros Hin. unfold usage.
  rewrite (map_fold_delete_L _ _ id r fs); [done | intros; lia | done].
Qed.

Lemma usage_update u id r r' fs :
  fs !! id = Some r →
  usage u (<[id := r']> fs) = usage u fs - contribution u r + contribution u r'.
Proof.
  intros Hin. rewrite <-insert_delete_eq.
  rewrite usage_insert_fresh by apply lookup_delete_eq.
  rewrite (usage_delete u id r fs Hin). lia.
Qed.

Lemma contribution_nonneg u f : 0 ≤ file_size f → 0 ≤ contribution u f.
Proof. unfold contribution. case_match; lia. Qed.

Lemma usage_nonneg u fs :
  (∀ id f, fs !! id = Some f → 0 ≤ file_size f) → 0 ≤ usage u fs.
Proof.
  induction fs as [|id f fs Hfresh IH] using map_ind; intros Hsizes.
  - by rewrite usage_empty.
  - rewrite usage_insert_fresh by done.
    assert (0 ≤ contribution u f).
    { apply contribution_nonneg, (Hsizes id). apply lookup_insert_eq. }
    assert (0 ≤ usage u fs); [|lia].
    apply IH. intros j g Hj. apply (Hsizes j).
    rewrite lookup_insert_ne; [done|]. intros ->. congruence.
Qed.

Lemma usage_without u id r fs :
  (∀ id f, fs !! id = Some f → 0 ≤ file_size f) →
  fs !! id = Some r → 0 ≤ usage u fs - contribution u r.
Proof.
  intros Hsizes Hin. rewrite (usage_delete u id r fs Hin).
  assert (0 ≤ usage u (delete id fs)); [|lia].
  apply usage_nonneg. intros j g Hj.
  apply lookup_delete_Some in Hj as [_ Hj]. eauto.
Qed.
End usage.

Section trigger.
Implicit Types (ps : gmap uuid profile) (u k : uuid).

Lemma in_range_Ok lo hi z v : in_range lo hi z = Ok v → v = z.
Proof.
  unfold in_range. destruct z; [|congruence].
  case_bool_decide; congruence.
Qed.

Lemma plus_Ok n x v : plus n (Some x) = Ok v → v = Some (x + n).
Proof. intros Hv. by apply in_range_Ok in Hv. Qed.

Lemma minus_floored_Ok n x v :
  minus_floored n (Some x) = Ok v → 0 ≤ x - n → v = Some (x - n).
Proof.
  unfold minus_floored, bigint_sub. simpl.
  case_bool_decide; simpl; [|congruence].
  intros [= <-] Hpos. unfold GREATEST. f_equal. lia.
Qed.

Lemma plus_delta_Ok n o x v :
  plus_delta n o (Some x) = Ok v → v = Some (x + (n - o)).
Proof.
  unfold plus_delta, bigint_sub. simpl.
  case_bool_decide; simpl; [|congruence].
  intros Hv. by apply in_range_Ok in Hv.
Qed.

Lemma update_profiles_Ok e k ps ps' u p' :
  update_profiles e k ps = Ok ps' → ps' !! u = Some p' →
  ∃ p, ps !! u = Some p ∧
       if decide (u = k)
       then e (storage_used p) = Ok (storage_used p')
       else p' = p.
Proof.
  unfold update_profiles. destruct (ps !! k) as [p|] eqn:Hk.
  - destruct (e (storage_used p)) as [v|] eqn:He; simpl; [|congruence].
    intros [= <-]. destruct (decide (u = k)) as [->|Hne].
    + rewrite lookup_insert_eq. intros [= <-]. eauto.
    + rewrite lookup_insert_ne by done. eauto.
  - intros [= <-] Hp'. exists p'. split; [done|].
    destruct (decide (u = k)); [congruence | done].
Qed.

Lemma ledger_is_ext ps U U' :
  ledger_is ps U → (∀ u, U u = U' u) → ledger_is ps U'.
Proof. intros Hled Heq u p Hp. rewrite <-Heq. by apply Hled. Qed.

Lemma update_profiles_ledger e k ps ps' U U' :
  update_profiles e k ps = Ok ps' →
  ledger_is ps U →
  (∀ u, u ≠ k → U' u = U u) →
  (∀ v, e (Some (U k)) = Ok v → v = Some (U' k)) →
  ledger_is ps' U'.
Proof.
  intros Hupd Hled Hother Hk u p' Hp'.
  destruct (update_profiles_Ok _ _ _ _ _ _ Hupd Hp') as (p & Hp & Hcase).
  specialize (Hled u p Hp). case_decide as Hu.
  - subst u. rewrite Hled in Hcase. by apply Hk.
  - subst p'. rewrite Hother by done. done.
Qed.

Lemma contribution_owner f :
  counted f = true → contribution (owner_id f) f = file_size f.
Proof. intros Hc. unfold contribution. by rewrite Hc, bool_decide_true. Qed.

Lemma contribution_other u f : u ≠ owner_id f → contribution u f = 0.
Proof.
  intros Hu. unfold contribution.
  rewrite bool_decide_false by congruence. by rewrite andb_false_r.
Qed.

Lemma contribution_deleted u f : counted f = false → contribution u f = 0.
Proof. intros Hc. unfold contribution. by rewrite Hc. Qed.

Lemma ledger_plus f k ps ps' U :
  update_profiles (plus (file_size f)) k ps = Ok ps' →
  k = owner_id f → counted f = true →
  ledger_is ps U → ledger_is ps' (λ u, U u + contribution u f).
Proof.
  intros Hupd -> Hc Hled.
  eapply update_profiles_ledger; [exact Hupd | exact Hled | |].
  - intros u Hu. rewrite contribution_other by done. lia.
  - intros v Hv. rewrite contribution_owner by done. by apply plus_Ok.
Qed.

Lemma ledger_minus f k ps ps' U :
  update_profiles (minus_floored (file_size f)) k ps = Ok ps' →
  k = owner_id f → counted f = true →
  0 ≤ U (owner_id f) - contribution (owner_id f) f →
  ledger_is ps U → ledger_is ps' (λ u, U u - contribution u f).
Proof.
  intros Hupd -> Hc Hrest Hled.
  eapply update_profiles_ledger; [exact Hupd | exact Hled | |].
  - intros u Hu. rewrite contribution_other by done. lia.
  - intros v Hv. rewrite contribution_owner in * by done.
    by apply minus_floored_Ok.
Qed.

Lemma update_storage_usage_ledger ev ps ps' U :
  update_storage_usage ev ps = Ok ps' →
  ledger_is ps U →
  (∀ u, 0 ≤ U u - leaving ev u) →
  ledger_is ps' (λ u, U u - leaving ev u + entering ev u).
Proof.
  intros Htrig Hled Hrest.
  destruct ev as [NEW|OLD|OLD NEW]; simpl in *.
  - destruct (counted NEW) eqn:Hnew.
    + eapply ledger_is_ext; [by eapply ledger_plus|]. intros u; simpl; lia.
    + injection Htrig as <-. eapply ledger_is_ext; [done|].
      intros u. rewrite contribution_deleted by done. lia.
  - destruct (counted OLD) eqn:Hold.
    + eapply ledger_is_ext; [by eapply ledger_minus|]. intros u; simpl; lia.
    + injection Htrig as <-. eapply ledger_is_ext; [done|].
      intros u. rewrite contribution_deleted by done. lia.
  - unfold is_distinct_from in Htrig. case_bool_decide as Hown.
    + destruct (counted OLD) eqn:Hold.
      * destruct (update_profiles _ (owner_id OLD) ps) as [ps1|] eqn:H1;
          simpl in Htrig; [|congruence].
        pose proof (ledger_minus _ _ _ _ _ H1 eq_refl Hold (Hrest _) Hled) as Hled1.
        destruct (counted NEW) eqn:Hnew.
        -- by eapply ledger_plus.
        -- injection Htrig as <-. eapply ledger_is_ext; [done|].
           intros u. simpl. rewrite (contribution_deleted _ NEW) by done. lia.
      * simpl in Htrig. destruct (counted NEW) eqn:Hnew.
        -- eapply ledger_is_ext; [by eapply ledger_plus|]. intros u; simpl.
           rewrite (contribution_deleted _ OLD) by done. lia.
        -- injection Htrig as <-. eapply ledger_is_ext; [done|].
           intros u. rewrite !contribution_deleted by done. lia.
    + assert (owner_id NEW = owner_id OLD) as Hsame.
      { congruence. }
      destruct (counted OLD) eqn:Hold, (counted NEW) eqn:Hnew; simpl in Htrig.
      * case_bool_decide as Hsize.
        -- eapply update_profiles_ledger; [exact Htrig | exact Hled | |].
           ++ intros u Hu. rewrite !contribution_other by congruence. lia.
           ++ intros v Hv. apply plus_delta_Ok in Hv. rewrite Hv.
              unfold contribution.
              rewrite Hold, Hnew, !bool_decide_true by congruence.
              simpl. f_equal. lia.
        -- injection Htrig as <-. eapply ledger_is_ext; [done|].
           intros u. unfold contribution. rewrite Hold, Hnew, Hsame.
           rewrite Hsize. lia.
      * rewrite Hsame in Htrig. eapply ledger_is_ext; [by eapply ledger_minus|].
        intros u; simpl. rewrite (contribution_deleted _ NEW) by done. lia.
      * eapply ledger_is_ext; [by eapply ledger_plus|].
        intros u; simpl. rewrite (contribution_deleted _ OLD) by done. lia.
      * injection Htrig as <-. eapply ledger_is_ext; [done|].
        intros u. rewrite !contribution_deleted by done. lia.
Qed.
End trigger.

Section statements.
Implicit Types (s : db) (id : uuid).

Lemma ledger_ok_is s : ledger_ok s ↔ ledger_is (profiles s) (λ u, usage u (files s)).
Proof. done. Qed.

Lemma insert_files_ledger id r s s' :
  insert_files id r s = Ok s' → ledger_ok s → sizes_ok s → 0 ≤ file_size r →
  ledger_ok s' ∧ sizes_ok s'.
Proof.
  unfold insert_files. destruct (files s !! id) eqn:Hid; [congruence|].
  destruct (update_storage_usage _ _) as [ps|] eqn:Htrig; simpl; [|congruence].
  intros [= <-] Hled Hsizes Hr. split.
  - apply ledger_ok_is; simpl. eapply ledger_is_ext.
    + eapply update_storage_usage_ledger; [exact Htrig | exact Hled |].
      intros u; simpl. pose proof (usage_nonneg u (files s) Hsizes). lia.
    + intros u; simpl. rewrite usage_insert_fresh by done. lia.
  - intros j f; simpl. destruct (decide (j = id)) as [->|Hne].
    + rewrite lookup_insert_eq. by intros [= <-].
    + rewrite lookup_insert_ne by done. apply Hsizes.
Qed.

Lemma delete_files_ledger id s s' :
  delete_files id s = Ok s' → ledger_ok s → sizes_ok s →
  ledger_ok s' ∧ sizes_ok s'.
Proof.
  unfold delete_files. destruct (files s !! id) as [r|] eqn:Hid.
  2: { intros [= <-]. done. }
  destruct (update_storage_usage _ _) as [ps|] eqn:Htrig; simpl; [|congruence].
  intros [= <-] Hled Hsizes. split.
  - apply ledger_ok_is; simpl. eapply ledger_is_ext.
    + eapply update_storage_usage_ledger; [exact Htrig | exact Hled |].
      intros u; simpl. by eapply usage_without.
    + intros u; simpl. rewrite (usage_delete u id r (files s)) by done. lia.
  - intros j f; simpl. intros [_ Hj]%lookup_delete_Some. eauto.
Qed.

Lemma update_files_ledger set id s s' :
  update_files set id s = Ok s' → ledger_ok s → sizes_ok s →
  (∀ r, files s !! id = Some r → 0 ≤ file_size (set r)) →
  ledger_ok s' ∧ sizes_ok s'.
Proof.
  unfold update_files. destruct (files s !! id) as [r|] eqn:Hid.
  2: { intros [= <-]. done. }
  destruct (update_storage_usage _ _) as [ps|] eqn:Htrig; simpl; [|congruence].
  intros [= <-] Hled Hsizes Hset. split.
  - apply ledger_ok_is; simpl. eapply ledger_is_ext.
    + eapply update_storage_usage_ledger; [exact Htrig | exact Hled |].
      intros u; simpl. by eapply usage_without.
    + intros u; simpl. rewrite (usage_update u id r) by done. lia.
  - intros j f; simpl. destruct (decide (j = id)) as [->|Hne].
    + rewrite lookup_insert_eq. intros [= <-]. by apply Hset.
    + rewrite lookup_insert_ne by done. apply Hsizes.
Qed.

Lemma apply_ledger m s :
  ledger_ok s → sizes_ok s → size_ok m →
  ledger_ok (apply s m) ∧ sizes_ok (apply s m).
Proof.
  intros Hled Hsizes Hm. unfold apply.
  destruct (statement m s) as [s'|] eqn:Hst; [|done].
  destruct m; simpl in *.
  - by eapply insert_files_ledger.
  - by eapply delete_files_ledger.
  - eapply update_files_ledger; [done..|]. intros r Hr. simpl. by eapply Hsizes.
  - eapply update_files_ledger; [done..|]. intros r Hr. simpl. by eapply Hsizes.
  - by eapply update_files_ledger.
  - eapply update_files_ledger; [done..|]. intros r Hr. simpl. by eapply Hsizes.
  - by eapply update_files_ledger.
Qed.

Lemma replay_ledger ms s :
  ledger_ok s → sizes_ok s → Forall size_ok ms →
  ledger_ok (replay ms s) ∧ sizes_ok (replay ms s).
Proof.
  intros Hled Hsizes Hms. revert s Hled Hsizes.
  induction Hms as [|m ms Hm _ IH]; intros s Hled Hsizes; [done|].
  simpl. destruct (apply_ledger m s) as [? ?]; [done..|]. by apply IH.
Qed.
End statements.

(** ** The ledger invariant *)

(** C1, as stated, fails where a file has a negative size: the ledger of
    alice follows the sum to -10 and to -5, and the soft-delete of the file
    of 5 bytes then sets it to [GREATEST(0, -5 - 5)], which is 0, where the
    sum of her files that are not soft-deleted is -10. *)
Lemma negative_size_breaks_ledger :
  let s := replay negative_history fresh_db in
  ledger_ok fresh_db ∧
  storage_used <$> profiles (replay (take 2 negative_history) fresh_db) !! alice
    = Some (Some (-5)) ∧
  storage_used <$> profiles s !! alice = Some (Some 0) ∧
  usage alice (files s) = -10 ∧
  ¬ ledger_ok s.
Proof.
  cbv zeta. split; [apply (bool_decide_unpack _); vm_compute; exact I|].
  split; [vm_compute; reflexivity|]. split; [vm_compute; reflexivity|].
  split; [vm_compute; reflexivity|].
  apply (bool_decide_unpack _). vm_compute. exact I.
Qed.

(** C1, amended. Starting from a database whose ledger holds the recomputed
    sums and whose file sizes are not negative, after every sequence of
    inserts, permanent deletes, soft-deletes, restores, size changes, owner
    transfers and updates that change several columns at once, each of them
    firing the trigger and none bringing in a negative size, the
    [storage_used] of every account is the sum of [file_size] over the
    account's files that are not soft-deleted. *)
Theorem ledger_equals_recomputation (ms : list mutation) (s : db) :
  ledger_ok s → sizes_ok s → Forall size_ok ms →
  ∀ u p, profiles (replay ms s) !! u = Some p →
         storage_used p = Some (usage u (files (replay ms s))).
Proof. intros Hled Hsizes Hms. by apply replay_ledger. Qed.

Lemma ledger_equals_recomputation_witness :
  ledger_ok fresh_db ∧ sizes_ok fresh_db ∧ Forall size_ok history ∧
  ∀ u p, profiles (replay history fresh_db) !! u = Some p →
         storage_used p = Some (usage u (files (replay history fresh_db))).
Proof.
  assert (ledger_ok fresh_db) as Hled
    by (apply (bool_decide_unpack _); vm_compute; exact I).
  assert (sizes_ok fresh_db) as Hsizes
    by (apply (bool_decide_unpack _); vm_compute; exact I).
  assert (Forall size_ok history) as Hms
    by (apply (bool_decide_unpack _); vm_compute; exact I).
  split; [exact Hled|]. split; [exact Hsizes|]. split; [exact Hms|].
  exact (ledger_equals_recomputation history fresh_db Hled Hsizes Hms).
Defined.

(** The sample history leaves one file of 100 bytes with alice. *)
Example history_ledger :
  storage_used <$> profiles (replay history fresh_db) !! alice = Some (Some 100)
  ∧ storage_used <$> profiles (replay history fresh_db) !! bob = Some (Some 0).
Proof. split; vm_compute; reflexivity. Qed.

(** ** The floor at zero *)

(** C2. The adjustment of the size-delta branch is not floored. On a ledger
    that reads 30 for a file of 100 bytes, shrinking the file to 20 bytes
    runs [storage_used + (NEW.file_size - OLD.file_size)] and leaves
    [storage_used] at -50, where the three subtracting branches would have
    stopped at 0. *)
Theorem size_delta_not_floored :
  statement (Resize 7%N 20) drifted_db =
    Ok {| profiles := {[ alice := with_storage_used (Some (-50)) empty_profile ]};
          files := {[ 7%N := with_file_size 20 report ]};
          share_links := ∅ |}.
Proof. vm_compute. reflexivity. Qed.

(** ** Soft-delete followed by restore *)

(** C9, as stated, fails on a drifted ledger: the subtraction stops at 0
    and the addition then puts the whole size back. *)
Lemma soft_delete_restore_drifted :
  let s1 := apply drifted_db (SoftDelete 7%N 10) in
  let s2 := apply s1 (Restore 7%N) in
  is_deleted <$> files s1 !! 7%N = Some (Some true) ∧
  is_deleted <$> files s2 !! 7%N = Some (Some false) ∧
  storage_used <$> profiles drifted_db !! alice = Some (Some 30) ∧
  storage_used <$> profiles s1 !! alice = Some (Some 0) ∧
  storage_used <$> profiles s2 !! alice = Some (Some 100) ∧
  storage_used <$> profiles s2 !! alice
    ≠ storage_used <$> profiles drifted_db !! alice.
Proof. vm_compute. repeat split; congruence. Qed.

(** C9, amended. For a file that is not soft-deleted and whose size does not
    exceed the owner's [storage_used], the soft-delete and the restore both
    go through and leave [storage_used] as it was: the subtraction and the
    addition cancel. *)
Theorem soft_delete_restore_cancel (s : db) (id : uuid) (f : file)
    (p : profile) (su : Z) (now : timestamptz) :
  files s !! id = Some f → counted f = true →
  profiles s !! owner_id f = Some p → storage_used p = Some su →
  0 ≤ file_size f ≤ su → su ≤ bigint_max →
  let s1 := apply s (SoftDelete id now) in
  let s2 := apply s1 (Restore id) in
  is_Ok (statement (SoftDelete id now) s) = true ∧
  is_Ok (statement (Restore id) s1) = true ∧
  storage_used <$> profiles s1 !! owner_id f = Some (Some (su - file_size f)) ∧
  storage_used <$> profiles s2 !! owner_id f = Some (Some su).
Proof.
  intros Hf Hc Hp Hsu Hsize Hmax.
  assert (bigint_min ≤ 0) as Hmin by (unfold bigint_min; lia).
  set (f' := with_deleted (Some true) (Some now) f).
  set (t1 := {| profiles := <[owner_id f :=
                   with_storage_used (Some (su - file_size f)) p]> (profiles s);
                files := <[id := f']> (files s);
                share_links := share_links s |}).
  assert (statement (SoftDelete id now) s = Ok t1) as Hd.
  { simpl. unfold update_files. rewrite Hf. fold f'. simpl.
    unfold is_distinct_from. rewrite bool_decide_false by (intros ?; congruence).
    rewrite Hc. simpl.
    unfold update_profiles. rewrite Hp, Hsu.
    unfold minus_floored, bigint_sub, sql_arith, in_range.
    rewrite bool_decide_true by lia. simpl.
    unfold GREATEST. rewrite Z.max_r by lia. done. }
  assert (files t1 !! id = Some f') as Hf' by apply lookup_insert_eq.
  assert (∃ t2, statement (Restore id) t1 = Ok t2 ∧
                storage_used <$> profiles t2 !! owner_id f = Some (Some su))
    as (t2 & Hr & Ht2).
  { simpl. unfold update_files. rewrite Hf'. simpl.
    unfold is_distinct_from. rewrite bool_decide_false by (intros ?; congruence).
    unfold counted. simpl.
    unfold update_profiles. rewrite lookup_insert_eq. simpl.
    unfold plus, bigint_add, sql_arith, in_range.
    rewrite bool_decide_true by lia. simpl.
    eexists. split; [done|]. simpl. rewrite lookup_insert_eq. simpl.
    do 2 f_equal. lia. }
  cbv zeta. unfold apply. rewrite Hd, Hr. simpl.
  split; [done|]. split; [done|]. split; [|done]. by rewrite lookup_insert_eq.
Qed.

Lemma soft_delete_restore_cancel_witness :
  files stored_db !! 7%N = Some report ∧ counted report = true ∧
  profiles stored_db !! owner_id report
    = Some (with_storage_used (Some 100) empty_profile) ∧
  0 ≤ file_size report ≤ 100 ∧ 100 ≤ bigint_max ∧
  let s1 := apply stored_db (SoftDelete 7%N 10) in
  let s2 := apply s1 (Restore 7%N) in
  is_Ok (statement (SoftDelete 7%N 10) stored_db) = true ∧
  is_Ok (statement (Restore 7%N) s1) = true ∧
  storage_used <$> profiles s1 !! owner_id report
    = Some (Some (100 - file_size report)) ∧
  storage_used <$> profiles s2 !! owner_id report = Some (Some 100).
Proof.
  assert (files stored_db !! 7%N = Some report) as Hf by reflexivity.
  assert (counted report = true) as Hc by reflexivity.
  assert (profiles stored_db !! owner_id report
          = Some (with_storage_used (Some 100) empty_profile)) as Hp
    by reflexivity.
  assert (0 ≤ file_size report ≤ 100) as Hsize by (simpl; lia).
  assert (100 ≤ bigint_max) as Hmax by (unfold bigint_max; lia).
  split; [exact Hf|]. split; [exact Hc|]. split; [exact Hp|].
  split; [exact Hsize|]. split; [exact Hmax|].
  exact (soft_delete_restore_cancel stored_db 7%N report
           (with_storage_used (Some 100) empty_profile) 100 10
           Hf Hc Hp eq_refl Hsize Hmax).
Defined.

(** Unfolds the monad of function bodies. *)
Ltac unfold_plpgsql :=
  unfold call, ambiguous, raise_if, execute, query, query_result, RAISE,
    mbind, mret, plpgsql_bind, plpgsql_ret in *.

(** ** Redemption of a share link *)

Section select.
Implicit Types (s : db) (id : uuid) (sl : share_link).

Lemma select_share_link_Some p_token s id sl :
  select_share_link p_token s = Some (id, sl) → active_link s p_token id sl.
Proof.
  unfold select_share_link. intros Hhead.
  apply head_Some_elem_of, list_elem_of_filter in Hhead as [Hwhere Hin].
  apply elem_of_map_to_list in Hin. simpl in Hwhere.
  split; [done|].
  destruct p_token as [tok|], (is_active sl) as [[]|]; simpl in Hwhere;
    try done; repeat case_bool_decide; simpl in *; try done.
  split; congruence.
Qed.

Lemma select_share_link_None p_token s :
  select_share_link p_token s = None → ∀ id sl, ¬ active_link s p_token id sl.
Proof.
  unfold select_share_link. intros Hhead id sl (Hin & Htok & Hact).
  apply head_None in Hhead.
  apply (filter_nil_not_elem_of _ _ (id, sl)) in Hhead.
  - apply Hhead. by apply elem_of_map_to_list.
  - simpl. rewrite <-Htok, Hact. simpl. by rewrite bool_decide_true.
Qed.

Lemma select_share_link_active p_token s id sl :
  unique_tokens s → active_link s p_token id sl →
  select_share_link p_token s = Some (id, sl).
Proof.
  intros Huniq Hlink.
  destruct (select_share_link p_token s) as [[id' sl']|] eqn:Hsel.
  - apply select_share_link_Some in Hsel as (Hin' & Htok' & _).
    destruct Hlink as (Hin & Htok & _).
    assert (id' = id) as -> by (eapply Huniq; [done..|congruence]).
    congruence.
  - by apply select_share_link_None with (id := id) (sl := sl) in Hsel.
Qed.
End select.

Section guards.
Implicit Types (sl : share_link) (now : timestamptz).

Lemma expired_guard now sl :
  holds (sql_and (is_not_null (expires_at sl))
                 (sql_lt (expires_at sl) (Some now))) = true
  ↔ link_expired now sl.
Proof.
  unfold link_expired. destruct (expires_at sl) as [t|]; simpl.
  - case_bool_decide; simpl; split; try done.
    + intros _. eauto.
    + intros (t' & [= <-] & ?). lia.
  - split; [done|]. by intros (t & ? & _).
Qed.

Lemma password_guard p_password sl :
  holds (sql_and (is_not_null (password sl))
                 (sql_ne (password sl) p_password)) = true
  ↔ password_differs p_password sl.
Proof.
  unfold password_differs.
  destruct (password sl) as [p|], p_password as [q|]; simpl.
  - case_bool_decide; simpl; split; try done.
    + intros _. eauto.
    + intros (p' & q' & [= <-] & [= <-] & ?). done.
  - split; [done|]. by intros (p' & q' & _ & ? & _).
  - split; [done|]. by intros (p' & q' & ? & _).
  - split; [done|]. by intros (p' & q' & ? & _).
Qed.

Lemma limit_guard sl :
  holds (sql_and (is_not_null (download_limit sl))
                 (sql_ge (download_count sl) (download_limit sl))) = true
  ↔ limit_reached sl.
Proof.
  unfold limit_reached.
  destruct (download_limit sl) as [l|], (download_count sl) as [c|]; simpl.
  - case_bool_decide; simpl; split; try done.
    + intros _. eauto.
    + intros (l' & c' & [= <-] & [= <-] & ?). lia.
  - split; [done|]. by intros (l' & c' & _ & ? & _).
  - split; [done|]. by intros (l' & c' & ? & _).
  - split; [done|]. by intros (l' & c' & ? & _).
Qed.

Lemma password_matches_not_differs p_password sl :
  password_matches p_password sl → ¬ password_differs p_password sl.
Proof.
  intros [Hnone | Hsame] (p & q & Hp & Hq & Hne); congruence.
Qed.
End guards.

(** Decides one guard of [redeem_selected] from what is known of the link. *)
Ltac decide_guard lem :=
  match goal with
  | |- context [holds ?c] =>
      let E := fresh "E" in
      destruct (holds c) eqn:E;
      [apply lem in E; try contradiction | clear E]
  end.

Section redeem.
Implicit Types (s : db) (id : uuid) (sl : share_link) (now : timestamptz).

Lemma redeem_selected_expired now p_password id sl s :
  link_expired now sl →
  redeem_selected now p_password id sl s = Raised Expired s.
Proof.
  intros Hexp. unfold redeem_selected. unfold_plpgsql.
  by rewrite (proj2 (expired_guard now sl) Hexp).
Qed.

Lemma redeem_selected_password now p_password id sl s :
  ¬ link_expired now sl → password_differs p_password sl →
  redeem_selected now p_password id sl s = Raised InvalidPassword s.
Proof.
  intros Hexp Hpw. unfold redeem_selected. unfold_plpgsql.
  decide_guard expired_guard.
  by rewrite (proj2 (password_guard p_password sl) Hpw).
Qed.

Lemma redeem_selected_limit now p_password id sl s :
  ¬ link_expired now sl → ¬ password_differs p_password sl → limit_reached sl →
  redeem_selected now p_password id sl s = Raised LimitReached s.
Proof.
  intros Hexp Hpw Hlim. unfold redeem_selected. unfold_plpgsql.
  decide_guard expired_guard. decide_guard password_guard.
  by rewrite (proj2 (limit_guard sl) Hlim).
Qed.

Lemma redeem_selected_pass now p_password id sl s c :
  share_links s !! id = Some sl →
  ¬ link_expired now sl → ¬ password_differs p_password sl → ¬ limit_reached sl →
  download_count sl = Some c → integer_min ≤ c < integer_max →
  redeem_selected now p_password id sl s =
    match select_available_file (file_id sl) s with
    | Some row => Returned row (counted_once id sl c s)
    | None => Raised FileUnavailable (counted_once id sl c s)
    end.
Proof.
  intros Hin Hexp Hpw Hlim Hc Hrange. unfold redeem_selected. unfold_plpgsql.
  decide_guard expired_guard. decide_guard password_guard.
  decide_guard limit_guard.
  unfold increment_download_count. rewrite Hin, Hc.
  unfold integer_add, sql_arith, in_range.
  rewrite bool_decide_true by lia. simpl.
  fold (counted_once id sl c s).
  change (select_available_file (file_id sl) (counted_once id sl c s))
    with (select_available_file (file_id sl) s).
  by destruct (select_available_file (file_id sl) s).
Qed.

Lemma get_file_by_token_selected now p_token p_password s id sl :
  select_share_link p_token s = Some (id, sl) →
  get_file_by_token now p_token p_password s =
    call (redeem_selected now p_password id sl) s.
Proof.
  intros Hsel. unfold get_file_by_token, get_file_by_token_body.
  unfold call, mbind, plpgsql_bind, query. by rewrite Hsel.
Qed.

Lemma get_file_by_token_unselected now p_token p_password s :
  select_share_link p_token s = None →
  get_file_by_token now p_token p_password s = (Err InvalidToken, s).
Proof.
  intros Hsel. unfold get_file_by_token, get_file_by_token_body.
  unfold call, mbind, plpgsql_bind, query. by rewrite Hsel.
Qed.
End redeem.

(** The guards of a redemption as the code has them. They stop it in a
    fixed order, each with its own failure: no active link with the token
    gives [InvalidToken]; an expiry in the past gives [Expired] whatever
    the other guards would say; then a password that the caller gave and
    that differs from the link's gives [InvalidPassword]; in every other
    case, that of a caller without password among them, a reached limit
    gives [LimitReached]; and when none of them stops it the count goes up
    by one and the file is resolved. Every failure leaves the database as
    it was. *)
Theorem redemption_guard_order (now : timestamptz)
    (p_token p_password : option string) (s : db) :
  unique_tokens s →
  let r := get_file_by_token now p_token p_password s in
  ((∀ id sl, ¬ active_link s p_token id sl) → r = (Err InvalidToken, s)) ∧
  (∀ id sl, active_link s p_token id sl →
     (link_expired now sl → r = (Err Expired, s)) ∧
     (¬ link_expired now sl → password_differs p_password sl →
      r = (Err InvalidPassword, s)) ∧
     (¬ link_expired now sl → ¬ password_differs p_password sl →
      limit_reached sl → r = (Err LimitReached, s)) ∧
     (¬ link_expired now sl → ¬ password_differs p_password sl →
      ¬ limit_reached sl →
      ∀ c, download_count sl = Some c → integer_min ≤ c < integer_max →
           r = match select_available_file (file_id sl) s with
               | Some row => (Ok row, counted_once id sl c s)
               | None => (Err FileUnavailable, s)
               end)) ∧
  NoDup [InvalidToken; Expired; InvalidPassword; LimitReached; FileUnavailable].
Proof.
  intros Huniq r. subst r. split; [|split].
  - intros Hnone.
    destruct (select_share_link p_token s) as [[id sl]|] eqn:Hsel.
    + apply select_share_link_Some in Hsel. by destruct (Hnone id sl).
    + by apply get_file_by_token_unselected.
  - intros id sl Hlink.
    pose proof (select_share_link_active _ _ _ _ Huniq Hlink) as Hsel.
    rewrite (get_file_by_token_selected now _ p_password _ _ _ Hsel).
    destruct Hlink as (Hin & _ & _).
    split; [|split; [|split]].
    + intros Hexp. unfold call. by rewrite redeem_selected_expired.
    + intros Hexp Hpw. unfold call. by rewrite redeem_selected_password.
    + intros Hexp Hpw Hlim.
      unfold call. by rewrite redeem_selected_limit.
    + intros Hexp Hpw Hlim c Hc Hrange.
      unfold call. rewrite (redeem_selected_pass _ _ _ _ _ c) by done.
      by destruct (select_available_file (file_id sl) s).
  - apply (bool_decide_unpack _). vm_compute. exact I.
Qed.

(** The sample link after one redemption, asked for when it has expired,
    with a wrong password and its limit reached: the answer is [Expired]. *)
Lemma redemption_guard_order_witness :
  let used := counted_once 50%N secret_link 0 shared_db in
  let sl := with_download_count (Some (0 + 1)) secret_link in
  unique_tokens used ∧
  active_link used (Some "00ff1a000009") 50%N sl ∧
  link_expired 2000 sl ∧ password_differs (Some "guess") sl ∧ limit_reached sl ∧
  get_file_by_token 2000 (Some "00ff1a000009") (Some "guess") used
    = (Err Expired, used).
Proof.
  cbv zeta.
  assert (unique_tokens (counted_once 50%N secret_link 0 shared_db)) as Huniq
    by (apply (bool_decide_unpack _); vm_compute; exact I).
  assert (active_link (counted_once 50%N secret_link 0 shared_db)
            (Some "00ff1a000009") 50%N
            (with_download_count (Some (0 + 1)) secret_link)) as Hlink
    by (split; [reflexivity|]; split; reflexivity).
  assert (link_expired 2000 (with_download_count (Some (0 + 1)) secret_link))
    as Hexp by (exists 1000; split; [reflexivity | lia]).
  split; [exact Huniq|]. split; [exact Hlink|]. split; [exact Hexp|].
  split; [exists "secret", "guess"; split; [reflexivity|]; split;
          [reflexivity | discriminate]|].
  split; [exists 1, 1; split; [reflexivity|]; split; [reflexivity | lia]|].
  exact (proj1 (proj1 (proj2 (redemption_guard_order 2000 (Some "00ff1a000009")
                                (Some "guess")
                                (counted_once 50%N secret_link 0 shared_db)
                                Huniq))
                  50%N (with_download_count (Some (0 + 1)) secret_link) Hlink)
           Hexp).
Defined.

(** Each outcome on the sample link. *)
Example redeem_samples :
  get_file_by_token 10 (Some "00ff1a000009") (Some "secret") shared_db
    = (Ok report_row, counted_once 50%N secret_link 0 shared_db) ∧
  get_file_by_token 10 (Some "no such token") (Some "secret") shared_db
    = (Err InvalidToken, shared_db) ∧
  get_file_by_token 2000 (Some "00ff1a000009") (Some "guess")
      (counted_once 50%N secret_link 0 shared_db)
    = (Err Expired, counted_once 50%N secret_link 0 shared_db) ∧
  get_file_by_token 10 (Some "00ff1a000009") (Some "guess") shared_db
    = (Err InvalidPassword, shared_db) ∧
  get_file_by_token 10 (Some "00ff1a000009") (Some "secret")
      (counted_once 50%N secret_link 0 shared_db)
    = (Err LimitReached, counted_once 50%N secret_link 0 shared_db).
Proof. vm_compute. repeat split. Qed.

(** ** The password guard and a caller without password *)

(** C5 does not hold for a caller that gives no password. The sample link
    has the password [secret] and has reached its limit of one download.
    A caller with a wrong password is stopped by the password guard, as the
    order of the guards has it; a caller with no password is not, and is
    stopped by the limit guard that comes after it. *)
Theorem missing_password_skips_guard :
  let used := counted_once 50%N secret_link 0 shared_db in
  password <$> share_links used !! 50%N = Some (Some "secret") ∧
  get_file_by_token 10 (Some "00ff1a000009") (Some "guess") used
    = (Err InvalidPassword, used) ∧
  get_file_by_token 10 (Some "00ff1a000009") None used
    = (Err LimitReached, used) ∧
  LimitReached ≠ InvalidPassword.
Proof. vm_compute. repeat split. discriminate. Qed.

(** C4. A caller that gives no password redeems a link that has one:
    [sl.password <> p_password] is NULL for a NULL [p_password], and the
    [IF] does not fire. *)
Theorem no_password_redeems :
  password secret_link = Some "secret" ∧
  get_file_by_token 10 (Some "00ff1a000009") None shared_db
    = (Ok report_row, counted_once 50%N secret_link 0 shared_db).
Proof. vm_compute. split; reflexivity. Qed.

(** For every link, giving no password does what giving the link's own
    password does. *)
Lemma no_password_like_right_password now p_token s id sl :
  select_share_link p_token s = Some (id, sl) →
  get_file_by_token now p_token None s
  = get_file_by_token now p_token (password sl) s.
Proof.
  intros Hsel. rewrite !(get_file_by_token_selected _ _ _ _ _ _ Hsel).
  unfold redeem_selected. unfold_plpgsql.
  assert (holds (sql_and (is_not_null (password sl))
                         (sql_ne (password sl) None)) = false) as ->.
  { by destruct (password sl). }
  assert (holds (sql_and (is_not_null (password sl))
                         (sql_ne (password sl) (password sl))) = false) as ->.
  { destruct (password sl); [|done]. simpl. by rewrite bool_decide_false by auto. }
  done.
Qed.

(** ** Redemption of a link whose file is in the trash *)

(** C8, as stated, fails: after the failed redemption the link shows the
    count it had before, not the incremented one. *)
Lemma unavailable_file_keeps_count :
  let r := get_file_by_token 10 (Some "00ff1a000009") (Some "secret") trashed_db in
  r.1 = Err FileUnavailable ∧
  download_count <$> share_links trashed_db !! 50%N = Some (Some 0) ∧
  download_count <$> share_links r.2 !! 50%N = Some (Some 0) ∧
  download_count <$> share_links r.2 !! 50%N ≠ Some (Some (0 + 1)).
Proof. vm_compute. repeat split; congruence. Qed.

(** C8, amended. When the token, expiry, password and limit guards pass
    and the bound file is soft-deleted, the body has incremented the count
    in its working copy when it raises [FileUnavailable]; the exception
    aborts the call, the increment is rolled back with it, and the link
    shows the count it had before. *)
Theorem unavailable_file_rolls_back (now : timestamptz)
    (p_token p_password : option string) (s : db) (id : uuid)
    (sl : share_link) (c : Z) (f : file) :
  unique_tokens s → active_link s p_token id sl →
  ¬ link_expired now sl → password_matches p_password sl → ¬ limit_reached sl →
  download_count sl = Some c → integer_min ≤ c < integer_max →
  files s !! file_id sl = Some f → is_deleted f = Some true →
  get_file_by_token_body now p_token p_password s
    = Raised FileUnavailable (counted_once id sl c s) ∧
  get_file_by_token now p_token p_password s = (Err FileUnavailable, s) ∧
  download_count <$>
    share_links (get_file_by_token now p_token p_password s).2 !! id
    = Some (Some c).
Proof.
  intros Huniq Hlink Hexp Hpw%password_matches_not_differs Hlim Hc Hrange Hf Hdel.
  pose proof (select_share_link_active _ _ _ _ Huniq Hlink) as Hsel.
  destruct Hlink as (Hin & _ & _).
  assert (select_available_file (file_id sl) s = None) as Hrow.
  { unfold select_available_file, counted. rewrite Hf. simpl. by rewrite Hdel. }
  assert (get_file_by_token_body now p_token p_password s
          = Raised FileUnavailable (counted_once id sl c s)) as Hbody.
  { unfold get_file_by_token_body, mbind, plpgsql_bind, query. rewrite Hsel.
    rewrite (redeem_selected_pass _ _ _ _ _ c) by done. by rewrite Hrow. }
  split; [exact Hbody|].
  unfold get_file_by_token, call. rewrite Hbody. simpl.
  split; [done|]. rewrite Hin. simpl. by rewrite Hc.
Qed.

Lemma unavailable_file_rolls_back_witness :
  unique_tokens trashed_db ∧
  active_link trashed_db (Some "00ff1a000009") 50%N secret_link ∧
  ¬ link_expired 10 secret_link ∧
  password_matches (Some "secret") secret_link ∧
  ¬ limit_reached secret_link ∧
  download_count secret_link = Some 0 ∧ integer_min ≤ 0 < integer_max ∧
  files trashed_db !! file_id secret_link
    = Some (with_deleted (Some true) (Some 9) report) ∧
  get_file_by_token_body 10 (Some "00ff1a000009") (Some "secret") trashed_db
    = Raised FileUnavailable (counted_once 50%N secret_link 0 trashed_db) ∧
  get_file_by_token 10 (Some "00ff1a000009") (Some "secret") trashed_db
    = (Err FileUnavailable, trashed_db) ∧
  download_count <$>
    share_links (get_file_by_token 10 (Some "00ff1a000009") (Some "secret")
                   trashed_db).2 !! 50%N
    = Some (Some 0).
Proof.
  assert (unique_tokens trashed_db) as Huniq
    by (apply (bool_decide_unpack _); vm_compute; exact I).
  assert (active_link trashed_db (Some "00ff1a000009") 50%N secret_link) as Hlink
    by (split; [reflexivity|]; split; reflexivity).
  assert (¬ link_expired 10 secret_link) as Hexp
    by (intros (t & [= <-] & Ht); lia).
  assert (password_matches (Some "secret") secret_link) as Hpw
    by (right; reflexivity).
  assert (¬ limit_reached secret_link) as Hlim
    by (intros (l & c & [= <-] & [= <-] & Hlc); lia).
  assert (integer_min ≤ 0 < integer_max) as Hrange
    by (unfold integer_min, integer_max; lia).
  split; [exact Huniq|]. split; [exact Hlink|]. split; [exact Hexp|].
  split; [exact Hpw|]. split; [exact Hlim|]. split; [reflexivity|].
  split; [exact Hrange|]. split; [reflexivity|].
  exact (unavailable_file_rolls_back 10 (Some "00ff1a000009") (Some "secret")
           trashed_db 50%N secret_link 0
           (with_deleted (Some true) (Some 9) report)
           Huniq Hlink Hexp Hpw Hlim eq_refl Hrange eq_refl eq_refl).
Defined.

(** ** Redemptions of a link with [download_limit = 1] *)

(** C3, as stated, fails: the source does not serialize the check with the
    increment. Two redemptions that both run their [SELECT] before either
    runs its [UPDATE] both pass the limit guard on the count 0 they read,
    both succeed, and the count ends at 2. *)
Lemma two_redemptions_both_succeed :
  let c := run [0; 1; 0; 1]%nat
             ([Calling 10 (Some "00ff1a000009") (Some "secret");
               Calling 11 (Some "00ff1a000009") (Some "secret")], shared_db) in
  download_limit <$> share_links shared_db !! 50%N = Some (Some 1) ∧
  download_count <$> share_links shared_db !! 50%N = Some (Some 0) ∧
  c.1 = [Finished (Ok report_row); Finished (Ok report_row)] ∧
  download_count <$> share_links c.2 !! 50%N = Some (Some 2).
Proof. vm_compute. repeat split. Qed.

Section in_turn.
Implicit Types (s : db) (id : uuid) (sl : share_link) (now : timestamptz).

Lemma step_twice now p_token p_password s :
  let a := step (Calling now p_token p_password) s in
  let r := get_file_by_token now p_token p_password s in
  step a.1 a.2 = (Finished r.1, r.2).
Proof.
  simpl. destruct (select_share_link p_token s) as [[id sl]|] eqn:Hsel.
  - by rewrite (get_file_by_token_selected _ _ _ _ _ _ Hsel).
  - by rewrite (get_file_by_token_unselected _ _ _ _ Hsel).
Qed.

Lemma guard_cases now p_password sl :
  link_expired now sl ∨
  (¬ link_expired now sl ∧ password_differs p_password sl) ∨
  (¬ link_expired now sl ∧ ¬ password_differs p_password sl ∧ limit_reached sl) ∨
  (¬ link_expired now sl ∧ ¬ password_differs p_password sl ∧ ¬ limit_reached sl).
Proof.
  pose proof (expired_guard now sl) as He.
  pose proof (password_guard p_password sl) as Hp.
  pose proof (limit_guard sl) as Hl.
  destruct (holds _) in He; [left; by apply He|].
  destruct (holds _) in Hp; [right; left; split; [|by apply Hp]|].
  { intros ?%He. done. }
  destruct (holds _) in Hl; right; right; [left|right];
    (split; [intros ?%He; done|]); (split; [intros ?%Hp; done|]).
  - by apply Hl.
  - intros ?%Hl. done.
Qed.

Lemma redeem_limit_one now p_token p_password s id sl c :
  unique_tokens s → active_link s p_token id sl →
  download_limit sl = Some 1 → download_count sl = Some c → 0 ≤ c →
  let r := get_file_by_token now p_token p_password s in
  (∃ row, c = 0 ∧ r = (Ok row, counted_once id sl c s)) ∨
  (∃ e, r = (Err e, s) ∧
        (1 ≤ c → ¬ link_expired now sl → password_matches p_password sl →
         e = LimitReached)).
Proof.
  intros Huniq Hlink Hlimit Hcount Hc. simpl.
  pose proof (select_share_link_active _ _ _ _ Huniq Hlink) as Hsel.
  rewrite (get_file_by_token_selected now _ p_password _ _ _ Hsel).
  destruct Hlink as (Hin & _ & _). unfold call.
  destruct (guard_cases now p_password sl)
    as [Hexp | [[Hexp Hpw] | [(Hexp & Hpw & Hlim) | (Hexp & Hpw & Hlim)]]].
  - rewrite redeem_selected_expired by done. right. eexists. split; [done|].
    intros _ Hnot. done.
  - rewrite redeem_selected_password by done. right. eexists. split; [done|].
    intros _ _ Hmatch%password_matches_not_differs. done.
  - rewrite redeem_selected_limit by done. right. eexists. split; done.
  - assert (c = 0) as ->.
    { destruct (decide (c = 0)); [done|]. exfalso. apply Hlim.
      exists 1, c. repeat split; [done..|lia]. }
    rewrite (redeem_selected_pass _ _ _ _ _ 0)
      by (unfold integer_min, integer_max; done || lia).
    destruct (select_available_file (file_id sl) s) as [row|].
    + left. eauto.
    + right. eexists. split; [done|]. lia.
Qed.

Lemma counted_once_link p_token s id sl c :
  unique_tokens s → active_link s p_token id sl →
  unique_tokens (counted_once id sl c s) ∧
  active_link (counted_once id sl c s) p_token id
    (with_download_count (Some (c + 1)) sl).
Proof.
  intros Huniq (Hin & Htok & Hact). split.
  - intros i j a b; simpl. intros Hi Hj Hab.
    assert (∀ k x, <[id := with_download_count (Some (c + 1)) sl]>
                     (share_links s) !! k = Some x →
                   ∃ y, share_links s !! k = Some y ∧ token y = token x)
      as Hsame.
    { intros k x. destruct (decide (k = id)) as [->|Hne].
      - rewrite lookup_insert_eq. intros [= <-]. eauto.
      - rewrite lookup_insert_ne by done. eauto. }
    apply Hsame in Hi as (a' & Hi & Ha). apply Hsame in Hj as (b' & Hj & Hb).
    eapply Huniq; [done..|congruence].
  - split; [|done]. simpl. apply lookup_insert_eq.
Qed.

Lemma redeem_in_turn_refused p_token callers s id sl c :
  unique_tokens s → active_link s p_token id sl →
  download_limit sl = Some 1 → download_count sl = Some c → 1 ≤ c →
  redeem_in_turn p_token callers s
  = ((redeem_in_turn p_token callers s).1, s) ∧
  refusals sl callers (redeem_in_turn p_token callers s).1.
Proof.
  intros Huniq Hlink Hlimit Hcount Hc.
  induction callers as [|[now p_password] callers [IHs IHr]]; simpl.
  { split; [done | constructor]. }
  destruct (redeem_limit_one now p_token p_password s id sl c)
    as [(row & -> & _) | (e & Hcall & He)]; [done.. | lia | lia |].
  rewrite Hcall. simpl. split.
  - destruct (redeem_in_turn p_token callers s) as [rs s'].
    simpl in *. congruence.
  - constructor; [|done]. split; [done|]. simpl. intros Hexp Hpw.
    f_equal. by apply He.
Qed.

Lemma refusals_counted sl v callers rs :
  refusals (with_download_count v sl) callers rs → refusals sl callers rs.
Proof. done. Qed.
End in_turn.

(** C3, amended. When the redemptions of a link with [download_limit = 1]
    run one after another, at most one succeeds: either none does, or the
    [n]-th does, all before it have failed, and every one after it fails,
    with [LimitReached] when it gets past the expiry and password guards. *)
Theorem redeem_in_turn_limit_one (p_token : option string)
    (callers : list (timestamptz * option string)) (s : db) (id : uuid)
    (sl : share_link) (c : Z) :
  unique_tokens s → active_link s p_token id sl →
  download_limit sl = Some 1 → download_count sl = Some c → 0 ≤ c →
  let rs := (redeem_in_turn p_token callers s).1 in
  Forall (λ r, is_Ok r = false) rs ∨
  ∃ n row, rs !! n = Some (Ok row) ∧
           Forall (λ r, is_Ok r = false) (take n rs) ∧
           refusals sl (drop (S n) callers) (drop (S n) rs).
Proof.
  intros Huniq Hlink Hlimit Hcount Hc. simpl.
  induction callers as [|[now p_password] callers IH]; simpl.
  { left. constructor. }
  destruct (redeem_limit_one now p_token p_password s id sl c)
    as [(row & -> & Hcall) | (e & Hcall & _)]; [done..| |].
  - rewrite Hcall. simpl. right. exists 0%nat, row.
    split; [done|]. split; [constructor|]. simpl.
    destruct (counted_once_link p_token s id sl 0 Huniq Hlink) as [Huniq' Hlink'].
    eapply refusals_counted.
    by eapply (redeem_in_turn_refused _ _ _ _ _ (0 + 1) Huniq' Hlink').
  - rewrite Hcall. simpl. destruct IH as [Hnone | (n & row & Hn & Hpre & Hpost)].
    + left. by constructor.
    + right. exists (S n), row. split; [done|]. split; [|done].
      simpl. by constructor.
Qed.

Lemma redeem_in_turn_limit_one_witness :
  unique_tokens shared_db ∧
  active_link shared_db (Some "00ff1a000009") 50%N secret_link ∧
  download_limit secret_link = Some 1 ∧ download_count secret_link = Some 0 ∧
  0 ≤ 0 ∧
  let callers := [(10, Some "secret"); (11, Some "secret"); (12, Some "guess")] in
  let rs := (redeem_in_turn (Some "00ff1a000009") callers shared_db).1 in
  Forall (λ r, is_Ok r = false) rs ∨
  ∃ n row, rs !! n = Some (Ok row) ∧
           Forall (λ r, is_Ok r = false) (take n rs) ∧
           refusals secret_link (drop (S n) callers) (drop (S n) rs).
Proof.
  assert (unique_tokens shared_db) as Huniq
    by (apply (bool_decide_unpack _); vm_compute; exact I).
  assert (active_link shared_db (Some "00ff1a000009") 50%N secret_link) as Hlink
    by (split; [reflexivity|]; split; reflexivity).
  assert (0 ≤ 0) as Hc by lia.
  split; [exact Huniq|]. split; [exact Hlink|]. split; [reflexivity|].
  split; [reflexivity|]. split; [exact Hc|].
  exact (redeem_in_turn_limit_one (Some "00ff1a000009")
           [(10, Some "secret"); (11, Some "secret"); (12, Some "guess")]
           shared_db 50%N secret_link 0 Huniq Hlink eq_refl eq_refl Hc).
Defined.

(** The sample redemptions in turn: the first succeeds. *)
Example redeem_in_turn_sample :
  (redeem_in_turn (Some "00ff1a000009")
     [(10, Some "secret"); (11, Some "secret"); (12, Some "guess")]
     shared_db).1
  = [Ok report_row; Err LimitReached; Err InvalidPassword].
Proof. vm_compute. reflexivity. Qed.

(** In the step model, the schedule [in_turn] is the redemptions called one
    after another. *)
Lemma run_in_turn p_token callers finished s :
  run (in_turn (length finished) (length callers))
      (finished ++ (calling p_token <$> callers), s)
  = (finished ++ (Finished <$> (redeem_in_turn p_token callers s).1),
     (redeem_in_turn p_token callers s).2).
Proof.
  revert finished s.
  induction callers as [|[now p_password] callers IH]; intros finished s.
  { done. }
  pose proof (step_twice now p_token p_password s) as Htwice.
  cbv zeta in Htwice.
  cbn [length in_turn seq flat_map fmap list_fmap app run foldl].
  unfold in_turn in IH. unfold run in *.
  set (a := step (Calling now p_token p_password) s) in *.
  assert (run_step (finished ++ calling p_token (now, p_password)
                      :: (calling p_token <$> callers), s) (length finished)
          = (finished ++ a.1 :: (calling p_token <$> callers), a.2)) as ->.
  { unfold run_step. simpl. rewrite list_lookup_middle by done.
    by rewrite insert_app_r_alt, Nat.sub_diag by done. }
  assert (run_step (finished ++ a.1 :: (calling p_token <$> callers), a.2)
            (length finished)
          = (finished ++ Finished (get_file_by_token now p_token p_password s).1
               :: (calling p_token <$> callers),
             (get_file_by_token now p_token p_password s).2)) as ->.
  { unfold run_step. simpl. rewrite list_lookup_middle by done.
    rewrite insert_app_r_alt, Nat.sub_diag by done. simpl.
    by rewrite Htwice. }
  specialize (IH (finished ++ [Finished (get_file_by_token now p_token p_password s).1])
                 (get_file_by_token now p_token p_password s).2).
  rewrite length_app in IH. simpl in IH.
  replace (length finished + 1)%nat with (S (length finished)) in IH by lia.
  rewrite <-!(assoc_L (++)) in IH. simpl in IH. exact IH.
Qed.

(** ** Creation of a share link *)


Section create.
Implicit Types (s : db) (id : uuid) (r sl : share_link).

Lemma insert_share_links_Ok id r s s' :
  insert_share_links id r s = Ok s' →
  share_links s !! id = None ∧
  (∀ k sl, share_links s !! k = Some sl → token sl ≠ token r) ∧
  s' = {| profiles := profiles s; files := files s;
          share_links := <[id := r]> (share_links s) |}.
Proof.
  unfold insert_share_links. destruct (share_links s !! id); [done|].
  case_bool_decide as Hex; [done|]. intros [= <-].
  split; [done|]. split; [|done].
  intros k sl Hk Htok. apply Hex. by exists k, sl.
Qed.



(** The call either fails and changes nothing, or it has passed the
    ownership check and run the insert. *)
Lemma create_share_link_cases vc uid now new_id random_bytes p_file_id
    p_expires_hours p_password p_download_limit s :
  let r := create_share_link vc uid now new_id random_bytes p_file_id
             p_expires_hours p_password p_download_limit s in
  (∃ e, r = (Err e, s) ∧
        (vc ≠ vc_error →
         ∀ id f, p_file_id = Some id → files s !! id = Some f →
                 uid = Some (owner_id f) →
                 insert_share_links new_id
                   (new_link (owner_id f) now random_bytes id p_expires_hours
                      p_password p_download_limit) s = Err e)) ∨
  (∃ id f s',
      p_file_id = Some id ∧ files s !! id = Some f ∧ uid = Some (owner_id f) ∧
      insert_share_links new_id
        (new_link (owner_id f) now random_bytes id p_expires_hours
           p_password p_download_limit) s = Ok s' ∧
      r = (Ok {| share_id := new_id;
                 out_token := resolve vc None (Some (encode_hex random_bytes));
                 out_expires_at :=
                   resolve vc None ((λ h, now + h * hour) <$> p_expires_hours) |},
           s')).
Proof.
  simpl. unfold create_share_link, create_share_link_body, select_owner_id.
  unfold_plpgsql. unfold is_distinct_from.
  destruct p_file_id as [id|]; simpl.
  2: { left. eexists. split; [done|]. intros _ ?? [=]. }
  destruct (files s !! id) as [f|] eqn:Hf; simpl.
  2: { left. eexists. split; [done|]. intros _ ?? [= <-]. congruence. }
  case_bool_decide as Hown.
  { left. eexists. split; [done|]. intros _ ?? [= <-] ? ->. congruence. }
  destruct uid as [u|]; [|done]. injection Hown as <-.
  destruct vc; simpl.
  { left. eexists. split; [done|]. done. }
  all: destruct (insert_share_links _ _ s) as [s'|e] eqn:Hins;
    [ right; exists id, f, s'; done
    | left; exists e; split; [done|]; intros _ ?? [= <-] Hf' _; congruence ].
Qed.
End create.


(** A call by the owner with a fresh token, names read as columns. *)
Example create_share_link_sample :
  create_share_link vc_use_column (Some alice) 20 50%N sample_bytes (Some 7%N)
      (Some 2) (Some "secret") (Some 1) stored_db
  = (Ok {| share_id := 50%N; out_token := Some "00ff1a000009";
           out_expires_at := Some 7200000020 |},
     {| profiles := profiles stored_db; files := files stored_db;
        share_links :=
          {[ 50%N := new_link alice 20 sample_bytes 7%N (Some 2)
                       (Some "secret") (Some 1) ]} |}).
Proof. vm_compute. reflexivity. Qed.

(** Under the server default the [INSERT ... RETURNING id, token,
    expires_at] is rejected, so the function never adds a link. *)
Remark create_share_link_rejected (uid : option uuid) (now : timestamptz)
    (new_id : uuid) (random_bytes : list Byte.byte) (p_file_id : option uuid)
    (p_expires_hours : option Z) (p_password : option string)
    (p_download_limit : option Z) (s : db) :
  ∃ e, create_share_link vc_error uid now new_id random_bytes p_file_id
         p_expires_hours p_password p_download_limit s = (Err e, s).
Proof.
  unfold create_share_link, create_share_link_body, select_owner_id.
  unfold_plpgsql. destruct p_file_id as [id|]; simpl; [|eauto].
  destruct (files s !! id); simpl; [|eauto].
  destruct (is_distinct_from _ _); eauto.
Qed.

(** ** The ownership check *)

Ltac unfold_operations :=
  unfold failure, rename_file, soft_delete_file, restore_file,
    permanently_delete_file, create_share_link, rename_file_body,
    soft_delete_file_body, restore_file_body,
    permanently_delete_file_body, create_share_link_body,
    select_owner_id, select_owner_id_file_path, is_distinct_from.

(** Rename, restore and share-link creation, and with names read as columns
    or variables also soft-delete and permanent delete, check existence and
    then ownership before they change anything. *)
Lemma ownership_guard (vc : variable_conflict) (op : operation)
    (uid p_file_id : option uuid) (s : db) :
  rejected_at_once vc op = false →
  ((∀ id, p_file_id = Some id → files s !! id = None) →
   perform vc op uid p_file_id s = (Some NotFound, s)) ∧
  (∀ id f, p_file_id = Some id → files s !! id = Some f →
           uid ≠ Some (owner_id f) →
           perform vc op uid p_file_id s = (Some NotAuthorized, s)).
Proof.
  intros Hrun. split.
  - intros Hmissing.
    assert (p_file_id ≫= (λ id, files s !! id) = None) as Hnone.
    { destruct p_file_id as [id|]; [|done]. simpl. by apply Hmissing. }
    destruct op, vc; try discriminate Hrun; simpl;
      unfold_operations; unfold_plpgsql;
      destruct p_file_id as [id|]; simpl in *; rewrite ?Hnone; done.
  - intros id f -> Hf Huid.
    destruct op, vc; try discriminate Hrun; simpl;
      unfold_operations; unfold_plpgsql; simpl; rewrite Hf; simpl;
      by rewrite bool_decide_true by congruence.
Qed.

(** C7 does not hold for [soft_delete_file] and [permanently_delete_file]
    under the server default: their first statement, [SELECT owner_id,
    file_path INTO ...], is rejected because [file_path] is also an output
    column of the function, so the call fails with that error whether or
    not the file exists and whoever calls. The database is left as it was. *)
Theorem delete_functions_rejected (uid p_file_id : option uuid)
    (now : timestamptz) (s : db) :
  perform vc_error (SoftDeleteFile now) uid p_file_id s
    = (Some (ambiguous_column "file_path"), s) ∧
  perform vc_error PermanentlyDeleteFile uid p_file_id s
    = (Some (ambiguous_column "file_path"), s) ∧
  ambiguous_column "file_path" ≠ NotFound ∧
  ambiguous_column "file_path" ≠ NotAuthorized.
Proof. repeat split; discriminate. Qed.

(** No file has id 9: the delete functions answer with the ambiguity, the
    other three with [NotFound]. *)
Example missing_file_sample :
  files stored_db !! 9%N = None ∧
  perform vc_error (SoftDeleteFile 10) (Some alice) (Some 9%N) stored_db
    = (Some (ambiguous_column "file_path"), stored_db) ∧
  perform vc_error PermanentlyDeleteFile (Some alice) (Some 9%N) stored_db
    = (Some (ambiguous_column "file_path"), stored_db) ∧
  perform vc_error RestoreFile (Some alice) (Some 9%N) stored_db
    = (Some NotFound, stored_db) ∧
  perform vc_error (RenameFile (Some "a") None) (Some alice) (Some 9%N) stored_db
    = (Some NotFound, stored_db) ∧
  perform vc_error (CreateShareLink 20 50%N sample_bytes None None None)
      (Some alice) (Some 9%N) stored_db
    = (Some NotFound, stored_db).
Proof. vm_compute. repeat split. Qed.

(** Bob is not the owner of file 7. *)
Example not_owner_sample :
  owner_id <$> files stored_db !! 7%N = Some alice ∧
  perform vc_error RestoreFile (Some bob) (Some 7%N) stored_db
    = (Some NotAuthorized, stored_db) ∧
  perform vc_error (RenameFile (Some "a") None) (Some bob) (Some 7%N) stored_db
    = (Some NotAuthorized, stored_db) ∧
  perform vc_use_column PermanentlyDeleteFile (Some bob) (Some 7%N) stored_db
    = (Some NotAuthorized, stored_db) ∧
  perform vc_error PermanentlyDeleteFile (Some bob) (Some 7%N) stored_db
    = (Some (ambiguous_column "file_path"), stored_db).
Proof. vm_compute. repeat split. Qed.

(** The owner, names read as columns: the file, its share link and its
    bytes in the ledger go. *)
Example owner_operations_sample :
  permanently_delete_file vc_use_column (Some alice) (Some 7%N) shared_db
  = (Ok (Some 7%N, Some "1/report.pdf"), fresh_db) ∧
  restore_file (Some alice) (Some 7%N) trashed_db
  = (Ok (Some 7%N),
     {| profiles := profiles stored_db; files := files stored_db;
        share_links := share_links shared_db |}).
Proof. vm_compute. split; reflexivity. Qed.

(** Under the server default [rename_file] passes its checks and is then
    rejected at its [UPDATE ... RETURNING id, name]. *)
Remark rename_file_rejected (uid p_file_id : option uuid)
    (p_new_name p_new_original_name : option string) (s : db) :
  ∃ e, rename_file vc_error uid p_file_id p_new_name p_new_original_name s
       = (Err e, s).
Proof.
  unfold_operations. unfold_plpgsql.
  destruct p_file_id as [id|]; simpl; [|eauto].
  destruct (files s !! id); simpl; [|eauto].
  destruct (bool_decide _); eauto.
Qed.

(** ** Listing *)

Section listing.
Implicit Types (s : db) (f : file) (uid : option uuid).

Lemma StronglySorted_sublist {A} (R : relation A) (l1 l2 : list A) :
  l1 `sublist_of` l2 → StronglySorted R l2 → StronglySorted R l1.
Proof.
  induction 1 as [|x l1 l2 Hsub IH|x l1 l2 Hsub IH]; intros Hsorted.
  - constructor.
  - apply StronglySorted_inv in Hsorted as [Hrest Hx].
    constructor; [by apply IH|].
    eapply Forall_forall. intros y Hy. eapply Forall_forall in Hx; [done|].
    by eapply sublist_subseteq.
  - apply StronglySorted_inv in Hsorted as [Hrest _]. by apply IH.
Qed.

Lemma list_files_where_root uid p_include_deleted f :
  holds (list_files_where uid None p_include_deleted f) = true →
  Some (owner_id f) = uid ∧ folder_id f = None ∧
  (p_include_deleted ≠ Some true → counted f = true).
Proof.
  unfold list_files_where, counted.
  destruct uid as [u|], (folder_id f), p_include_deleted as [[]|],
    (is_deleted f) as [[]|]; simpl; try done;
    case_bool_decide; simpl; try done; intros _; subst; done.
Qed.

Lemma limit_offset_Ok {A} (p_limit p_offset : option Z) (rows : list A) :
  0 ≤ COALESCE p_limit 0 → 0 ≤ COALESCE p_offset 0 →
  ∃ out, limit_offset p_limit p_offset rows = Ok out ∧
         out `sublist_of` rows.
Proof.
  intros Hlimit Hoffset. unfold limit_offset.
  rewrite !bool_decide_false by lia. eexists. split; [done|].
  destruct p_limit.
  - etrans; [apply sublist_take | apply sublist_drop].
  - apply sublist_drop.
Qed.
End listing.

(** C10. Called without a folder id, [list_files] returns rows of the
    [files] table that are owned by the caller and have no folder, leaves out
    the soft-deleted ones unless [p_include_deleted] is true, and orders the
    rows by creation time, latest first. *)
Theorem list_files_root (uid : option uuid) (p_limit p_offset : option Z)
    (p_include_deleted : option bool) (s : db) :
  0 ≤ COALESCE p_limit 0 → 0 ≤ COALESCE p_offset 0 →
  ∃ rows,
    list_files uid None p_limit p_offset p_include_deleted s = (Ok rows, s) ∧
    Sorted created_desc rows ∧
    ∀ id f, (id, f) ∈ rows →
            files s !! id = Some f ∧ Some (owner_id f) = uid ∧
            folder_id f = None ∧
            (p_include_deleted ≠ Some true → counted f = true).
Proof.
  intros Hlimit Hoffset.
  unfold list_files, list_files_body, select_files. unfold_plpgsql.
  destruct (limit_offset_Ok p_limit p_offset
              (merge_sort created_desc
                 (filter (λ kv, holds (list_files_where uid None
                                         p_include_deleted kv.2))
                         (map_to_list (files s)))) Hlimit Hoffset)
    as (rows & -> & Hsub).
  exists rows. split; [done|]. split.
  - apply StronglySorted_Sorted.
    eapply StronglySorted_sublist; [exact Hsub|].
    apply StronglySorted_merge_sort; apply _.
  - intros id f Hin.
    eapply sublist_subseteq in Hin; [|exact Hsub].
    rewrite merge_sort_Permutation in Hin.
    apply list_elem_of_filter in Hin as [Hwhere Hin].
    apply elem_of_map_to_list in Hin. split; [done|].
    apply list_files_where_root. simpl in Hwhere. by destruct (holds _).
Qed.

Example list_files_sample :
  list_files (Some alice) None (Some 50) (Some 0) (Some false) folders_db
  = (Ok [(9%N, in_folder None 9 false alice report); (7%N, report)], folders_db)
  ∧ list_files (Some alice) None (Some 50) (Some 0) (Some true) folders_db
  = (Ok [(9%N, in_folder None 9 false alice report); (7%N, report);
         (10%N, in_folder None 2 true alice report)], folders_db)
  ∧ list_files (Some alice) (Some 3%N) (Some 50) (Some 0) (Some false) folders_db
  = (Ok [(8%N, in_folder (Some 3%N) 8 false alice report)], folders_db).
Proof. vm_compute. repeat split. Qed.

Lemma list_files_root_witness :
  0 ≤ COALESCE (Some 50) 0 ∧ 0 ≤ COALESCE (Some 0) 0 ∧
  ∃ rows,
    list_files (Some alice) None (Some 50) (Some 0) (Some false) folders_db
      = (Ok rows, folders_db) ∧
    Sorted created_desc rows ∧
    ∀ id f, (id, f) ∈ rows →
            files folders_db !! id = Some f ∧ Some (owner_id f) = Some alice ∧
            folder_id f = None ∧
            (Some false ≠ Some true → counted f = true).
Proof.
  assert (0 ≤ COALESCE (Some 50) 0) as Hlimit by (simpl; lia).
  assert (0 ≤ COALESCE (Some 0) 0) as Hoffset by (simpl; lia).
  split; [exact Hlimit|]. split; [exact Hoffset|].
  exact (list_files_root (Some alice) (Some 50) (Some 0) (Some false)
           folders_db Hlimit Hoffset).
Defined.

Lemma root_files_all_listed (uid : option uuid)
    (p_include_deleted : option bool) (s : db) (id : uuid) (f : file) :
  files s !! id = Some f → Some (owner_id f) = uid → folder_id f = None →
  counted f = true ∨ p_include_deleted = Some true →
  ∃ rows, list_files uid None None None p_include_deleted s = (Ok rows, s) ∧
          (id, f) ∈ rows.
Proof.
  intros Hf <- Hroot Hshown.
  unfold list_files, list_files_body, select_files, limit_offset.
  unfold_plpgsql. simpl. eexists. split; [done|].
  rewrite merge_sort_Permutation. apply list_elem_of_filter. split.
  - simpl. unfold list_files_where, counted in *. rewrite Hroot. simpl.
    rewrite bool_decide_true by done.
    destruct Hshown as [Hc | ->]; [|by destruct (is_deleted f) as [[]|]].
    destruct (is_deleted f) as [[]|], p_include_deleted as [[]|]; done.
  - by apply elem_of_map_to_list.
Qed.

(** ** The scenario of the specification *)

(** Alice uploads a file of 1000 bytes and shares it with a limit of two
    downloads; two redemptions succeed and the third is refused; the
    soft-delete, the restore and the permanent delete move her ledger to 0,
    1000 and 0. Names are read as columns, so that [create_share_link] and
    [permanently_delete_file] run. *)
Example scenario :
  let upload := with_file_size 1000 report in
  let s1 := apply fresh_db (Insert 7%N upload) in
  let c := create_share_link vc_use_column (Some alice) 20 50%N sample_bytes
             (Some 7%N) None None (Some 2) s1 in
  let r1 := get_file_by_token 21 (Some "00ff1a000009") None c.2 in
  let r2 := get_file_by_token 22 (Some "00ff1a000009") None r1.2 in
  let r3 := get_file_by_token 23 (Some "00ff1a000009") None r2.2 in
  let s2 := apply r3.2 (SoftDelete 7%N 24) in
  let s3 := apply s2 (Restore 7%N) in
  let d := permanently_delete_file vc_use_column (Some alice) (Some 7%N) s3 in
  storage_used <$> profiles s1 !! alice = Some (Some 1000) ∧
  is_Ok c.1 = true ∧ is_Ok r1.1 = true ∧ is_Ok r2.1 = true ∧
  r3.1 = Err LimitReached ∧
  download_count <$> share_links r3.2 !! 50%N = Some (Some 2) ∧
  storage_used <$> profiles s2 !! alice = Some (Some 0) ∧
  storage_used <$> profiles s3 !! alice = Some (Some 1000) ∧
  d.1 = Ok (Some 7%N, Some "1/report.pdf") ∧
  storage_used <$> profiles d.2 !! alice = Some (Some 0) ∧
  files d.2 = ∅ ∧ share_links d.2 = ∅.
Proof. vm_compute. repeat split. Qed.

(** * Further properties *)

(** ** The sign of the ledger *)

Section nonneg.
Implicit Types (ps : gmap uuid profile) (u k : uuid) (s : db).

Lemma update_profiles_nonneg e k ps ps' :
  update_profiles e k ps = Ok ps' → ledger_nonneg ps →
  (∀ x v, 0 ≤ x → e (Some x) = Ok v → ∃ y, v = Some y ∧ 0 ≤ y) →
  ledger_nonneg ps'.
Proof.
  intros Hupd Hnn He u p' Hp'.
  destruct (update_profiles_Ok _ _ _ _ _ _ Hupd Hp') as (p & Hp & Hcase).
  destruct (Hnn u p Hp) as (x & Hx & Hx0). case_decide.
  - rewrite Hx in Hcase. destruct (He x _ Hx0 Hcase) as (y & -> & ?). eauto.
  - subst p'. eauto.
Qed.

Lemma plus_nonneg n x v :
  0 ≤ n → 0 ≤ x → plus n (Some x) = Ok v → ∃ y, v = Some y ∧ 0 ≤ y.
Proof. intros ? ? ->%plus_Ok. eexists. split; [done | lia]. Qed.

Lemma minus_floored_nonneg n x v :
  minus_floored n (Some x) = Ok v → ∃ y, v = Some y ∧ 0 ≤ y.
Proof.
  unfold minus_floored, bigint_sub. simpl.
  case_bool_decide; simpl; [|done]. intros [= <-].
  eexists. split; [done | lia].
Qed.

Lemma plus_delta_nonneg n o x v :
  o ≤ n → 0 ≤ x → plus_delta n o (Some x) = Ok v → ∃ y, v = Some y ∧ 0 ≤ y.
Proof. intros ? ? ->%plus_delta_Ok. eexists. split; [done | lia]. Qed.
End nonneg.

(** On a ledger without negative entries, an event that brings in no
    negative size leaves no negative entry, unless it is an update that
    keeps the owner and the soft-delete state and makes the file smaller:
    the size-delta branch is the only one that can take the ledger below
    zero. *)
Theorem only_shrinking_goes_negative (ev : trigger_event)
    (ps ps' : gmap uuid profile) :
  update_storage_usage ev ps = Ok ps' →
  ledger_nonneg ps → new_size_ok ev → ¬ shrinks ev →
  ledger_nonneg ps'.
Proof.
  intros Htrig Hnn Hsize Hshrink.
  destruct ev as [NEW|OLD|OLD NEW]; simpl in *.
  - destruct (counted NEW); [|by injection Htrig as <-].
    eapply update_profiles_nonneg; [done..|]. intros x v. by apply plus_nonneg.
  - destruct (counted OLD); [|by injection Htrig as <-].
    eapply update_profiles_nonneg; [done..|].
    intros x v _. apply minus_floored_nonneg.
  - unfold is_distinct_from in Htrig. case_bool_decide as Hown.
    + assert (∃ ps1, (if counted OLD
                      then update_profiles (minus_floored (file_size OLD))
                             (owner_id OLD) ps
                      else Ok ps) = Ok ps1 ∧
                     (if counted NEW
                      then update_profiles (plus (file_size NEW)) (owner_id NEW) ps1
                      else Ok ps1) = Ok ps') as (ps1 & H1 & H2).
      { destruct (if counted OLD then _ else _) as [ps1|]; [eauto | done]. }
      assert (ledger_nonneg ps1) as Hnn1.
      { destruct (counted OLD); [|by injection H1 as <-].
        eapply update_profiles_nonneg; [done..|].
        intros x v _. apply minus_floored_nonneg. }
      destruct (counted NEW); [|by injection H2 as <-].
      eapply update_profiles_nonneg; [done..|]. intros x v. by apply plus_nonneg.
    + assert (owner_id NEW = owner_id OLD) as Hsame by congruence.
      destruct (counted OLD) eqn:Hold, (counted NEW) eqn:Hnew; simpl in Htrig.
      * case_bool_decide as Hne; [|by injection Htrig as <-].
        eapply update_profiles_nonneg; [done..|]. intros x v.
        apply plus_delta_nonneg.
        destruct (decide (file_size OLD ≤ file_size NEW)); [done|].
        exfalso. apply Hshrink. repeat split; [done..|lia].
      * eapply update_profiles_nonneg; [done..|].
        intros x v _. apply minus_floored_nonneg.
      * eapply update_profiles_nonneg; [done..|]. intros x v. by apply plus_nonneg.
      * by injection Htrig as <-.
Qed.

Lemma only_shrinking_goes_negative_witness :
  let ps := profiles drifted_db in
  let ps' := {[ alice := with_storage_used (Some 0) empty_profile ]} in
  update_storage_usage (DELETE report) ps = Ok ps' ∧
  ledger_nonneg ps ∧ new_size_ok (DELETE report) ∧ ¬ shrinks (DELETE report) ∧
  ledger_nonneg ps'.
Proof.
  cbv zeta.
  assert (update_storage_usage (DELETE report) (profiles drifted_db)
          = Ok {[ alice := with_storage_used (Some 0) empty_profile ]}) as Htrig
    by (vm_compute; reflexivity).
  assert (ledger_nonneg (profiles drifted_db)) as Hnn
    by (apply (bool_decide_unpack _); vm_compute; exact I).
  assert (new_size_ok (DELETE report)) as Hsize by exact I.
  assert (¬ shrinks (DELETE report)) as Hshrink by (intros []).
  split; [exact Htrig|]. split; [exact Hnn|]. split; [exact Hsize|].
  split; [exact Hshrink|].
  exact (only_shrinking_goes_negative (DELETE report) (profiles drifted_db)
           {[ alice := with_storage_used (Some 0) empty_profile ]}
           Htrig Hnn Hsize Hshrink).
Defined.

(** From a state whose ledger holds the recomputed sums, no sequence of
    mutations makes a [storage_used] negative. *)
Theorem consistent_ledger_never_negative (ms : list mutation) (s : db) :
  ledger_ok s → sizes_ok s → Forall size_ok ms →
  ledger_nonneg (profiles (replay ms s)).
Proof.
  intros Hled Hsizes Hms u p Hp.
  destruct (replay_ledger ms s Hled Hsizes Hms) as [Hled' Hsizes'].
  exists (usage u (files (replay ms s))). split; [by apply Hled'|].
  by apply usage_nonneg.
Qed.

Lemma consistent_ledger_never_negative_witness :
  ledger_ok fresh_db ∧ sizes_ok fresh_db ∧ Forall size_ok history ∧
  ledger_nonneg (profiles (replay history fresh_db)).
Proof.
  assert (ledger_ok fresh_db) as Hled
    by (apply (bool_decide_unpack _); vm_compute; exact I).
  assert (sizes_ok fresh_db) as Hsizes
    by (apply (bool_decide_unpack _); vm_compute; exact I).
  assert (Forall size_ok history) as Hms
    by (apply (bool_decide_unpack _); vm_compute; exact I).
  split; [exact Hled|]. split; [exact Hsizes|]. split; [exact Hms|].
  exact (consistent_ledger_never_negative history fresh_db Hled Hsizes Hms).
Defined.

Section flags.
Implicit Types (s : db) (id : uuid) (f : file) (ps : gmap uuid profile).

(** The trigger looks at the owner, the size and the soft-delete flag of
    the old and the new row, and at nothing else. *)
Lemma update_storage_usage_columns OLD NEW OLD' NEW' ps :
  owner_id OLD' = owner_id OLD → file_size OLD' = file_size OLD →
  counted OLD' = counted OLD →
  owner_id NEW' = owner_id NEW → file_size NEW' = file_size NEW →
  counted NEW' = counted NEW →
  update_storage_usage (UPDATE OLD' NEW') ps
  = update_storage_usage (UPDATE OLD NEW) ps.
Proof.
  intros Ho Hs Hc Ho' Hs' Hc'. simpl. by rewrite Ho, Hs, Hc, Ho', Hs', Hc'.
Qed.

Lemma update_storage_usage_same f f' ps :
  owner_id f' = owner_id f → counted f' = counted f →
  file_size f' = file_size f ∨ counted f = false →
  update_storage_usage (UPDATE f f') ps = Ok ps.
Proof.
  intros Hown Hc Hsize. simpl. unfold is_distinct_from.
  rewrite bool_decide_false by (intros ?; congruence). rewrite Hc.
  destruct (counted f); simpl; [|done].
  destruct Hsize as [->|]; [|done]. by rewrite bool_decide_false by auto.
Qed.

(** Setting the flag a second time to the same value. *)
Lemma set_flag_twice (d : bool) t1 t2 id s :
  profiles (apply (apply s (if d then SoftDelete id t1 else Restore id))
                  (if d then SoftDelete id t2 else Restore id))
  = profiles (apply s (if d then SoftDelete id t1 else Restore id)).
Proof.
  set (set1 := with_deleted (Some d) (if d then Some t1 else None)).
  set (set2 := with_deleted (Some d) (if d then Some t2 else None)).
  assert (∀ s, statement (if d then SoftDelete id t1 else Restore id) s
               = update_files set1 id s) as Hst1 by (by destruct d).
  assert (∀ s, statement (if d then SoftDelete id t2 else Restore id) s
               = update_files set2 id s) as Hst2 by (by destruct d).
  unfold apply. rewrite !Hst1, !Hst2.
  destruct (update_files set1 id s) as [s1|e] eqn:H1.
  - unfold update_files in H1. destruct (files s !! id) as [f|] eqn:Hf.
    + destruct (update_storage_usage _ _) as [ps|] eqn:Htrig; [|done].
      injection H1 as <-. unfold update_files. cbn [files profiles].
      rewrite lookup_insert_eq.
      rewrite update_storage_usage_same; [done|done|done|].
      destruct d; [by right | by left].
    + injection H1 as <-. unfold update_files. by rewrite Hf.
  - unfold update_files in *. destruct (files s !! id) as [f|] eqn:Hf; [|done].
    erewrite (update_storage_usage_columns f (set1 f)); [|done..].
    by destruct (update_storage_usage _ _).
Qed.
End flags.

(** ** Setting the soft-delete flag twice *)

(** A soft-delete of a file that is already soft-deleted, and a restore of
    a file that is not, leave every account as the first one left it: the
    size is subtracted, or added, once. *)
Theorem flag_set_twice_counts_once (s : db) (id : uuid) (t1 t2 : timestamptz) :
  profiles (apply (apply s (SoftDelete id t1)) (SoftDelete id t2))
    = profiles (apply s (SoftDelete id t1)) ∧
  profiles (apply (apply s (Restore id)) (Restore id))
    = profiles (apply s (Restore id)).
Proof.
  split.
  - exact (set_flag_twice true t1 t2 id s).
  - exact (set_flag_twice false t1 t2 id s).
Qed.

(** ** The storage limit *)

Section limits.
Implicit Types (s : db) (id u k : uuid) (ps : gmap uuid profile).

Lemma update_profiles_limit e k ps ps' u :
  update_profiles e k ps = Ok ps' →
  storage_limit <$> ps' !! u = storage_limit <$> ps !! u.
Proof.
  unfold update_profiles. destruct (ps !! k) as [p|] eqn:Hk.
  - destruct (e (storage_used p)) as [v|]; simpl; [|done]. intros [= <-].
    destruct (decide (u = k)) as [->|Hne].
    + by rewrite lookup_insert_eq, Hk.
    + by rewrite lookup_insert_ne.
  - by intros [= <-].
Qed.

Lemma update_storage_usage_limit ev ps ps' u :
  update_storage_usage ev ps = Ok ps' →
  storage_limit <$> ps' !! u = storage_limit <$> ps !! u.
Proof.
  destruct ev as [NEW|OLD|OLD NEW]; simpl.
  - destruct (counted NEW); [apply update_profiles_limit | by intros [= <-]].
  - destruct (counted OLD); [apply update_profiles_limit | by intros [= <-]].
  - destruct (is_distinct_from _ _).
    + destruct (if counted OLD then _ else _) as [ps1|] eqn:H1; simpl; [|done].
      intros H2. trans (storage_limit <$> ps1 !! u).
      * destruct (counted NEW); [by eapply update_profiles_limit|].
        by injection H2 as <-.
      * destruct (counted OLD); [by eapply update_profiles_limit|].
        by injection H1 as <-.
    + destruct (counted OLD), (counted NEW); simpl;
        try apply update_profiles_limit; try by intros [= <-].
      case_bool_decide; [apply update_profiles_limit | by intros [= <-]].
Qed.
End limits.

(** No mutation of a file record changes the [storage_limit] of an account,
    nor the set of accounts. *)
Theorem mutations_keep_limits (m : mutation) (s : db) (u : uuid) :
  storage_limit <$> profiles (apply s m) !! u
  = storage_limit <$> profiles s !! u.
Proof.
  unfold apply. destruct (statement m s) as [s'|] eqn:Hst; [|done].
  assert (∀ set id, update_files set id s = Ok s' →
            storage_limit <$> profiles s' !! u
            = storage_limit <$> profiles s !! u) as Hupd.
  { intros set id. unfold update_files. destruct (files s !! id); [|by intros [= <-]].
    destruct (update_storage_usage _ _) as [ps|] eqn:Htrig; simpl; [|done].
    intros [= <-]. simpl. by eapply update_storage_usage_limit. }
  destruct m; simpl in Hst; try by eapply Hupd.
  - unfold insert_files in Hst. destruct (files s !! id); [done|].
    destruct (update_storage_usage _ _) as [ps|] eqn:Htrig; simpl in Hst; [|done].
    injection Hst as <-. simpl. by eapply update_storage_usage_limit.
  - unfold delete_files in Hst. destruct (files s !! id); [|by injection Hst as <-].
    destruct (update_storage_usage _ _) as [ps|] eqn:Htrig; simpl in Hst; [|done].
    injection Hst as <-. simpl. by eapply update_storage_usage_limit.
Qed.

(** The insert of a counted file goes through whenever the new sum fits a
    [BIGINT]: the account's [storage_limit] is not looked at, and
    [storage_used] may end above it. *)
Theorem insert_ignores_limit (s : db) (id : uuid) (r : file) (p : profile)
    (su : Z) :
  files s !! id = None → counted r = true →
  profiles s !! owner_id r = Some p → storage_used p = Some su →
  bigint_min ≤ su + file_size r ≤ bigint_max →
  insert_files id r s
  = Ok {| profiles := <[owner_id r := with_storage_used (Some (su + file_size r)) p]>
                        (profiles s);
          files := <[id := r]> (files s);
          share_links := share_links s |}.
Proof.
  intros Hfresh Hc Hp Hsu Hrange. unfold insert_files. rewrite Hfresh. simpl.
  rewrite Hc. unfold update_profiles. rewrite Hp, Hsu.
  unfold plus, bigint_add, sql_arith, in_range.
  by rewrite bool_decide_true by done.
Qed.

Lemma insert_ignores_limit_witness :
  files small_db !! 7%N = None ∧ counted report = true ∧
  profiles small_db !! owner_id report = Some small_profile ∧
  storage_used small_profile = Some 0 ∧
  storage_limit small_profile = Some 50 ∧
  bigint_min ≤ 0 + file_size report ≤ bigint_max ∧
  insert_files 7%N report small_db
  = Ok {| profiles := <[owner_id report :=
                          with_storage_used (Some (0 + file_size report))
                            small_profile]> (profiles small_db);
          files := <[7%N := report]> (files small_db);
          share_links := share_links small_db |}.
Proof.
  assert (bigint_min ≤ 0 + file_size report ≤ bigint_max) as Hrange
    by (unfold bigint_min, bigint_max; simpl; lia).
  split; [reflexivity|]. split; [reflexivity|]. split; [reflexivity|].
  split; [reflexivity|]. split; [reflexivity|]. split; [exact Hrange|].
  exact (insert_ignores_limit small_db 7%N report small_profile 0
           eq_refl eq_refl eq_refl eq_refl Hrange).
Defined.

(** ** What a redemption changes *)

Section outcomes.
Implicit Types (s : db) (id : uuid) (sl : share_link) (now : timestamptz).

(** The outcomes of a redemption: it changes nothing, or it has counted
    one download on the link it selected. *)
Lemma get_file_by_token_outcomes now p_token p_password s :
  let r := get_file_by_token now p_token p_password s in
  r.2 = s ∨
  ∃ id sl v row,
    select_share_link p_token s = Some (id, sl) ∧
    ¬ limit_reached sl ∧
    integer_add (download_count sl) (Some 1) = Ok v ∧
    r = (Ok row,
         {| profiles := profiles s; files := files s;
            share_links := <[id := with_download_count v sl]> (share_links s) |}).
Proof.
  simpl.
  destruct (select_share_link p_token s) as [[id sl]|] eqn:Hsel.
  2: { left. by rewrite get_file_by_token_unselected. }
  rewrite (get_file_by_token_selected _ _ _ _ _ _ Hsel).
  pose proof (select_share_link_Some _ _ _ _ Hsel) as (Hin & _ & _).
  unfold redeem_selected. unfold_plpgsql.
  destruct (holds _); [by left|].
  destruct (holds _); [by left|].
  destruct (holds _) eqn:Hlim; [by left|].
  unfold increment_download_count. rewrite Hin.
  destruct (integer_add _ _) as [v|] eqn:Hadd; simpl; [|by left].
  destruct (select_available_file _ _) as [row|]; [|by left].
  right. exists id, sl, v, row. repeat split; [|done].
  intros Hreached%limit_guard. congruence.
Qed.
End outcomes.

(** A redemption touches neither accounts nor files, adds and removes no
    share link, and changes at most the [download_count] of links: a count
    that changed went up by one, in a redemption that succeeded. *)
Theorem redemption_frame (now : timestamptz)
    (p_token p_password : option string) (s : db) :
  let r := get_file_by_token now p_token p_password s in
  profiles r.2 = profiles s ∧ files r.2 = files s ∧
  (∀ id, share_links s !! id = None → share_links r.2 !! id = None) ∧
  (∀ id sl, share_links s !! id = Some sl →
     ∃ sl', share_links r.2 !! id = Some sl' ∧ same_but_count sl sl' ∧
            (download_count sl' = download_count sl ∨
             is_Ok r.1 = true ∧
             ∃ c, download_count sl = Some c ∧ download_count sl' = Some (c + 1))).
Proof.
  cbv zeta.
  assert (∀ sl, same_but_count sl sl) as Hrefl by (by intros []).
  destruct (get_file_by_token_outcomes now p_token p_password s)
    as [-> | (i & sli & v & row & Hsel & _ & Hadd & ->)]; cbv zeta; simpl.
  { repeat split; [done|]. intros id sl Hid. exists sl. eauto. }
  pose proof (select_share_link_Some _ _ _ _ Hsel) as (Hin & _ & _).
  repeat split.
  - intros id Hid. rewrite lookup_insert_ne; [done|]. intros ->. congruence.
  - intros id sl Hid. destruct (decide (id = i)) as [->|Hne].
    + rewrite lookup_insert_eq. assert (sl = sli) as -> by congruence.
      eexists. split; [done|]. split; [done|]. simpl.
      apply in_range_Ok in Hadd as ->.
      destruct (download_count sli) as [c|]; simpl; [|by left].
      right. eauto.
    + rewrite lookup_insert_ne by done. exists sl. eauto.
Qed.

(** Redemptions that run one after the other never take a count past the
    limit of its link: where every bounded link has a count within its
    limit, this is still so after any redemption, whatever its result. *)
Theorem redemption_keeps_limit (now : timestamptz)
    (p_token p_password : option string) (s : db) :
  within_limit s →
  within_limit (get_file_by_token now p_token p_password s).2.
Proof.
  intros Hwithin.
  destruct (get_file_by_token_outcomes now p_token p_password s)
    as [-> | (i & sli & v & row & Hsel & Hlim & Hadd & ->)]; cbv zeta;
    [done|].
  pose proof (select_share_link_Some _ _ _ _ Hsel) as (Hin & _ & _).
  intros id sl l c; simpl. destruct (decide (id = i)) as [->|Hne].
  - rewrite lookup_insert_eq. intros [= <-]; simpl. intros Hl Hv.
    apply in_range_Ok in Hadd. subst v.
    destruct (download_count sli) as [c0|] eqn:Hc0; [|done].
    injection Hv as <-.
    destruct (decide (l ≤ c0)); [|lia].
    exfalso. apply Hlim. exists l, c0. done.
  - rewrite lookup_insert_ne by done. apply Hwithin.
Qed.

Lemma redemption_keeps_limit_witness :
  within_limit shared_db ∧
  within_limit
    (get_file_by_token 10 (Some "00ff1a000009") (Some "secret") shared_db).2.
Proof.
  assert (within_limit shared_db) as Hwithin
    by (apply (bool_decide_unpack _); vm_compute; exact I).
  split; [exact Hwithin|].
  exact (redemption_keeps_limit 10 (Some "00ff1a000009") (Some "secret")
           shared_db Hwithin).
Defined.

(** ** From creation to redemption *)

Section round_trip.
Implicit Types (s : db) (id : uuid) (sl : share_link) (now : timestamptz).

Lemma select_share_link_only s id sl :
  share_links s !! id = Some sl → is_active sl = Some true →
  (∀ k sl', share_links s !! k = Some sl' → token sl' = token sl → k = id) →
  select_share_link (Some (token sl)) s = Some (id, sl).
Proof.
  intros Hin Hact Honly.
  destruct (select_share_link (Some (token sl)) s) as [[id' sl']|] eqn:Hsel.
  - apply select_share_link_Some in Hsel as (Hin' & Htok' & _).
    assert (id' = id) as -> by (eapply Honly; [done|congruence]).
    congruence.
  - exfalso. eapply select_share_link_None; [exact Hsel|]. by split.
Qed.

(** What a successful creation leaves behind. *)
Lemma create_share_link_Ok vc uid now new_id random_bytes fid
    p_expires_hours p_password p_download_limit s out s' :
  create_share_link vc uid now new_id random_bytes (Some fid)
    p_expires_hours p_password p_download_limit s = (Ok out, s') →
  ∃ f, files s !! fid = Some f ∧ uid = Some (owner_id f) ∧
       let sl := new_link (owner_id f) now random_bytes fid p_expires_hours
                   p_password p_download_limit in
       s' = {| profiles := profiles s; files := files s;
               share_links := <[new_id := sl]> (share_links s) |} ∧
       select_share_link (Some (encode_hex random_bytes)) s' = Some (new_id, sl).
Proof.
  intros Hcall.
  destruct (create_share_link_cases vc uid now new_id random_bytes (Some fid)
              p_expires_hours p_password p_download_limit s)
    as [(e & Hr & _) | (id & f & s'' & [= <-] & Hf & -> & Hins & Hr)];
    cbv zeta in *; rewrite Hr in Hcall; [done|].
  injection Hcall as _ <-.
  apply insert_share_links_Ok in Hins as (Hfresh & Hnew & ->).
  exists f. split; [done|]. split; [done|]. split; [done|].
  apply (select_share_link_only _ new_id
           (new_link (owner_id f) now random_bytes fid p_expires_hours
              p_password p_download_limit)); simpl.
  - by rewrite lookup_insert_eq.
  - done.
  - intros k sl'. destruct (decide (k = new_id)) as [->|Hne]; [done|].
    rewrite lookup_insert_ne by done. intros Hk Htok. by destruct (Hnew k sl').
Qed.
End round_trip.

(** A link that [create_share_link] has made for a file that is not in the
    trash is redeemed by its token and the password it was made with, at
    any time up to its expiry and where its limit, if any, is positive: the
    redemption returns the row of the file and counts the first download. *)
Theorem created_link_redeems (vc : variable_conflict) (uid : option uuid)
    (now now' : timestamptz) (new_id fid : uuid) (random_bytes : list Byte.byte)
    (p_expires_hours : option Z) (p_password : option string)
    (p_download_limit : option Z) (s s' : db) (out : created_share_link)
    (f : file) :
  create_share_link vc uid now new_id random_bytes (Some fid)
    p_expires_hours p_password p_download_limit s = (Ok out, s') →
  files s !! fid = Some f → counted f = true →
  (∀ h, p_expires_hours = Some h → now' ≤ now + h * hour) →
  (∀ l, p_download_limit = Some l → 0 < l) →
  get_file_by_token now' (Some (encode_hex random_bytes)) p_password s'
  = (Ok (row_of fid f),
     counted_once new_id
       (new_link (owner_id f) now random_bytes fid p_expires_hours
          p_password p_download_limit) 0 s').
Proof.
  intros Hcall Hf Hcounted Hexp Hlim.
  apply create_share_link_Ok in Hcall as (f' & Hf' & _ & Hs' & Hsel).
  cbv zeta in *. assert (f' = f) as -> by congruence.
  rewrite (get_file_by_token_selected _ _ _ _ _ _ Hsel). unfold call.
  rewrite (redeem_selected_pass _ _ _ _ _ 0).
  - unfold select_available_file. simpl. rewrite Hs'. simpl.
    rewrite Hf. simpl. by rewrite Hcounted.
  - rewrite Hs'. simpl. by rewrite lookup_insert_eq.
  - intros (t & Ht & Hlt). simpl in Ht.
    destruct p_expires_hours as [h|]; [|done].
    injection Ht as <-. specialize (Hexp h eq_refl). lia.
  - intros (p & q & Hp & Hq & Hne). simpl in Hp. congruence.
  - intros (l & c & Hl & Hc & Hle). simpl in Hl, Hc.
    injection Hc as <-. specialize (Hlim l Hl). lia.
  - done.
  - unfold integer_min, integer_max. lia.
Qed.

Lemma created_link_redeems_witness :
  get_file_by_token 30 (Some (encode_hex sample_bytes)) (Some "secret")
    {| profiles := profiles stored_db; files := files stored_db;
       share_links :=
         {[ 50%N := new_link alice 20 sample_bytes 7%N (Some 2)
                      (Some "secret") (Some 1) ]} |}
  = (Ok (row_of 7%N report),
     counted_once 50%N
       (new_link (owner_id report) 20 sample_bytes 7%N (Some 2)
          (Some "secret") (Some 1)) 0
       {| profiles := profiles stored_db; files := files stored_db;
          share_links :=
            {[ 50%N := new_link alice 20 sample_bytes 7%N (Some 2)
                         (Some "secret") (Some 1) ]} |}).
Proof.
  apply (created_link_redeems vc_use_column (Some alice) 20 30 50%N 7%N
           sample_bytes (Some 2) (Some "secret") (Some 1) stored_db _
           {| share_id := 50%N; out_token := Some "00ff1a000009";
              out_expires_at := Some 7200000020 |} report).
  - vm_compute. reflexivity.
  - vm_compute. reflexivity.
  - reflexivity.
  - intros h [= <-]. unfold hour. lia.
  - intros l [= <-]. lia.
Defined.



(** ** The token *)

Section token.

Lemma byte_of_hex_digits (b : Byte.byte) :
  byte_of_hex (hex_digit (Byte.to_N b / 16)) (hex_digit (Byte.to_N b `mod` 16))
  = Some b.
Proof. destruct b; vm_compute; reflexivity. Qed.

Lemma hex_digits_in (b : Byte.byte) :
  hex_digit (Byte.to_N b / 16) ∈ hex_chars ∧
  hex_digit (Byte.to_N b `mod` 16) ∈ hex_chars.
Proof.
  split; apply (bool_decide_unpack _); destruct b; vm_compute; exact I.
Qed.
End token.

(** The token is the whole of the random bytes in lower-case hexadecimal:
    two characters from [0-9a-f] for each byte, so twelve for the six bytes
    of [gen_random_bytes(6)], and different bytes give different tokens. *)
Theorem token_shape (random_bytes other_bytes : list Byte.byte) :
  String.length (encode_hex random_bytes) = (2 * length random_bytes)%nat ∧
  Forall (λ c, c ∈ hex_chars) (list_ascii_of_string (encode_hex random_bytes)) ∧
  (encode_hex random_bytes = encode_hex other_bytes →
   random_bytes = other_bytes).
Proof.
  split; [|split].
  - induction random_bytes as [|b bs IH]; simpl; [done|]. rewrite IH. lia.
  - induction random_bytes as [|b bs IH]; simpl; [done|].
    destruct (hex_digits_in b) as [Hhi Hlo].
    apply Forall_cons; split; [exact Hhi|].
    apply Forall_cons; split; [exact Hlo|exact IH].
  - revert other_bytes.
    induction random_bytes as [|b bs IH]; intros [|b' bs']; simpl; try done.
    intros [= Hhi Hlo Hrest].
    pose proof (byte_of_hex_digits b) as Hb.
    rewrite Hhi, Hlo, byte_of_hex_digits in Hb.
    injection Hb as <-. f_equal. by apply IH.
Qed.

(** ** What an operation can reach *)

Ltac run_operation Hf :=
  simpl; unfold_operations; unfold_plpgsql; simpl; rewrite ?Hf; simpl;
  rewrite ?bool_decide_false by naive_solver; simpl.

Section reach.
Implicit Types (s : db) (id k : uuid) (f : file) (ps : gmap uuid profile).

Lemma update_profiles_other e k ps ps' u :
  update_profiles e k ps = Ok ps' → u ≠ k → ps' !! u = ps !! u.
Proof.
  unfold update_profiles. destruct (ps !! k) as [p|].
  - destruct (e (storage_used p)) as [v|]; simpl; [|done].
    intros [= <-] Hne. by rewrite lookup_insert_ne.
  - by intros [= <-].
Qed.

(** The trigger writes to the accounts of the owners in [OLD] and [NEW]. *)
Lemma update_storage_usage_other ev ps ps' u :
  update_storage_usage ev ps = Ok ps' →
  match ev with
  | INSERT NEW => u ≠ owner_id NEW
  | DELETE OLD => u ≠ owner_id OLD
  | UPDATE OLD NEW => u ≠ owner_id OLD ∧ u ≠ owner_id NEW
  end →
  ps' !! u = ps !! u.
Proof.
  destruct ev as [NEW|OLD|OLD NEW]; simpl.
  - destruct (counted NEW); [|by intros [= <-]].
    intros. by eapply update_profiles_other.
  - destruct (counted OLD); [|by intros [= <-]].
    intros. by eapply update_profiles_other.
  - intros Htrig [Hold Hnew]. revert Htrig.
    destruct (is_distinct_from _ _).
    + destruct (if counted OLD then _ else _) as [ps1|] eqn:H1; simpl; [|done].
      assert (ps1 !! u = ps !! u) as <-.
      { destruct (counted OLD); [|by injection H1 as <-].
        by eapply update_profiles_other. }
      destruct (counted NEW); [|by intros [= <-]].
      intros. by eapply update_profiles_other.
    + destruct (counted OLD), (counted NEW); simpl;
        try case_bool_decide; try (by intros [= <-]);
        intros; by eapply update_profiles_other.
Qed.

(** An operation leaves the database as it was, or its caller owns the
    file and one statement on that file has run. *)
Lemma after_cases vc op uid p_file_id s :
  after vc op uid p_file_id s = s ∨
  ∃ id f, p_file_id = Some id ∧ files s !! id = Some f ∧
          uid = Some (owner_id f) ∧ ran id f s (after vc op uid p_file_id s).
Proof.
  unfold after.
  destruct p_file_id as [id|].
  2: { left. destruct op, vc; reflexivity. }
  destruct (files s !! id) as [f|] eqn:Hf.
  2: { left. destruct op, vc; run_operation Hf; reflexivity. }
  destruct (decide (uid = Some (owner_id f))) as [->|Hne].
  2: { left. destruct op, vc; run_operation Hf;
       rewrite ?bool_decide_true by congruence; reflexivity. }
  destruct op as [n o|now| | |now new_id bytes h p l].
  - destruct n as [n|].
    2: { left. destruct vc; run_operation Hf; reflexivity. }
    destruct (update_files (λ r, with_name n (COALESCE o (original_name r)) r)
                id s) as [s'|e] eqn:Hst;
      destruct vc;
      first
        [ left; run_operation Hf; rewrite ?Hst; reflexivity
        | right; exists id, f; do 3 (split; [done|]);
          run_operation Hf; rewrite Hst; simpl;
          by eapply ran_update; [|exact Hst] ].
  - destruct (update_files (with_deleted (Some true) (Some now)) id s)
      as [s'|e] eqn:Hst;
      destruct vc;
      first
        [ left; run_operation Hf; rewrite ?Hst; reflexivity
        | right; exists id, f; do 3 (split; [done|]);
          run_operation Hf; rewrite Hst; simpl;
          by eapply ran_update; [|exact Hst] ].
  - destruct (update_files (with_deleted (Some false) None) id s)
      as [s'|e] eqn:Hst;
      first
        [ left; run_operation Hf; rewrite ?Hst; reflexivity
        | right; exists id, f; do 3 (split; [done|]);
          run_operation Hf; rewrite Hst; simpl;
          by eapply ran_update; [|exact Hst] ].
  - destruct (delete_files id s) as [s'|e] eqn:Hst;
      destruct vc;
      first
        [ left; run_operation Hf; rewrite ?Hst; reflexivity
        | right; exists id, f; do 3 (split; [done|]);
          run_operation Hf; rewrite Hst; simpl;
          by eapply ran_delete ].
  - destruct (insert_share_links new_id
                (new_link (owner_id f) now bytes id h p l) s)
      as [s'|e] eqn:Hst;
      destruct vc;
      first
        [ left; run_operation Hf; rewrite ?Hst; reflexivity
        | right; exists id, f; do 3 (split; [done|]);
          run_operation Hf; rewrite Hst; simpl;
          by eapply ran_insert_link; [|exact Hst] ].
Qed.

(** What a statement that ran leaves alone. *)
Lemma ran_others id f s s' :
  files s !! id = Some f → ran id f s s' →
  (∀ k, k ≠ id → files s' !! k = files s !! k) ∧
  (∀ u, u ≠ owner_id f → profiles s' !! u = profiles s !! u) ∧
  (∀ k sl, share_links s !! k = Some sl → file_id sl ≠ id →
           share_links s' !! k = Some sl).
Proof.
  intros Hf [set Hown Hupd | Hdel | new_id sl Hid Hins].
  - unfold update_files in Hupd. rewrite Hf in Hupd.
    destruct (update_storage_usage _ _) as [ps|] eqn:Htrig; [|done].
    injection Hupd as <-. simpl. split; [|split].
    + intros k Hk. by rewrite lookup_insert_ne.
    + intros u Hu. eapply update_storage_usage_other; [exact Htrig|].
      simpl. by rewrite Hown.
    + done.
  - unfold delete_files in Hdel. rewrite Hf in Hdel.
    destruct (update_storage_usage _ _) as [ps|] eqn:Htrig; [|done].
    injection Hdel as <-. simpl. split; [|split].
    + intros k Hk. by rewrite lookup_delete_ne.
    + intros u Hu. by eapply update_storage_usage_other; [exact Htrig|].
    + intros k sl Hk Hne. by apply map_lookup_filter_Some.
  - apply insert_share_links_Ok in Hins as (Hfresh & _ & ->). simpl.
    split; [done|]. split; [done|].
    intros k sl' Hk _. rewrite lookup_insert_ne; [done|]. congruence.
Qed.
End reach.

(** No operation reaches what belongs to someone else. Whatever
    [rename_file], [soft_delete_file], [restore_file],
    [permanently_delete_file] or [create_share_link] is called with, the
    files the caller does not own, the accounts of all other users and the
    share links to files the caller does not own are afterwards what they
    were before. *)
Theorem others_untouched (vc : variable_conflict) (op : operation)
    (uid p_file_id : option uuid) (s : db) :
  let s' := after vc op uid p_file_id s in
  (∀ id f, files s !! id = Some f → uid ≠ Some (owner_id f) →
           files s' !! id = Some f) ∧
  (∀ u, uid ≠ Some u → profiles s' !! u = profiles s !! u) ∧
  (∀ id sl f, share_links s !! id = Some sl →
              files s !! file_id sl = Some f → uid ≠ Some (owner_id f) →
              share_links s' !! id = Some sl).
Proof.
  cbv zeta.
  destruct (after_cases vc op uid p_file_id s)
    as [-> | (i & fi & -> & Hfi & -> & Hran)]; [done|].
  destruct (ran_others _ _ _ _ Hfi Hran) as (Hfiles & Hprofiles & Hlinks).
  split; [|split].
  - intros id f Hf Hne. rewrite Hfiles; [done|]. intros ->. congruence.
  - intros u Hne. apply Hprofiles. congruence.
  - intros id sl f Hsl Hf Hne. apply Hlinks; [done|]. intros Heq.
    rewrite Heq in Hf. congruence.
Qed.

(** ** References from share links to files *)

Section references.
Implicit Types (s : db) (id k : uuid) (f : file) (sl : share_link).

Lemma links_refer_files s s' :
  links_refer s → share_links s' ⊆ share_links s →
  (∀ k, is_Some (files s !! k) → is_Some (files s' !! k)) →
  links_refer s'.
Proof.
  intros Hrefer Hsub Hfiles id sl Hid. apply Hfiles.
  apply (Hrefer id). by eapply lookup_weaken.
Qed.

Lemma statement_refer m s s' :
  statement m s = Ok s' → links_refer s → links_refer s'.
Proof.
  assert (∀ set id, update_files set id s = Ok s' →
                    links_refer s → links_refer s') as Hupdate.
  { intros set id Hupd Hrefer. unfold update_files in Hupd.
    destruct (files s !! id) as [r|] eqn:Hr; [|by injection Hupd as <-].
    destruct (update_storage_usage _ _) as [ps|]; [|done].
    injection Hupd as <-. eapply links_refer_files; [done..|]. simpl.
    intros k Hk. destruct (decide (k = id)) as [->|Hne].
    - by rewrite lookup_insert_eq.
    - by rewrite lookup_insert_ne. }
  destruct m; simpl; try by apply Hupdate.
  - unfold insert_files. destruct (files s !! id) eqn:Hid; [done|].
    destruct (update_storage_usage _ _) as [ps|]; [|done].
    intros [= <-] Hrefer. eapply links_refer_files; [done..|]. simpl.
    intros k Hk. destruct (decide (k = id)) as [->|Hne].
    + by rewrite lookup_insert_eq.
    + by rewrite lookup_insert_ne.
  - unfold delete_files. destruct (files s !! id) eqn:Hid;
      [|by intros [= <-]].
    destruct (update_storage_usage _ _) as [ps|]; [|done].
    intros [= <-] Hrefer k sl. simpl.
    intros [Hk Hne]%map_lookup_filter_Some. simpl in Hne.
    rewrite lookup_delete_ne by done. by apply (Hrefer k).
Qed.

Lemma ran_refer id f s s' :
  files s !! id = Some f → ran id f s s' → links_refer s → links_refer s'.
Proof.
  intros Hf [set Hown Hupd | Hdel | new_id sl Hid Hins].
  - apply (statement_refer (Rewrite id (set f))). simpl.
    unfold update_files in *. by rewrite Hf in *.
  - by apply (statement_refer (PermanentDelete id)).
  - apply insert_share_links_Ok in Hins as (Hfresh & _ & ->).
    intros Hrefer k sl'. simpl.
    destruct (decide (k = new_id)) as [->|Hne].
    + rewrite lookup_insert_eq. intros [= <-]. by rewrite Hid, Hf.
    + rewrite lookup_insert_ne by done. apply Hrefer.
Qed.
End references.

(** The foreign key of [share_links.file_id] holds after every step: where
    every link refers to a file, it still does after any of the five
    operations, after any redemption and after any statement on the files
    table, the deletion of a file taking its links with it. *)
Theorem references_kept (vc : variable_conflict) (op : operation)
    (uid p_file_id : option uuid) (now : timestamptz)
    (p_token p_password : option string) (m : mutation) (s : db) :
  links_refer s →
  links_refer (after vc op uid p_file_id s) ∧
  links_refer (get_file_by_token now p_token p_password s).2 ∧
  links_refer (apply s m).
Proof.
  intros Hrefer. split; [|split].
  - destruct (after_cases vc op uid p_file_id s)
      as [-> | (i & fi & -> & Hfi & -> & Hran)]; [done|].
    by eapply ran_refer.
  - destruct (get_file_by_token_outcomes now p_token p_password s)
      as [-> | (i & sli & v & row & Hsel & _ & _ & ->)]; cbv zeta; [done|].
    pose proof (select_share_link_Some _ _ _ _ Hsel) as (Hin & _ & _).
    intros k sl. simpl. destruct (decide (k = i)) as [->|Hne].
    + rewrite lookup_insert_eq. intros [= <-]. simpl. by apply (Hrefer i).
    + rewrite lookup_insert_ne by done. apply Hrefer.
  - unfold apply. destruct (statement m s) as [s'|] eqn:Hst; [|done].
    by eapply statement_refer.
Qed.

Lemma references_kept_witness :
  links_refer shared_db ∧
  links_refer (after vc_use_column PermanentlyDeleteFile (Some alice)
                 (Some 7%N) shared_db) ∧
  links_refer (get_file_by_token 10 (Some "00ff1a000009") (Some "secret")
                 shared_db).2 ∧
  links_refer (apply shared_db (PermanentDelete 7%N)).
Proof.
  assert (links_refer shared_db) as Hrefer
    by (apply (bool_decide_unpack _); vm_compute; exact I).
  split; [exact Hrefer|].
  exact (references_kept vc_use_column PermanentlyDeleteFile (Some alice)
           (Some 7%N) 10 (Some "00ff1a000009") (Some "secret")
           (PermanentDelete 7%N) shared_db Hrefer).
Defined.

(** Where every link refers to a file, a redemption fails with [File not
    available] only when the file of the link is in the trash. *)
Theorem unavailable_means_trashed (now : timestamptz)
    (p_token p_password : option string) (s : db) :
  links_refer s →
  (get_file_by_token now p_token p_password s).1 = Err FileUnavailable →
  ∃ id sl f, select_share_link p_token s = Some (id, sl) ∧
             files s !! file_id sl = Some f ∧ is_deleted f = Some true.
Proof.
  intros Hrefer.
  destruct (select_share_link p_token s) as [[id sl]|] eqn:Hsel.
  2: { by rewrite get_file_by_token_unselected. }
  rewrite (get_file_by_token_selected _ _ _ _ _ _ Hsel).
  pose proof (select_share_link_Some _ _ _ _ Hsel) as (Hin & _ & _).
  destruct (Hrefer id sl Hin) as [f Hf].
  unfold redeem_selected. unfold_plpgsql.
  destruct (holds (sql_and (is_not_null (expires_at _)) _)); [done|].
  destruct (holds (sql_and (is_not_null (password _)) _)); [done|].
  destruct (holds (sql_and (is_not_null (download_limit _)) _)); [done|].
  unfold increment_download_count. rewrite Hin.
  destruct (integer_add _ _) as [v|e] eqn:Hadd; simpl.
  2: { unfold integer_add, in_range in Hadd.
       destruct (sql_arith _ _ _); [|done].
       case_bool_decide; [done|]. by injection Hadd as <-. }
  unfold select_available_file. simpl. rewrite Hf. simpl.
  unfold counted. destruct (is_deleted f) as [[]|] eqn:Hdel; simpl; try done.
  intros _. by exists id, sl, f.
Qed.

Lemma unavailable_means_trashed_witness :
  ∃ id sl f,
    select_share_link (Some "00ff1a000009") (apply shared_db (SoftDelete 7%N 5))
      = Some (id, sl) ∧
    files (apply shared_db (SoftDelete 7%N 5)) !! file_id sl = Some f ∧
    is_deleted f = Some true.
Proof.
  apply (unavailable_means_trashed 10 (Some "00ff1a000009") (Some "secret")
           (apply shared_db (SoftDelete 7%N 5))).
  - apply (bool_decide_unpack _). vm_compute. exact I.
  - vm_compute. reflexivity.
Defined.

(** The links of a file go with it: once the file is deleted, the token of
    any link that referred to it is refused as invalid. *)
Theorem deleted_file_links_invalid (now : timestamptz) (p : option string)
    (s s' : db) (id : uuid) (sl : share_link) (f : file) :
  unique_tokens s → share_links s !! id = Some sl →
  files s !! file_id sl = Some f → delete_files (file_id sl) s = Ok s' →
  get_file_by_token now (Some (token sl)) p s' = (Err InvalidToken, s').
Proof.
  intros Huniq Hid Hf Hdel. apply get_file_by_token_unselected.
  destruct (select_share_link (Some (token sl)) s') as [[id' sl']|] eqn:Hsel;
    [exfalso|done].
  apply select_share_link_Some in Hsel as (Hin' & Htok' & _).
  unfold delete_files in Hdel. rewrite Hf in Hdel.
  destruct (update_storage_usage _ _) as [ps|]; [|done].
  injection Hdel as <-. simpl in Hin'.
  apply map_lookup_filter_Some in Hin' as [Hin' Hne]. simpl in Hne.
  assert (id' = id) as -> by (eapply Huniq; [done..|congruence]).
  congruence.
Qed.

Lemma deleted_file_links_invalid_witness :
  get_file_by_token 10 (Some (token secret_link)) (Some "secret") fresh_db
  = (Err InvalidToken, fresh_db).
Proof.
  apply (deleted_file_links_invalid 10 (Some "secret") shared_db fresh_db
           50%N secret_link report).
  - apply (bool_decide_unpack _). vm_compute. exact I.
  - vm_compute. reflexivity.
  - vm_compute. reflexivity.
  - vm_compute. reflexivity.
Defined.

(** [rename_file], called by the owner with a new name, always succeeds
    where names are not read as an error: it sets [name], and
    [original_name] when one is given, on that row and changes nothing
    else; the ledger and the links stay as they are. Any text is taken as
    the name. Where names are read as variables the name it returns is
    NULL. *)
Theorem rename_file_renames (vc : variable_conflict) (uid : option uuid)
    (id : uuid) (n : string) (o : option string) (s : db) (f : file) :
  vc ≠ vc_error → files s !! id = Some f → uid = Some (owner_id f) →
  rename_file vc uid (Some id) (Some n) o s
  = (Ok (Some id, match vc with vc_use_variable => None | _ => Some n end),
     {| profiles := profiles s;
        files := <[id := with_name n (COALESCE o (original_name f)) f]> (files s);
        share_links := share_links s |}).
Proof.
  intros Hvc Hf ->.
  unfold rename_file, rename_file_body, select_owner_id, is_distinct_from.
  unfold_plpgsql. simpl. rewrite Hf. simpl.
  rewrite bool_decide_false by naive_solver. unfold update_files.
  pose proof (update_storage_usage_same f
                (with_name n (COALESCE o (original_name f)) f) (profiles s)
                eq_refl eq_refl (or_introl eq_refl)) as Htrig.
  destruct vc; [done| |]; simpl in *; rewrite Hf; simpl; by rewrite Htrig.
Qed.

Lemma rename_file_renames_witness :
  rename_file vc_use_variable (Some alice) (Some 7%N) (Some "") None stored_db
  = (Ok (Some 7%N, None),
     {| profiles := profiles stored_db;
        files := <[7%N := with_name "" (COALESCE None (original_name report))
                             report]> (files stored_db);
        share_links := share_links stored_db |}).
Proof.
  apply (rename_file_renames vc_use_variable (Some alice) 7%N "" None
           stored_db report).
  - discriminate.
  - vm_compute. reflexivity.
  - reflexivity.
Defined.

(** ** The whole listing *)

Section whole_listing.
Implicit Types (s : db) (f : file) (uid : option uuid).

Lemma list_files_where_holds uid p_folder_id p_include_deleted f :
  holds (list_files_where uid p_folder_id p_include_deleted f) = true
  ↔ in_listing uid p_folder_id p_include_deleted f.
Proof.
  unfold list_files_where, in_listing, counted.
  destruct uid as [u|], p_folder_id as [d|], (folder_id f) as [d'|],
    p_include_deleted as [[]|], (is_deleted f) as [[]|]; simpl;
    repeat match goal with
           | |- context [bool_decide ?P] =>
               destruct (decide P);
               [ rewrite (bool_decide_true P) by done
               | rewrite (bool_decide_false P) by done ]
           end; simpl; intuition congruence.
Qed.
End whole_listing.

(** Called without a limit, [list_files] shows each file of the caller in
    the folder asked for exactly once and nothing else: a file is listed
    if and only if the caller owns it, it lies in that folder (at the root
    where no folder is given) and it is not in the trash or the trash was
    asked for with [TRUE]. The call changes nothing. A caller that is not
    signed in is shown nothing. *)
Theorem list_files_exact (uid p_folder_id : option uuid)
    (p_include_deleted : option bool) (s : db) :
  ∃ rows,
    list_files uid p_folder_id None None p_include_deleted s = (Ok rows, s) ∧
    NoDup rows ∧
    (∀ id f, (id, f) ∈ rows ↔
             files s !! id = Some f ∧
             in_listing uid p_folder_id p_include_deleted f) ∧
    (uid = None → rows = []).
Proof.
  unfold list_files, list_files_body, select_files, limit_offset.
  unfold_plpgsql. simpl. eexists. split; [done|].
  assert (∀ id f,
            (id, f) ∈ merge_sort created_desc
              (filter (λ kv, holds (list_files_where uid p_folder_id
                                      p_include_deleted kv.2))
                 (map_to_list (files s)))
            ↔ files s !! id = Some f ∧
              in_listing uid p_folder_id p_include_deleted f) as Hin.
  { intros id f. rewrite merge_sort_Permutation, list_elem_of_filter.
    rewrite elem_of_map_to_list. simpl.
    rewrite <-list_files_where_holds.
    rewrite Is_true_true. tauto. }
  split; [|split; [exact Hin|]].
  - rewrite merge_sort_Permutation. apply NoDup_filter, NoDup_map_to_list.
  - intros ->. apply elem_of_nil_inv. intros [id f] Hrow.
    apply Hin in Hrow as (_ & Huid & _). done.
Qed.

(** ** Signing up *)

Section signup.
Implicit Types (s : db) (u : uuid).

Lemma usage_owns_nothing u s : owns_nothing u s → usage u (files s) = 0.
Proof.
  unfold owns_nothing. generalize (files s). intros fs.
  induction fs as [|id f fs Hfresh IH] using map_ind; intros Hnone.
  - apply usage_empty.
  - rewrite usage_insert_fresh by done.
    rewrite contribution_other.
    + rewrite IH; [done|]. intros j g Hj. apply (Hnone j).
      rewrite lookup_insert_ne; [done|]. intros ->. congruence.
    + intros ->. eapply (Hnone id f); [apply lookup_insert_eq | done].
Qed.
End signup.

(** [handle_new_user] gives the new user an account with nothing used and
    a limit of 5 GiB and touches nothing else; the full name of the
    account is never NULL; as the new user owns no file, a consistent
    ledger stays consistent. It fails, and the signup with it, exactly when
    the user has no e-mail address or has an account already. *)
Theorem signup_starts_consistent (new_id : uuid)
    (new_email meta_full_name : option string) (s : db) :
  (is_Ok (handle_new_user new_id new_email meta_full_name s) = true
   ↔ new_email ≠ None ∧ profiles s !! new_id = None) ∧
  ∀ s', handle_new_user new_id new_email meta_full_name s = Ok s' →
        is_Some (new_full_name new_email meta_full_name) ∧
        profiles s' !! new_id = Some new_profile ∧
        (∀ u, u ≠ new_id → profiles s' !! u = profiles s !! u) ∧
        files s' = files s ∧ share_links s' = share_links s ∧
        (ledger_ok s → owns_nothing new_id s → ledger_ok s').
Proof.
  unfold handle_new_user. split.
  - destruct new_email, (profiles s !! new_id); simpl; intuition congruence.
  - intros s'. destruct new_email; [|done].
    destruct (profiles s !! new_id) eqn:Hnew; [done|]. intros [= <-]. simpl.
    split; [by destruct meta_full_name|].
    split; [by rewrite lookup_insert_eq|].
    split; [by intros u Hu; rewrite lookup_insert_ne|].
    split; [done|]. split; [done|].
    intros Hled Hnone u p. simpl. destruct (decide (u = new_id)) as [->|Hne].
    + rewrite lookup_insert_eq. intros [= <-]. simpl.
      by rewrite usage_owns_nothing.
    + rewrite lookup_insert_ne by done. apply Hled.
Qed.

(** ** Inserting many files *)

Section bulk.
Variable bigint_in : string → attempt Z.
Variable uuid_in : string → attempt uuid.
Implicit Types (s : db) (fs : gmap uuid file) (ps : gmap uuid profile)
  (rows : list (uuid * file)) (uid : option uuid).

Lemma files_row_Done now v f :
  files_row now v = Done f →
  Some (owner_id f) = v_owner_id v ∧ counted f = true.
Proof.
  unfold files_row, not_null.
  destruct (v_name v), (v_original_name v), (v_file_path v),
    (v_file_type v), (v_file_size v), (v_owner_id v); simpl; try done.
  by intros [= <-].
Qed.

Lemma select_values_Done uid r v :
  select_values bigint_in uuid_in uid r = Done v → v_owner_id v = uid.
Proof.
  unfold select_values.
  destruct (cast bigint_in _); simpl; [|done].
  destruct (cast uuid_in _); simpl; [|done].
  by intros [= <-].
Qed.

Lemma insert_rows_Done uid now new_id records :
  ∀ i fs rows fs',
    insert_rows bigint_in uuid_in uid now new_id i records fs
      = Done (rows, fs') →
    length rows = length records ∧
    (∀ id f, fs' !! id = Some f ↔ fs !! id = Some f ∨ (id, f) ∈ rows) ∧
    Forall (λ row, Some (owner_id row.2) = uid ∧ counted row.2 = true ∧
                   fs !! row.1 = None) rows ∧
    (∀ u, usage u fs' = usage u fs + contributions u rows).
Proof.
  induction records as [|r records IH]; intros i fs rows fs'; simpl.
  { intros [= <- <-]. split; [done|]. split; [|split; [done|]].
    - intros id f. rewrite elem_of_nil. tauto.
    - intros u. simpl. lia. }
  destruct (select_values _ _ uid r) as [v|] eqn:Hv; simpl; [|done].
  destruct (files_row now v) as [f|] eqn:Hf; simpl; [|done].
  destruct (fs !! new_id i) eqn:Hfresh; [done|].
  destruct (insert_rows _ _ _ _ _ _ _ _) as [[rest fs'']|] eqn:Hrest;
    simpl; [|done].
  intros [= <- <-].
  destruct (IH _ _ _ _ Hrest) as (Hlen & Hin & Hall & Husage).
  apply files_row_Done in Hf as [Hown Hcounted].
  rewrite (select_values_Done _ _ _ Hv) in Hown.
  split; [by rewrite length_cons, Hlen|]. split; [|split].
  - intros id f'. rewrite Hin, elem_of_cons.
    destruct (decide (id = new_id i)) as [->|Hne].
    + rewrite lookup_insert_eq, Hfresh. split.
      * intros [[= ->] | ?]; auto.
      * intros [? | [[= ->] | ?]]; auto. done.
    + rewrite lookup_insert_ne by done. split.
      * intros [? | ?]; auto.
      * intros [? | [[= ? ?] | ?]]; auto. done.
  - apply Forall_cons. split; [done|].
    eapply Forall_impl; [exact Hall|]. intros row (? & ? & Hrow).
    apply lookup_insert_None in Hrow as [? _]. done.
  - intros u. rewrite Husage, usage_insert_fresh by done. simpl. lia.
Qed.

Lemma after_inserts_Done folders users rows :
  ∀ ps ps', after_inserts folders users rows ps = Done ps' →
  Forall (λ row, counted row.2 = true) rows →
  (∀ U, ledger_is ps U → ledger_is ps' (λ u, U u + contributions u rows)) ∧
  (∀ u, Forall (λ row, owner_id row.2 ≠ u) rows → ps' !! u = ps !! u).
Proof.
  induction rows as [|row rows IH]; intros ps ps'; simpl.
  { intros [= <-] _. split; [|done].
    intros U Hled. eapply ledger_is_ext; [done|]. intros u; simpl; lia. }
  unfold after_insert at 1.
  destruct (update_storage_usage (INSERT row.2) ps) as [ps1|] eqn:Htrig.
  2: { destruct (match folder_id row.2 with Some _ => _ | None => _ end);
         [done|]. by destruct (bool_decide _). }
  destruct (match folder_id row.2 with Some _ => _ | None => _ end);
    [done|].
  destruct (bool_decide _); [done|]. cbn [mbind attempt_bind].
  intros Hrest [Hcounted Hall]%Forall_cons.
  destruct (IH _ _ Hrest Hall) as [Hled Hother]. simpl in Htrig.
  rewrite Hcounted in Htrig. split.
  - intros U HU. eapply ledger_is_ext.
    + apply Hled. by eapply ledger_plus.
    + intros u; simpl; lia.
  - intros u [Hu Hus]%Forall_cons. rewrite Hother by done.
    by eapply update_profiles_other.
Qed.
End bulk.

(** [bulk_insert_files] inserts all the records or none. When it fails the
    database is as it was. When it succeeds it has inserted one row for
    each record, under ids that were free; every new row belongs to the
    caller, whatever the records say, and is not in the trash; the files
    that were there are untouched, as are the share links and the accounts
    of all other users; and a consistent ledger stays consistent, whatever
    the sizes of the new files. *)
Theorem bulk_insert_files_all_or_nothing
    (bigint_in : string → attempt Z) (uuid_in : string → attempt uuid)
    (folders users : gset uuid) (uid : option uuid) (now : timestamptz)
    (new_id : nat → uuid) (records : list file_record) (s : db) :
  let r := bulk_insert_files bigint_in uuid_in folders users uid now new_id
             records s in
  match r.1 with
  | Failed _ => r.2 = s
  | Done rows =>
      length rows = length records ∧
      share_links r.2 = share_links s ∧
      (∀ id f, files r.2 !! id = Some f
               ↔ files s !! id = Some f ∨ (id, f) ∈ rows) ∧
      Forall (λ row, Some (owner_id row.2) = uid ∧ counted row.2 = true ∧
                     files s !! row.1 = None) rows ∧
      (∀ u, uid ≠ Some u → profiles r.2 !! u = profiles s !! u) ∧
      (ledger_ok s → ledger_ok r.2)
  end.
Proof.
  cbv zeta. unfold bulk_insert_files.
  destruct (insert_rows _ _ _ _ _ _ _ _) as [[rows fs']|] eqn:Hrows;
    simpl; [|done].
  destruct (after_inserts _ _ _ _) as [ps'|] eqn:Hafter; simpl; [|done].
  destruct (insert_rows_Done _ _ _ _ _ _ _ _ _ _ Hrows)
    as (Hlen & Hin & Hall & Husage).
  destruct (after_inserts_Done _ _ _ _ _ Hafter) as [Hled Hother].
  { eapply Forall_impl; [exact Hall|]. by intros row (_ & ? & _). }
  split; [done|]. split; [done|]. split; [done|]. split; [done|]. split.
  - intros u Hu. apply Hother. eapply Forall_impl; [exact Hall|].
    intros row (Hrow & _) Heq. apply Hu. by rewrite <-Hrow, Heq.
  - intros Hok. apply ledger_ok_is. simpl. eapply ledger_is_ext.
    + apply Hled. by apply ledger_ok_is.
    + intros u. simpl. by rewrite Husage.
Qed.

(** Alice inserts two files, one of them into folder 3 and one with a
    negative size: both rows are hers and her ledger goes from 100 to 80.
    With a folder that is not there, nothing is inserted. *)
Example bulk_insert_files_sample :
  let r := bulk_insert_files sample_bigint_in sample_uuid_in
             {[ 3%N ]} {[ alice; bob ]} (Some alice) 20
             (λ i, N.of_nat (20 + i))
             [sample_record "40" (Some "3"); sample_record "-60" None]
             stored_db in
  is_Some (files r.2 !! 20%N) ∧ is_Some (files r.2 !! 21%N) ∧
  storage_used <$> profiles r.2 !! alice = Some (Some 80) ∧
  bulk_insert_files sample_bigint_in sample_uuid_in
    ∅ {[ alice; bob ]} (Some alice) 20 (λ i, N.of_nat (20 + i))
    [sample_record "40" None; sample_record "40" (Some "3")] stored_db
  = (Failed (foreign_key_violation "files_folder_id_fkey"), stored_db).
Proof. vm_compute. repeat split; eauto. Qed.

(** ** Requests under the policies *)

Section policies.
Implicit Types (s : db) (id : uuid) (f : file) (uid : option uuid).

Lemma policy_true uid x : policy uid x = true ↔ uid = Some x.
Proof.
  unfold policy. destruct uid as [u|]; simpl; [|done].
  case_bool_decide; simpl; split; congruence.
Qed.

Lemma policy_false uid x : policy uid x = false ↔ uid ≠ Some x.
Proof.
  rewrite <-policy_true. destruct (policy uid x); split; congruence.
Qed.

(** A request leaves the database as it was, or its sender owns the file
    it names and the statement has run on it, or it has inserted a row of
    its sender. *)
Lemma submit_cases folders users uid q s :
  let s' := settled (submit folders users uid q s) s in
  s' = s ∨
  (∃ id f, files s !! id = Some f ∧ uid = Some (owner_id f) ∧ ran id f s s') ∨
  (∃ id r, q = InsertFile id r ∧ uid = Some (owner_id r) ∧
           insert_files id r s = Ok s') ∨
  (∃ id r, q = InsertShareLink id r ∧ is_Some (files s !! file_id r) ∧
           insert_share_links id r s = Ok s').
Proof.
  cbv zeta. destruct q as [id r|id set|id|id r]; simpl.
  - destruct (policy uid (owner_id r)) eqn:Hpol; [|by left].
    apply policy_true in Hpol.
    destruct (insert_files id r s) as [s'|] eqn:Hins; simpl; [|by left].
    destruct (files_fkeys folders users r); simpl; [|by left].
    right; right; left. by exists id, r.
  - destruct (files s !! id) as [f|] eqn:Hf; [|by left].
    destruct (policy uid (owner_id f)) eqn:Hpol; [|by left].
    destruct (policy uid (owner_id (set f))) eqn:Hnew; [|by left].
    apply policy_true in Hpol, Hnew.
    destruct (update_files set id s) as [s'|] eqn:Hupd; simpl; [|by left].
    destruct (files_fkeys folders users (set f)); simpl; [|by left].
    right; left. exists id, f. split; [done|]. split; [done|].
    eapply ran_update; [|exact Hupd]. congruence.
  - destruct (files s !! id) as [f|] eqn:Hf; [|by left].
    destruct (policy uid (owner_id f)) eqn:Hpol; [|by left].
    apply policy_true in Hpol.
    destruct (delete_files id s) as [s'|] eqn:Hdel; simpl; [|by left].
    right; left. exists id, f. split; [done|]. split; [done|].
    by apply ran_delete.
  - destruct (policy uid (created_by r)) eqn:Hpol; [|by left].
    destruct (insert_share_links id r s) as [s'|] eqn:Hins; simpl; [|by left].
    case_bool_decide as Hfile; simpl; [by left|].
    case_bool_decide; simpl; [by left|].
    right; right; right. exists id, r. split; [done|]. split; [|done].
    by destruct (files s !! file_id r).
Qed.
End policies.

(** The requests of the application stay with their sender. Whatever row
    is inserted into [files] or [share_links], whatever file is updated or
    deleted, the files the sender does not own, the accounts of all other
    users and the share links that were there for files the sender does not
    own are afterwards what they were before. A request on the file of
    someone else is not refused: it succeeds and changes nothing. *)
Theorem requests_stay_with_sender (folders users : gset uuid)
    (uid : option uuid) (q : request) (s : db) :
  let s' := settled (submit folders users uid q s) s in
  (∀ id f, files s !! id = Some f → uid ≠ Some (owner_id f) →
           files s' !! id = Some f) ∧
  (∀ u, uid ≠ Some u → profiles s' !! u = profiles s !! u) ∧
  (∀ id sl f, share_links s !! id = Some sl →
              files s !! file_id sl = Some f → uid ≠ Some (owner_id f) →
              share_links s' !! id = Some sl) ∧
  (∀ id f set, files s !! id = Some f → uid ≠ Some (owner_id f) →
               submit folders users uid (UpdateFile id set) s = Done s ∧
               submit folders users uid (DeleteFile id) s = Done s).
Proof.
  cbv zeta. split; [|split; [|split]].
  4: { intros id f set Hf Hne%policy_false. simpl. by rewrite Hf, Hne. }
  all: destruct (submit_cases folders users uid q s)
         as [-> | [(i & fi & Hfi & -> & Hran)
                  | [(i & r & -> & -> & Hins) | (i & r & -> & _ & Hins)]]];
    cbv zeta in *; try done.
  - destruct (ran_others _ _ _ _ Hfi Hran) as (Hfiles & _ & _).
    intros id f Hf Hne. rewrite Hfiles; [done|]. intros ->. congruence.
  - revert Hins. generalize (settled (submit folders users (Some (owner_id r))
                                        (InsertFile i r) s) s).
    intros s' Hins id f Hf _. unfold insert_files in Hins.
    destruct (files s !! i) eqn:Hi; [done|].
    destruct (update_storage_usage _ _); [|done]. injection Hins as <-.
    simpl. rewrite lookup_insert_ne; [done|]. congruence.
  - apply insert_share_links_Ok in Hins as (_ & _ & ->). done.
  - destruct (ran_others _ _ _ _ Hfi Hran) as (_ & Hprofiles & _).
    intros u Hne. apply Hprofiles. congruence.
  - revert Hins. generalize (settled (submit folders users (Some (owner_id r))
                                        (InsertFile i r) s) s).
    intros s' Hins u Hne. unfold insert_files in Hins.
    destruct (files s !! i) eqn:Hi; [done|].
    destruct (update_storage_usage _ _) as [ps|] eqn:Htrig; [|done].
    injection Hins as <-. simpl.
    eapply update_storage_usage_other; [exact Htrig|]. simpl. congruence.
  - apply insert_share_links_Ok in Hins as (_ & _ & ->). done.
  - destruct (ran_others _ _ _ _ Hfi Hran) as (_ & _ & Hlinks).
    intros id sl f Hsl Hf Hne. apply Hlinks; [done|]. intros Heq.
    rewrite Heq in Hf. congruence.
  - revert Hins. generalize (settled (submit folders users (Some (owner_id r))
                                        (InsertFile i r) s) s).
    intros s' Hins id sl f Hsl _ _. unfold insert_files in Hins.
    destruct (files s !! i) eqn:Hi; [done|].
    destruct (update_storage_usage _ _); [|done]. by injection Hins as <-.
  - apply insert_share_links_Ok in Hins as (Hfresh & _ & ->).
    intros id sl f Hsl _ _. simpl. rewrite lookup_insert_ne; [done|].
    congruence.
Qed.

(** The policy of [share_links] looks at [created_by] alone. A user that is
    signed in can insert a link to any file that is not in the trash, the
    file of someone else as well, and whoever presents the token of the
    link to [get_file_by_token] is given the path, the names and the type
    of the file; [create_share_link] refuses the same user with [Not
    authorized]. *)
Theorem link_policy_skips_ownership (folders users : gset uuid) (u : uuid)
    (id fid : uuid) (f : file) (tok : string) (now : timestamptz)
    (p : option string) (s : db) :
  u ∈ users → files s !! fid = Some f → counted f = true →
  share_links s !! id = None →
  (∀ k sl, share_links s !! k = Some sl → token sl ≠ tok) →
  ∃ s', submit folders users (Some u) (InsertShareLink id (dialog_link fid tok u)) s
          = Done s' ∧
        get_file_by_token now (Some tok) p s'
          = (Ok (row_of fid f), counted_once id (dialog_link fid tok u) 0 s') ∧
        (u ≠ owner_id f →
         ∀ vc now' new_id random_bytes h pw l,
           create_share_link vc (Some u) now' new_id random_bytes (Some fid)
             h pw l s = (Err NotAuthorized, s)).
Proof.
  intros Hu Hf Hcounted Hfresh Htok.
  assert (insert_share_links id (dialog_link fid tok u) s
          = Ok {| profiles := profiles s; files := files s;
                  share_links := <[id := dialog_link fid tok u]> (share_links s) |})
    as Hins.
  { unfold insert_share_links. rewrite Hfresh.
    rewrite bool_decide_false; [done|].
    intros (k & sl & Hk & Heq). by apply (Htok k sl). }
  eexists. split; [|split].
  - simpl. unfold policy. simpl. rewrite bool_decide_true by done. simpl.
    rewrite Hins. simpl. rewrite bool_decide_false by congruence.
    by rewrite bool_decide_false by (intros Hn; by apply Hn).
  - assert (select_share_link (Some tok)
              {| profiles := profiles s; files := files s;
                 share_links := <[id := dialog_link fid tok u]> (share_links s) |}
            = Some (id, dialog_link fid tok u)) as Hsel.
    { apply (select_share_link_only _ id (dialog_link fid tok u)); simpl.
      - by rewrite lookup_insert_eq.
      - done.
      - intros k sl'. destruct (decide (k = id)) as [->|Hne]; [done|].
        rewrite lookup_insert_ne by done. intros Hk Heq.
        by destruct (Htok k sl'). }
    rewrite (get_file_by_token_selected _ _ _ _ _ _ Hsel). unfold call.
    rewrite (redeem_selected_pass _ _ _ _ _ 0).
    + unfold select_available_file. simpl. rewrite Hf. simpl.
      by rewrite Hcounted.
    + simpl. by rewrite lookup_insert_eq.
    + by intros (t & Ht & _).
    + by intros (a & b & Ha & _).
    + by intros (a & b & Ha & _).
    + done.
    + unfold integer_min, integer_max. lia.
  - intros Hne vc now' new_id random_bytes h pw l.
    unfold create_share_link, create_share_link_body, select_owner_id,
      is_distinct_from.
    unfold_plpgsql. simpl. rewrite Hf. simpl.
    by rewrite bool_decide_true by congruence.
Qed.

Lemma link_policy_skips_ownership_witness :
  ∃ s', submit ∅ {[ alice; bob ]} (Some bob)
          (InsertShareLink 60%N (dialog_link 7%N "t" bob)) stored_db
          = Done s' ∧
        get_file_by_token 10 (Some "t") None s'
          = (Ok (row_of 7%N report),
             counted_once 60%N (dialog_link 7%N "t" bob) 0 s') ∧
        (bob ≠ owner_id report →
         ∀ vc now' new_id random_bytes h pw l,
           create_share_link vc (Some bob) now' new_id random_bytes (Some 7%N)
             h pw l stored_db = (Err NotAuthorized, stored_db)).
Proof.
  apply (link_policy_skips_ownership ∅ {[ alice; bob ]} bob 60%N 7%N report
           "t" 10 None stored_db).
  - set_solver.
  - vm_compute. reflexivity.
  - reflexivity.
  - vm_compute. reflexivity.
  - intros k sl Hk. vm_compute in Hk. discriminate.
Defined.

(** ** Folders *)

Section folder_names.
Implicit Types (d : drive) (r g : folder) (id k : uuid).

Lemma same_folder_name_spec g r :
  same_folder_name g r = true ↔
  folder_name g = folder_name r ∧ folder_owner g = folder_owner r ∧
  ∃ p, parent_id g = Some p ∧ parent_id r = Some p.
Proof.
  unfold same_folder_name.
  destruct (parent_id g) as [p|], (parent_id r) as [q|]; simpl;
    repeat match goal with
           | |- context [bool_decide ?P] =>
               destruct (decide P);
               [ rewrite (bool_decide_true P) by done
               | rewrite (bool_decide_false P) by done ]
           end; simpl;
    split; try done; try (intros (? & ? & ? & ? & ?); congruence).
  intros _. subst. eauto.
Qed.
End folder_names.

(** The names of folders are kept apart inside a folder and not at the
    root. A user can always create one more folder at the root, whatever
    the names of the folders that are there; inside a folder, a second
    folder of the same user with the same name is refused by the [UNIQUE]
    constraint. *)
Theorem folder_names_clash_below_root (users : gset uuid) (u : uuid)
    (id : uuid) (r : folder) (d : drive) :
  folder_owner r = u → u ∈ users → folders d !! id = None →
  (parent_id r = None →
   insert_folders users (Some u) id r d
   = Done {| folders := <[id := r]> (folders d); tables := tables d |}) ∧
  (∀ k g p, folders d !! k = Some g → parent_id r = Some p →
            parent_id g = Some p → folder_name g = folder_name r →
            folder_owner g = u →
            insert_folders users (Some u) id r d
            = Failed (statement_exn
                        (unique_violation "unique_folder_name_per_parent"))).
Proof.
  intros Hown Hu Hfresh. unfold insert_folders, policy. simpl.
  rewrite Hown, bool_decide_true by done. simpl. rewrite Hfresh. split.
  - intros Hroot. rewrite bool_decide_false.
    + rewrite Hroot. by rewrite bool_decide_false by (intros Hn; by apply Hn).
    + intros (k & g & _ & (_ & _ & p & _ & Hp)%same_folder_name_spec).
      congruence.
  - intros k g p Hk Hr Hg Hname Hgown. rewrite bool_decide_true; [done|].
    exists k, g. split; [done|]. apply same_folder_name_spec.
    split; [done|]. split; [congruence|]. eauto.
Qed.

Lemma folder_names_clash_below_root_witness :
  (parent_id {| folder_name := "docs"; parent_id := None;
                folder_owner := alice |} = None →
   insert_folders {[ alice ]} (Some alice) 5%N
     {| folder_name := "docs"; parent_id := None; folder_owner := alice |}
     sample_drive
   = Done {| folders := <[5%N := {| folder_name := "docs"; parent_id := None;
                                    folder_owner := alice |}]>
                          (folders sample_drive);
             tables := tables sample_drive |}) ∧
  (∀ k g p, folders sample_drive !! k = Some g →
            parent_id {| folder_name := "docs"; parent_id := None;
                         folder_owner := alice |} = Some p →
            parent_id g = Some p →
            folder_name g = "docs" → folder_owner g = alice →
            insert_folders {[ alice ]} (Some alice) 5%N
              {| folder_name := "docs"; parent_id := None;
                 folder_owner := alice |} sample_drive
            = Failed (statement_exn
                        (unique_violation "unique_folder_name_per_parent"))).
Proof.
  apply (folder_names_clash_below_root {[ alice ]} alice 5%N
           {| folder_name := "docs"; parent_id := None; folder_owner := alice |}
           sample_drive).
  - reflexivity.
  - set_solver.
  - vm_compute. reflexivity.
Defined.

Section cascade.
Implicit Types (fs : gmap uuid folder) (D : gset uuid) (k x : uuid)
  (s : db) (d : drive).
#[local] Set Warnings "-clear-no-such-hyp".

Lemma lies_in_true D p : lies_in D p = true ↔ ∃ x, p = Some x ∧ x ∈ D.
Proof.
  unfold lies_in. destruct p as [x|].
  - rewrite bool_decide_eq_true. split; [eauto|]. by intros (? & [= <-] & ?).
  - split; [done|]. by intros (? & ? & _).
Qed.

Lemma elem_of_children fs D k :
  k ∈ children fs D ↔ ∃ g p, fs !! k = Some g ∧ parent_id g = Some p ∧ p ∈ D.
Proof.
  unfold children. rewrite elem_of_dom. split.
  - intros [g [Hk Hin]%map_lookup_filter_Some]. simpl in Hin.
    apply lies_in_true in Hin as (p & Hp & Hin). eauto.
  - intros (g & p & Hk & Hp & Hin). exists g.
    apply map_lookup_filter_Some. split; [done|]. simpl.
    apply lies_in_true. eauto.
Qed.

Lemma children_dom fs D : children fs D ⊆ dom fs.
Proof.
  intros k (g & _ & Hk & _)%elem_of_children. apply elem_of_dom. eauto.
Qed.

Lemma descend_mono n fs D : D ⊆ descend n fs D.
Proof.
  revert D. induction n as [|n IH]; intros D; simpl; [done|].
  etrans; [|apply IH]. set_solver.
Qed.

Lemma descend_fixed n fs D : children fs D ⊆ D → descend n fs D = D.
Proof.
  intros Hclosed. induction n as [|n IH]; simpl; [done|].
  assert (D ∪ children fs D = D) as -> by set_solver. done.
Qed.

Lemma descend_closed n fs D :
  D ⊆ dom fs → (size (dom fs ∖ D) ≤ n)%nat →
  children fs (descend n fs D) ⊆ descend n fs D.
Proof.
  revert D. induction n as [|n IH]; intros D Hdom Hsize; simpl.
  - assert (dom fs ∖ D ≡ ∅) as Hempty by (apply size_empty_iff; lia).
    intros k Hk%children_dom.
    destruct (decide (k ∈ D)); [done|]. set_solver.
  - destruct (decide (children fs D ⊆ D)) as [Hclosed|Hopen].
    + assert (D ∪ children fs D = D) as -> by set_solver.
      by rewrite descend_fixed.
    + apply IH.
      * pose proof (children_dom fs D). set_solver.
      * assert (dom fs ∖ (D ∪ children fs D) ⊂ dom fs ∖ D) as Hless.
        { split; [set_solver|]. intros Hsub. apply Hopen. intros k Hk.
          destruct (decide (k ∈ D)); [done|].
          pose proof (children_dom fs D k Hk). set_solver. }
        apply subset_size in Hless. lia.
Qed.

Lemma descend_members n fs D k :
  k ∈ descend n fs D →
  k ∈ D ∨ ∃ g p, fs !! k = Some g ∧ parent_id g = Some p ∧
                 p ∈ descend n fs D.
Proof.
  revert D. induction n as [|n IH]; intros D; simpl; [by left|].
  intros [[Hk | Hk]%elem_of_union | Hk]%IH; [by left | | by right].
  apply elem_of_children in Hk as (g & p & Hg & Hp & Hin). right.
  exists g, p. split; [done|]. split; [done|].
  apply descend_mono. set_solver.
Qed.

Lemma doomed_spec fs x :
  is_Some (fs !! x) →
  x ∈ doomed fs x ∧
  (∀ k g p, fs !! k = Some g → parent_id g = Some p → p ∈ doomed fs x →
            k ∈ doomed fs x) ∧
  (∀ k, k ∈ doomed fs x →
        k = x ∨ ∃ g p, fs !! k = Some g ∧ parent_id g = Some p ∧
                       p ∈ doomed fs x).
Proof.
  intros Hx%elem_of_dom. unfold doomed. split; [|split].
  - apply descend_mono. set_solver.
  - intros k g p Hk Hp Hin. apply descend_closed.
    + set_solver.
    + rewrite <-size_dom. pose proof (subseteq_size (dom fs ∖ {[x]}) (dom fs)).
      set_solver.
    + apply elem_of_children. eauto.
  - intros k [Hk | Hk]%descend_members; [left; set_solver | by right].
Qed.

Lemma delete_files_files id s s' :
  delete_files id s = Ok s' → files s' = delete id (files s).
Proof.
  unfold delete_files. destruct (files s !! id) eqn:Hid.
  - destruct (update_storage_usage _ _); [|done]. by intros [= <-].
  - intros [= <-]. by rewrite delete_id.
Qed.

Lemma delete_each_spec ids s s' :
  delete_each ids s = Ok s' →
  (∀ k, files s' !! k = if decide (k ∈ ids) then None else files s !! k) ∧
  (ledger_ok s → sizes_ok s → ledger_ok s' ∧ sizes_ok s') ∧
  (links_refer s → links_refer s').
Proof.
  revert s. induction ids as [|id ids IH]; intros s; simpl.
  { intros [= <-]. split; [|done]. intros k.
    destruct (decide (k ∈ [])) as [Hk|]; [|done]. by apply elem_of_nil in Hk. }
  destruct (delete_files id s) as [s1|] eqn:Hdel; simpl; [|done].
  intros (Hfiles & Hledger & Hrefer)%IH. split; [|split].
  - intros k. rewrite Hfiles, (delete_files_files _ _ _ Hdel).
    destruct (decide (k ∈ ids)) as [Hk|Hk],
      (decide (k ∈ id :: ids)) as [Hk'|Hk']; try done.
    + destruct Hk'. apply elem_of_cons. by right.
    + apply elem_of_cons in Hk' as [->|?]; [|done]. apply lookup_delete_eq.
    + apply lookup_delete_ne. intros ->. apply Hk'. apply elem_of_cons. by left.
  - intros Hled Hsizes. apply Hledger; by eapply delete_files_ledger.
  - intros Hr. apply Hrefer. by apply (statement_refer (PermanentDelete id) s).
Qed.
End cascade.

(** The deletion of a folder by its owner takes with it the folder, every
    folder below it and every file in one of them, the files in the trash
    as well, and nothing else; no folder and no file is left behind in a
    folder that is gone; and where no file has a negative size, the
    triggers of the deleted files keep a consistent ledger consistent. *)
Theorem folder_delete_cascades (uid : option uuid) (x : uuid) (g : folder)
    (d d' : drive) :
  folders d !! x = Some g → uid = Some (folder_owner g) →
  delete_folders uid x d = Done d' →
  let D := doomed (folders d) x in
  x ∈ D ∧
  (∀ k, k ∈ D →
        k = x ∨ ∃ h p, folders d !! k = Some h ∧ parent_id h = Some p ∧ p ∈ D) ∧
  (∀ k h, folders d' !! k = Some h ↔ folders d !! k = Some h ∧ k ∉ D) ∧
  (∀ id f, files (tables d') !! id = Some f
           ↔ files (tables d) !! id = Some f ∧ lies_in D (folder_id f) = false) ∧
  (tree_ok d → tree_ok d') ∧
  (ledger_ok (tables d) → sizes_ok (tables d) → ledger_ok (tables d')) ∧
  (links_refer (tables d) → links_refer (tables d')).
Proof.
  intros Hx -> Hdel. cbv zeta.
  destruct (doomed_spec (folders d) x) as (Hin & Hclosed & Hmembers); [by eexists|].
  unfold delete_folders, policy in Hdel. rewrite Hx in Hdel. simpl in Hdel.
  rewrite bool_decide_true in Hdel by done. simpl in Hdel.
  unfold cascade in Hdel.
  destruct (delete_each _ _) as [s'|] eqn:Heach; simpl in Hdel; [|done].
  injection Hdel as <-. simpl.
  apply delete_each_spec in Heach as (Hfiles & Hledger & Hrefer).
  assert (∀ id f, files s' !! id = Some f
                  ↔ files (tables d) !! id = Some f ∧
                    lies_in (doomed (folders d) x) (folder_id f) = false)
    as Hleft.
  { intros id f. rewrite Hfiles. case_decide as Hid.
    - split; [done|]. intros [Hf Hout].
      apply list_elem_of_fmap in Hid as ([id' f'] & -> & Hrow).
      apply elem_of_map_to_list, map_lookup_filter_Some in Hrow as [Hf' Hgone].
      simpl in *. congruence.
    - split.
      + intros Hf. split; [done|].
        destruct (lies_in _ _) eqn:Hgone; [|done]. destruct Hid.
        apply list_elem_of_fmap. exists (id, f). split; [done|].
        apply elem_of_map_to_list, map_lookup_filter_Some. done.
      + by intros [Hf _]. }
  split; [done|]. split; [done|]. split; [|split; [done|split; [|split]]].
  - intros k h. rewrite map_lookup_filter_Some. done.
  - intros [Hparents Hfolders]. split.
    + intros k h p [Hk Hout]%map_lookup_filter_Some Hp. simpl in *.
      destruct (Hparents k h p Hk Hp) as [h' Hh']. exists h'.
      apply map_lookup_filter_Some. split; [done|]. simpl.
      intros Hdoomed. apply Hout. by eapply Hclosed.
    + intros id f p [Hf Hout]%Hleft Hp. simpl in *.
      destruct (Hfolders id f p Hf Hp) as [h' Hh']. exists h'.
      apply map_lookup_filter_Some. split; [done|]. simpl.
      intros Hdoomed. rewrite Hp in Hout. simpl in Hout.
      by rewrite bool_decide_true in Hout.
  - intros Hled Hsizes. by apply Hledger.
  - done.
Qed.

Lemma folder_delete_cascades_witness :
  let D := doomed (folders sample_drive) 3%N in
  let d' := {| folders := ∅;
               tables :=
                 {| profiles := {[ alice := with_storage_used (Some 100)
                                              empty_profile;
                                   bob := empty_profile ]};
                    files := {[ 7%N := report ]}; share_links := ∅ |} |} in
  3%N ∈ D ∧
  (∀ k, k ∈ D →
        k = 3%N ∨ ∃ h p, folders sample_drive !! k = Some h ∧
                         parent_id h = Some p ∧ p ∈ D) ∧
  (∀ k h, folders d' !! k = Some h ↔ folders sample_drive !! k = Some h ∧ k ∉ D) ∧
  (∀ id f, files (tables d') !! id = Some f
           ↔ files (tables sample_drive) !! id = Some f ∧
             lies_in D (folder_id f) = false) ∧
  (tree_ok sample_drive → tree_ok d') ∧
  (ledger_ok (tables sample_drive) → sizes_ok (tables sample_drive) →
   ledger_ok (tables d')) ∧
  (links_refer (tables sample_drive) → links_refer (tables d')).
Proof.
  apply (folder_delete_cascades (Some alice) 3%N
           {| folder_name := "docs"; parent_id := None; folder_owner := alice |}
           sample_drive).
  - vm_compute. reflexivity.
  - reflexivity.
  - vm_compute. reflexivity.
Defined.

(** ** The file list of the application *)

Section badge.

Lemma office_document_includes (rest : string) :
  includes "document"
    ("application/vnd.openxmlformats-officedocument." +:+ rest) = true.
Proof. reflexivity. Qed.
End badge.

(** The badge of a type is decided by the first test that fits, and the
    test for a document comes before the ones for a spreadsheet and a
    presentation. So a type is badged [Spreadsheet] or [Presentation] only
    if it contains neither [document] nor [word], and every type of the
    Office Open XML family, the ones of spreadsheets and presentations as
    well, is badged [Document]. *)
Theorem office_types_badged_document (fileType rest : string) :
  (getFileTypeBadge fileType = "Spreadsheet" ∨
   getFileTypeBadge fileType = "Presentation" →
   includes "document" fileType = false ∧ includes "word" fileType = false) ∧
  getFileTypeBadge ("application/vnd.openxmlformats-officedocument." +:+ rest)
  = "Document".
Proof.
  split.
  - unfold getFileTypeBadge.
    destruct (startsWith "image/" fileType); [by intros [|]|].
    destruct (startsWith "video/" fileType); [by intros [|]|].
    destruct (startsWith "audio/" fileType); [by intros [|]|].
    destruct (bool_decide _); [by intros [|]|].
    destruct (includes "document" fileType), (includes "word" fileType);
      simpl; by intros [|].
  - unfold getFileTypeBadge.
    rewrite office_document_includes.
    rewrite bool_decide_false; [reflexivity|].
    destruct rest; discriminate.
Qed.

Section breadcrumbs.
Implicit Types (fs : gmap uuid folder) (id : option uuid)
  (crumbs : list Breadcrumb).

Lemma buildBreadcrumbs_S fuel fs id :
  buildBreadcrumbs (S fuel) fs id
  = match id with
    | None => Some [all_files]
    | Some i =>
        match fs !! i with
        | Some folder =>
            parentCrumbs ← buildBreadcrumbs fuel fs (parent_id folder);
            Some (parentCrumbs ++
                  [{| crumb_id := Some i; crumb_name := folder_name folder |}])
        | None => Some [all_files]
        end
    end.
Proof. reflexivity. Qed.

Lemma buildBreadcrumbs_returns n fs id :
  is_Some (buildBreadcrumbs (S n) fs id) ↔ depth_within n fs id = true.
Proof.
  revert id. induction n as [|n IH]; intros id; rewrite buildBreadcrumbs_S;
    destruct id as [i|]; try (split; [done|by eexists]).
  - simpl. destruct (fs !! i); simpl.
    + split; [by intros [? ?]|done].
    + split; [done|by eexists].
  - cbn [depth_within]. destruct (fs !! i) as [g|];
      [|split; [done|by eexists]].
    rewrite <-IH.
    destruct (buildBreadcrumbs (S n) fs (parent_id g)); simpl;
      split; try done; try (by eexists); by intros [? ?].
Qed.

Lemma buildBreadcrumbs_more fuel fs id crumbs :
  buildBreadcrumbs fuel fs id = Some crumbs →
  buildBreadcrumbs (S fuel) fs id = Some crumbs.
Proof.
  revert id crumbs. induction fuel as [|fuel IH]; intros id crumbs; [done|].
  rewrite !buildBreadcrumbs_S.
  destruct id as [i|]; [|done]. destruct (fs !! i) as [g|]; [|done].
  destruct (buildBreadcrumbs fuel fs (parent_id g)) as [parents|] eqn:Hp;
    [|done].
  by rewrite (IH _ _ Hp).
Qed.

Lemma buildBreadcrumbs_trail fuel fs id crumbs :
  buildBreadcrumbs fuel fs id = Some crumbs →
  head crumbs = Some all_files ∧
  Forall (λ c, ∃ i g, crumb_id c = Some i ∧ fs !! i = Some g ∧
                      crumb_name c = folder_name g) (tail crumbs) ∧
  (∀ i g, id = Some i → fs !! i = Some g →
          last crumbs = Some {| crumb_id := Some i;
                                crumb_name := folder_name g |}).
Proof.
  revert id crumbs. induction fuel as [|fuel IH]; intros id crumbs; [done|].
  simpl. destruct id as [i|].
  2: { intros [= <-]. by repeat split. }
  destruct (fs !! i) as [g|] eqn:Hi.
  2: { intros [= <-]. repeat split; [done|]. congruence. }
  destruct (buildBreadcrumbs fuel fs (parent_id g)) as [parents|] eqn:Hp;
    simpl; [|done].
  intros [= <-]. destruct (IH _ _ Hp) as (Hhead & Htail & _).
  destruct parents as [|c parents]; [done|].
  split; [done|]. split.
  - simpl in *. apply Forall_app. split; [done|]. apply Forall_singleton. eauto.
  - intros i' g' [= <-] Hg'. assert (g' = g) as -> by congruence.
    by rewrite last_snoc.
Qed.
End breadcrumbs.

(** [buildBreadcrumbs] comes back exactly when the folders from the one
    asked for up to the root, or up to a folder the user is not shown, are
    finitely many; on folders that lie in one another it never does. When
    it comes back the trail starts with [All Files], goes on with folders
    the user is shown, under their names, and ends with the folder asked
    for if the user is shown it; asking longer gives the same trail. *)
Theorem breadcrumbs_trail (fs : gmap uuid folder) (id : option uuid) :
  (∀ n, is_Some (buildBreadcrumbs (S n) fs id) ↔ depth_within n fs id = true) ∧
  (∀ fuel crumbs,
     buildBreadcrumbs fuel fs id = Some crumbs →
     head crumbs = Some all_files ∧
     Forall (λ c, ∃ i g, crumb_id c = Some i ∧ fs !! i = Some g ∧
                         crumb_name c = folder_name g) (tail crumbs) ∧
     (∀ i g, id = Some i → fs !! i = Some g →
             last crumbs = Some {| crumb_id := Some i;
                                   crumb_name := folder_name g |}) ∧
     (∀ more, (fuel ≤ more)%nat → buildBreadcrumbs more fs id = Some crumbs)) ∧
  (∀ i g, id = Some i → fs !! i = Some g → parent_id g = Some i →
          ∀ fuel, buildBreadcrumbs fuel fs id = None).
Proof.
  split; [|split].
  - intros n. apply buildBreadcrumbs_returns.
  - intros fuel crumbs Hrun.
    destruct (buildBreadcrumbs_trail _ _ _ _ Hrun) as (Hhead & Htail & Hlast).
    split; [done|]. split; [done|]. split; [done|].
    intros more Hmore. induction Hmore as [|more _ IH]; [done|].
    by apply buildBreadcrumbs_more.
  - intros i g -> Hi Hself fuel.
    induction fuel as [|fuel IH]; [done|]. simpl. rewrite Hi, Hself.
    by rewrite IH.
Qed.

(** The trail of the folder [old] in [docs]. *)
Example breadcrumbs_sample :
  buildBreadcrumbs 3 (view (Some alice) (folders sample_drive)) (Some 4%N)
  = Some [all_files; {| crumb_id := Some 3%N; crumb_name := "docs" |};
          {| crumb_id := Some 4%N; crumb_name := "old" |}] ∧
  buildBreadcrumbs 3 (view (Some bob) (folders sample_drive)) (Some 4%N)
  = Some [all_files].
Proof. vm_compute. split; reflexivity. Qed.

(** ** Redemption at the edges *)

(** A redemption without a token finds no link, whatever links there are.
    And the counter of a link is an [INTEGER]: once it stands at
    2147483647 a redemption that passes every guard fails with an
    overflow and changes nothing, so a link without limit is good for that
    many downloads and no more. *)
Theorem redemption_edges (now : timestamptz)
    (p_token p_password : option string) (s : db) :
  get_file_by_token now None p_password s = (Err InvalidToken, s) ∧
  ∀ id sl, select_share_link p_token s = Some (id, sl) →
           ¬ link_expired now sl → ¬ password_differs p_password sl →
           ¬ limit_reached sl → download_count sl = Some integer_max →
           get_file_by_token now p_token p_password s
           = (Err numeric_value_out_of_range, s).
Proof.
  split.
  - apply get_file_by_token_unselected.
    destruct (select_share_link None s) as [[id sl]|] eqn:Hsel; [|done].
    by apply select_share_link_Some in Hsel as (_ & ? & _).
  - intros id sl Hsel Hexp Hpw Hlim Hcount.
    rewrite (get_file_by_token_selected _ _ _ _ _ _ Hsel).
    pose proof (select_share_link_Some _ _ _ _ Hsel) as (Hin & _ & _).
    unfold redeem_selected. unfold_plpgsql.
    decide_guard expired_guard. decide_guard password_guard.
    decide_guard limit_guard.
    unfold increment_download_count. rewrite Hin, Hcount.
    reflexivity.
Qed.

Example redemption_edges_sample :
  get_file_by_token 10 (Some "00ff1a000009") None worn_db
  = (Err numeric_value_out_of_range, worn_db).
Proof. vm_compute. reflexivity. Qed.
